(** * rulebook-monk: markup lexer, document assembler and HTML builder

    A shallow embedding of [lex.go], [roman.go] and [builder.go] of the
    [rulebook] package, with the properties stated by its specification.

    Go strings are byte sequences: they are modelled as [string] (a list of
    8-bit [ascii]), and [next] decodes UTF-8 as [unicode/utf8] does.  Go's
    [int] is modelled as [Z]; the positions and the line of the lexer are
    bounded by the length of the input, and the only counter that is
    incremented without such a bound ([Builder.tableRowIndex]) has its
    64-bit wrap-around written out.  A run-time panic (an index out of
    range, the call of a nil state) is the result [Panic].

    The file has three parts: the program (roman.go, the library functions
    it calls, lex.go, builder.go), the vocabulary of the properties, and
    the lemmas and theorems.  The theorems named C1 to C10 settle the
    properties of the specification: the lexer on unterminated constructs
    (C2, C3), the label of the first chapter (C10, C7), the content before
    the first heading (C1), sections after an annex (C4), tables (C8),
    lists (C6), the errors of the build (C9, C3) and paragraphs (C5). *)

From Stdlib Require Import ZArith List String Ascii Bool Lia Permutation.
From Equations Require Import Equations.
Import ListNotations.
Local Open Scope string_scope.
Local Open Scope Z_scope.

(** ** Bytes and strings *)

Definition byte_of (c : ascii) : Z := Z.of_nat (nat_of_ascii c).

Definition chr (n : nat) : string := String (ascii_of_nat n) EmptyString.

(** The line feed, ["\n"] in the Go source. *)
Definition nl : string := chr 10.

Definition len (s : string) : Z := Z.of_nat (String.length s).

(** [s[i:j]] for [0 <= i <= j <= len s] (Go panics otherwise; the lexer
    only slices inside these bounds). *)
Definition slice (s : string) (i j : Z) : string :=
  substring (Z.to_nat i) (Z.to_nat (j - i)) s.

(** [s[i:]]. *)
Fixpoint drop (n : nat) (s : string) : string :=
  match n, s with
  | O, _ => s
  | S _, EmptyString => EmptyString
  | S n', String _ s' => drop n' s'
  end.

Definition from (s : string) (i : Z) : string := drop (Z.to_nat i) s.

(** [strings.HasPrefix(s, p)]. *)
Definition HasPrefix (s p : string) : bool := String.prefix p s.

(** ** roman.go *)

Module Roman.

Definition maxTable : list Z :=
  [1000; 900; 500; 400; 100; 90; 50; 40; 10; 9; 5; 4; 1].

(** The map [numInv]; a key that is absent yields Go's zero value [""]. *)
Definition numInv (v : Z) : string :=
  if v =? 1000 then "M" else if v =? 900 then "CM"
  else if v =? 500 then "D" else if v =? 400 then "CD"
  else if v =? 100 then "C" else if v =? 90 then "XC"
  else if v =? 50 then "L" else if v =? 40 then "XL"
  else if v =? 10 then "X" else if v =? 9 then "IX"
  else if v =? 5 then "V" else if v =? 4 then "IV"
  else if v =? 1 then "I" else "".

Fixpoint highestDecimal_from (tbl : list Z) (n : Z) : Z :=
  match tbl with
  | [] => 1
  | v :: rest => if v <=? n then v else highestDecimal_from rest n
  end.

Definition highestDecimal (n : Z) : Z := highestDecimal_from maxTable n.

(** [for n > 0 { v := highestDecimal(n); out += numInv[v]; n -= v }].
    Every round subtracts a positive [v], which is the termination measure. *)
Equations? toRoman_loop (n : Z) (out : string) : string by wf (Z.to_nat n) lt :=
  toRoman_loop n out with Z_gt_dec n 0 => {
    | left _ => toRoman_loop (n - highestDecimal n)
                             (out ++ numInv (highestDecimal n));
    | right _ => out }.
Proof.
  assert (0 < highestDecimal n).
  { unfold highestDecimal, maxTable, highestDecimal_from.
    repeat match goal with
           | |- context [if ?c then _ else _] => destruct c
           end; lia. }
  lia.
Qed.

Definition toRoman (n : Z) : string := toRoman_loop n "".

End Roman.

(** ** The library functions the package calls *)

Module Go.

(** [unicode/utf8]: the replacement rune returned for an invalid encoding. *)
Definition RuneError : Z := 65533.

(** The table [first] of [unicode/utf8] for a lead byte [>= 0x80]: the
    length of the sequence and the range accepted for its second byte;
    [None] for a byte that cannot start a sequence. *)
Definition utf8_first (s0 : Z) : option (Z * Z * Z) :=
  if s0 <? 194 then None
  else if s0 <? 224 then Some (2, 128, 191)
  else if s0 =? 224 then Some (3, 160, 191)
  else if s0 <? 237 then Some (3, 128, 191)
  else if s0 =? 237 then Some (3, 128, 159)
  else if s0 <? 240 then Some (3, 128, 191)
  else if s0 =? 240 then Some (4, 144, 191)
  else if s0 <? 244 then Some (4, 128, 191)
  else if s0 =? 244 then Some (4, 128, 143)
  else None.

Definition is_cont (b : Z) : bool := (128 <=? b) && (b <=? 191).

(** [utf8.DecodeRuneInString]: the first rune of [s] and its width in
    bytes; [(RuneError, 0)] for the empty string and [(RuneError, 1)] for
    an invalid encoding. *)
Definition DecodeRuneInString (s : string) : Z * Z :=
  match s with
  | EmptyString => (RuneError, 0)
  | String c0 t =>
    let s0 := byte_of c0 in
    if s0 <? 128 then (s0, 1)
    else
      match utf8_first s0 with
      | None => (RuneError, 1)
      | Some (sz, lo, hi) =>
        if len s <? sz then (RuneError, 1)
        else
          match t with
          | EmptyString => (RuneError, 1)
          | String c1 t1 =>
            let s1 := byte_of c1 in
            if (s1 <? lo) || (hi <? s1) then (RuneError, 1)
            else if sz <=? 2 then
              (Z.lor (Z.shiftl (Z.land s0 31) 6) (Z.land s1 63), 2)
            else
              match t1 with
              | EmptyString => (RuneError, 1)
              | String c2 t2 =>
                let s2 := byte_of c2 in
                if negb (is_cont s2) then (RuneError, 1)
                else if sz <=? 3 then
                  (Z.lor (Z.lor (Z.shiftl (Z.land s0 15) 12)
                                (Z.shiftl (Z.land s1 63) 6))
                         (Z.land s2 63), 3)
                else
                  match t2 with
                  | EmptyString => (RuneError, 1)
                  | String c3 _ =>
                    let s3 := byte_of c3 in
                    if negb (is_cont s3) then (RuneError, 1)
                    else
                      (Z.lor (Z.lor (Z.lor (Z.shiftl (Z.land s0 7) 18)
                                           (Z.shiftl (Z.land s1 63) 12))
                                    (Z.shiftl (Z.land s2 63) 6))
                             (Z.land s3 63), 4)
                  end
              end
          end
      end
  end.

(** White space as [strings.TrimSpace] sees it in the ASCII range: tab,
    line feed, vertical tab, form feed, carriage return and space.  The
    white space runes outside ASCII (U+0085, U+00A0, ...) are not
    modelled: such bytes are kept. *)
Definition isSpace (c : ascii) : bool :=
  let b := byte_of c in ((9 <=? b) && (b <=? 13)) || (b =? 32).

Fixpoint TrimLeft (s : string) : string :=
  match s with
  | EmptyString => EmptyString
  | String c t => if isSpace c then TrimLeft t else s
  end.

Fixpoint TrimRight (s : string) : string :=
  match s with
  | EmptyString => EmptyString
  | String c t =>
    match TrimRight t with
    | EmptyString => if isSpace c then EmptyString else String c EmptyString
    | t' => String c t'
    end
  end.

(** [strings.TrimSpace]. *)
Definition TrimSpace (s : string) : string := TrimRight (TrimLeft s).

(** [strings.Split(s, sep)] for a separator of one byte: the pieces between
    the separators, always at least one piece. *)
Fixpoint Split (s : string) (sep : ascii) : list string :=
  match s with
  | EmptyString => [EmptyString]
  | String c t =>
    if Ascii.eqb c sep then EmptyString :: Split t sep
    else
      match Split t sep with
      | [] => [String c EmptyString]
      | p :: ps => String c p :: ps
      end
  end.

(** [strings.Join(parts, sep)]. *)
Fixpoint Join (parts : list string) (sep : string) : string :=
  match parts with
  | [] => EmptyString
  | [p] => p
  | p :: ps => p ++ sep ++ Join ps sep
  end.

(** [strings.Replace(s, old, new, -1)] for [old] of one byte. *)
Fixpoint ReplaceAll (s : string) (old : ascii) (new : string) : string :=
  match s with
  | EmptyString => EmptyString
  | String c t =>
    if Ascii.eqb c old then new ++ ReplaceAll t old new
    else String c (ReplaceAll t old new)
  end.

(** [strings.ToLower] on the ASCII letters; bytes outside ASCII are kept
    (the case mapping of other scripts is not modelled). *)
Definition lower (c : ascii) : ascii :=
  let n := nat_of_ascii c in
  if ((65 <=? n) && (n <=? 90))%nat then ascii_of_nat (n + 32) else c.

Fixpoint ToLower (s : string) : string :=
  match s with
  | EmptyString => EmptyString
  | String c t => String (lower c) (ToLower t)
  end.

End Go.

(** ** lex.go: tokens and the lexer state *)

Inductive itemType : Set :=
| itemError
| itemText
| itemBold
| itemEm
| itemNewLine
| itemChapter
| itemSection
| itemAnnex
| itemStartListElement
| itemEndListElement
| itemListOpen
| itemLink
| itemCommand
| itemListClose
| itemTableStart
| itemTableEnd
| itemTableRow
| itemEOF.

Definition itemType_eqb (a b : itemType) : bool :=
  match a, b with
  | itemError, itemError | itemText, itemText | itemBold, itemBold
  | itemEm, itemEm | itemNewLine, itemNewLine | itemChapter, itemChapter
  | itemSection, itemSection | itemAnnex, itemAnnex
  | itemStartListElement, itemStartListElement
  | itemEndListElement, itemEndListElement | itemListOpen, itemListOpen
  | itemLink, itemLink | itemCommand, itemCommand
  | itemListClose, itemListClose | itemTableStart, itemTableStart
  | itemTableEnd, itemTableEnd | itemTableRow, itemTableRow
  | itemEOF, itemEOF => true
  | _, _ => false
  end.

Record item : Set := mkItem { typ : itemType; val : string; line : Z }.

(** The constants of lex.go. *)
Definition newLine : string := nl.
Definition chapter : string := "#".
Definition boldRune : Z := 42.
Definition emSymbol : string := "__".
Definition section : string := "##".
Definition table : string := "-table-".
Definition annex : string := "ANNEX".
Definition listElement : string := nl ++ "- ".
Definition cmdStart : Z := 92.
Definition eof : Z := 0.

(** A [stateFn] is a Go closure; the closures the package builds are
    enumerated, each with the values it captures ([fn] is the state to
    return to, [cmd] and [text] the command name and the link text). *)
Inductive stateFn : Set :=
| lexText
| lexChapter
| lexSection
| lexAnnex
| lexListItem
| lexBold (fn : stateFn)
| lexEm (fn : stateFn)
| lexTableTitle (fn : stateFn)
| lexTable (fn : stateFn)
| lexCmdName (fn : stateFn)
| lexCmdArgs (cmd : string) (fn : stateFn)
| lexLinkHead (fn : stateFn)
| lexLinkTail (text : string) (fn : stateFn).

(** The [lexer] struct.  [items] is the buffered channel (capacity 3), as
    the queue of the items sent and not yet received; [state] is [None] for
    a nil [stateFn]; [lline] is the field [line] (the name [line] is the
    field of [item]). *)
Record lexer : Set := mkLexer {
  input : string;
  start : Z;
  pos : Z;
  width : Z;
  lline : Z;
  items : list item;
  state : option stateFn
}.

Definition set_start (l : lexer) (v : Z) : lexer :=
  mkLexer (input l) v (pos l) (width l) (lline l) (items l) (state l).
Definition set_pos (l : lexer) (v : Z) : lexer :=
  mkLexer (input l) (start l) v (width l) (lline l) (items l) (state l).
Definition set_width (l : lexer) (v : Z) : lexer :=
  mkLexer (input l) (start l) (pos l) v (lline l) (items l) (state l).
Definition set_line (l : lexer) (v : Z) : lexer :=
  mkLexer (input l) (start l) (pos l) (width l) v (items l) (state l).
Definition set_state (l : lexer) (v : option stateFn) : lexer :=
  mkLexer (input l) (start l) (pos l) (width l) (lline l) (items l) v.
Definition send (l : lexer) (it : item) : lexer :=
  mkLexer (input l) (start l) (pos l) (width l) (lline l)
          (items l ++ [it]) (state l).
Definition set_items (l : lexer) (q : list item) : lexer :=
  mkLexer (input l) (start l) (pos l) (width l) (lline l) q (state l).

(** [lex(input)]. *)
Definition lex (inp : string) : lexer :=
  mkLexer inp 0 0 0 1 [] (Some lexText).

(** The pending text [l.input[l.start:l.pos]]. *)
Definition pending (l : lexer) : string := slice (input l) (start l) (pos l).

Definition emit (t : itemType) (l : lexer) : lexer :=
  set_start (send l (mkItem t (pending l) (lline l))) (pos l).

Definition emitCustom (t : itemType) (data : string) (l : lexer) : lexer :=
  send l (mkItem t data (lline l)).

Definition emitTrim (t : itemType) (l : lexer) : lexer :=
  set_start (send l (mkItem t (Go.TrimSpace (pending l)) (lline l))) (pos l).

(** [errorf], with the message already formatted. *)
Definition errorf (msg : string) (l : lexer) : lexer * option stateFn :=
  (send l (mkItem itemError msg (lline l)), None).

Definition ignore (l : lexer) : lexer := set_start l (pos l).

(** [l.input[i] == '\n'] for [i < len]. *)
Definition byte_at (s : string) (i : Z) : Z :=
  match String.get (Z.to_nat i) s with
  | Some c => byte_of c
  | None => 0
  end.

Definition backup (l : lexer) : lexer :=
  let l := set_pos l (pos l - width l) in
  if (pos l <? len (input l)) && (byte_at (input l) (pos l) =? 10)
  then set_line l (lline l - 1) else l.

Definition next (l : lexer) : Z * lexer :=
  if pos l >=? len (input l) then (eof, set_width l 0)
  else
    let '(r, w) := Go.DecodeRuneInString (from (input l) (pos l)) in
    let l := set_width l w in
    let l := set_pos l (pos l + w) in
    let l := if r =? 10 then set_line l (lline l + 1) else l in
    (r, l).

Definition next_ (l : lexer) : lexer := snd (next l).

Definition peek (l : lexer) : Z :=
  let '(r, _) := next l in r.

(** [strings.HasPrefix(l.input[l.pos:], p)]. *)
Definition at_prefix (l : lexer) (p : string) : bool :=
  HasPrefix (from (input l) (pos l)) p.

(** [if l.pos > l.start { l.emit(itemText) }]. *)
Definition flush (l : lexer) : lexer :=
  if pos l >? start l then emit itemText l else l.

(** [if l.pos > l.start { l.backup(); l.emit(itemText); l.next() }]. *)
Definition flush_before (l : lexer) : lexer :=
  if pos l >? start l then next_ (emit itemText (backup l)) else l.

(** ** lex.go: the state functions

    Every state function is a [for] loop whose rounds either go on
    ([Continue]) or return the next state ([Return]); the items are sent
    only in a round that returns.  [enter] is the code a closure runs before
    its loop, [body] is one round of the loop. *)

Inductive outcome : Set :=
| Continue (l : lexer)
| Return (l : lexer) (nxt : option stateFn).

Definition lexText_body (l : lexer) : outcome :=
  if at_prefix l section then
    Return (ignore (next_ (next_ (flush l)))) (Some lexSection)
  else if at_prefix l table then
    Return (flush l) (Some (lexTableTitle lexText))
  else if at_prefix l annex then
    let l := flush l in
    Return (ignore (set_pos l (pos l + 5))) (Some lexAnnex)
  else if at_prefix l chapter then
    Return (ignore (next_ (flush l))) (Some lexChapter)
  else if at_prefix l listElement then
    let l := ignore (next_ (next_ (next_ (flush l)))) in
    Return (emit itemStartListElement (emitTrim itemListOpen l))
           (Some lexListItem)
  else if at_prefix l newLine then
    let l := emitTrim itemNewLine (flush l) in
    Return (ignore (next_ l)) (Some lexText)
  else if at_prefix l emSymbol then
    Return (next_ (next_ (flush l))) (Some (lexEm lexText))
  else
    let '(r, l) := next l in
    if r =? cmdStart then Return (flush_before l) (Some (lexCmdName lexText))
    else if r =? boldRune then Return (flush_before l) (Some (lexBold lexText))
    else if r =? 91 then Return (flush_before l) (Some (lexLinkHead lexText))
    else if r =? eof then
      let l := if pos l >? start l then emitTrim itemText l else l in
      Return (emit itemEOF l) None
    else Continue l.

(** The loop shared by [lexChapter], [lexSection] and [lexAnnex], which
    differ in the type of the item they emit. *)
Definition lexHeading_body (t : itemType) (l : lexer) : outcome :=
  if at_prefix l newLine then Return (emitTrim t l) (Some lexText)
  else
    let '(r, l) := next l in
    if r =? eof then Return (backup l) (Some lexText)
    else Continue l.

Definition lexListItem_body (l : lexer) : outcome :=
  if at_prefix l listElement then
    let l := ignore (next_ (next_ (next_ (flush l)))) in
    Return (emit itemStartListElement (emit itemEndListElement l))
           (Some lexListItem)
  else if at_prefix l newLine then
    let l := flush l in
    Return (emitTrim itemListClose (emitTrim itemEndListElement l))
           (Some lexText)
  else if at_prefix l emSymbol then
    Return (next_ (next_ (flush l))) (Some (lexEm lexListItem))
  else
    let '(r, l) := next l in
    if r =? boldRune then
      Return (flush_before l) (Some (lexBold lexListItem))
    else if r =? eof then Return (backup l) (Some lexText)
    else Continue l.

Definition lexBold_body (fn : stateFn) (l : lexer) : outcome :=
  let '(r, l) := next l in
  if r =? boldRune then
    Return (ignore (next_ (emit itemBold (backup l)))) (Some fn)
  else Continue l.

Definition lexEm_body (fn : stateFn) (l : lexer) : outcome :=
  if at_prefix l emSymbol then
    Return (ignore (next_ (next_ (emit itemEm l)))) (Some fn)
  else Continue (next_ l).

Definition lexTableTitle_body (fn : stateFn) (l : lexer) : outcome :=
  let '(r, l) := next l in
  if r =? 10 then Return (emitTrim itemTableStart l) (Some (lexTable fn))
  else Continue l.

Definition lexTable_body (fn : stateFn) (l : lexer) : outcome :=
  if at_prefix l table then
    let l := emit itemTableEnd l in
    Return (ignore (set_pos l (pos l + len table))) (Some fn)
  else
    let '(r, l) := next l in
    if r =? 10 then Return (emitTrim itemTableRow l) (Some (lexTable fn))
    else Continue l.

Definition lexCmdName_body (fn : stateFn) (l : lexer) : outcome :=
  let '(r, l) := next l in
  if r =? 40 then
    let cmd := slice (input l) (start l) (pos l - 1) in
    Return (ignore l) (Some (lexCmdArgs cmd fn))
  else Continue l.

(** [fmt.Sprintf("%s|%s", a, b)]. *)
Definition bar (a b : string) : string := a ++ "|" ++ b.

Definition lexCmdArgs_body (cmd : string) (fn : stateFn) (l : lexer)
  : outcome :=
  let '(r, l) := next l in
  if r =? 41 then
    let l := backup l in
    let l := emitCustom itemCommand (bar cmd (pending l)) l in
    Return (ignore (next_ l)) (Some fn)
  else Continue l.

Definition lexLinkHead_body (fn : stateFn) (l : lexer) : outcome :=
  let '(r, l) := next l in
  if r =? 93 then
    let text := slice (input l) (start l) (pos l - 1) in
    Return (ignore (next_ l)) (Some (lexLinkTail text fn))
  else Continue l.

Definition lexLinkTail_body (text : string) (fn : stateFn) (l : lexer)
  : outcome :=
  let '(r, l) := next l in
  if r =? 41 then
    let l := backup l in
    let l := emitCustom itemLink (bar text (pending l)) l in
    Return (ignore (next_ l)) (Some fn)
  else Continue l.

(** What a state function does before it enters its loop. *)
Definition enter (st : stateFn) (l : lexer) : lexer :=
  match st with
  | lexBold _ | lexEm _ | lexCmdName _ | lexLinkHead _ => ignore l
  | lexTableTitle _ => ignore (set_pos l (pos l + len table))
  | _ => l
  end.

(** One round of the loop of a state function. *)
Definition body (st : stateFn) (l : lexer) : outcome :=
  match st with
  | lexText => lexText_body l
  | lexChapter => lexHeading_body itemChapter l
  | lexSection => lexHeading_body itemSection l
  | lexAnnex => lexHeading_body itemAnnex l
  | lexListItem => lexListItem_body l
  | lexBold fn => lexBold_body fn l
  | lexEm fn => lexEm_body fn l
  | lexTableTitle fn => lexTableTitle_body fn l
  | lexTable fn => lexTable_body fn l
  | lexCmdName fn => lexCmdName_body fn l
  | lexCmdArgs cmd fn => lexCmdArgs_body cmd fn l
  | lexLinkHead fn => lexLinkHead_body fn l
  | lexLinkTail text fn => lexLinkTail_body text fn l
  end.

(** ** Running the lexer

    Several loops of lex.go have no exit at the end of the input, so the
    runs are bounded by a number of rounds ([fuel]): [OutOfFuel] is a run
    that has not returned within the bound. *)

Inductive result (A : Type) : Type :=
| Done (a : A)
| OutOfFuel
| Panic.
Arguments Done {A} a.
Arguments OutOfFuel {A}.
Arguments Panic {A}.

(** The loop of a state function, from a lexer that has run [enter]. *)
Fixpoint loop (fuel : nat) (st : stateFn) (l : lexer)
  : result (lexer * option stateFn) :=
  match fuel with
  | O => OutOfFuel
  | S fuel' =>
    match body st l with
    | Continue l' => loop fuel' st l'
    | Return l' nxt => Done (l', nxt)
    end
  end.

(** The call [l.state(l)]. *)
Definition call (fuel : nat) (st : stateFn) (l : lexer)
  : result (lexer * option stateFn) :=
  loop fuel st (enter st l).

(** [nextItem]: receive an item when one is queued, else run the current
    state and try again.  Calling a nil state panics. *)
Fixpoint nextItem (fuel : nat) (l : lexer) : result (item * lexer) :=
  match items l with
  | it :: q => Done (it, set_items l q)
  | [] =>
    match fuel with
    | O => OutOfFuel
    | S fuel' =>
      match state l with
      | None => Panic
      | Some st =>
        match call fuel' st l with
        | Done (l', nxt) => nextItem fuel' (set_state l' nxt)
        | OutOfFuel => OutOfFuel
        | Panic => Panic
        end
      end
    end
  end.

(** The items received by the loop of [Build]: all the items up to the
    first [itemEOF] or [itemError], and that last item. *)
Fixpoint tokens (fuel : nat) (l : lexer) : result (list item * item) :=
  match fuel with
  | O => OutOfFuel
  | S fuel' =>
    match nextItem fuel' l with
    | Done (it, l') =>
      match typ it with
      | itemEOF | itemError => Done ([], it)
      | _ =>
        match tokens fuel' l' with
        | Done (its, last) => Done (it :: its, last)
        | OutOfFuel => OutOfFuel
        | Panic => Panic
        end
      end
    | OutOfFuel => OutOfFuel
    | Panic => Panic
    end
  end.

(** ** builder.go: the document and its assembly *)

Record Section : Set := mkSection { sTitle : string; sItems : list item }.

Record Chapter : Set := mkChapter {
  cTitle : string;
  cItems : list item;
  cSections : list Section
}.

Record Document : Set := mkDocument {
  Items : list item;
  Sections : list Section;
  Chapters : list Chapter;
  Annexes : list Section
}.

(** [f] applied to the last element of a list: the write through a pointer
    to [&xs[len(xs)-1]]. *)
Fixpoint update_last {A : Type} (f : A -> A) (xs : list A) : list A :=
  match xs with
  | [] => []
  | [x] => [f x]
  | x :: rest => x :: update_last f rest
  end.

(** The pointer [sections] of [Build]: [&document.Sections], or
    [&chapter.Sections] for the chapter appended last. *)
Inductive sectionsPtr : Set := SectionsOfDocument | SectionsOfChapter.

(** The pointer [items] of [Build]: [&document.Items], or the [Items] of
    the chapter appended last, of the section appended last to [*sections],
    or of the annex appended last.

    A pointer into a slice element is taken right after the append that
    created the element, and every later append to that slice sets the
    pointer again, so a pointer always designates the last element of the
    slice as it is now. *)
Inductive itemsPtr : Set :=
| ItemsOfDocument | ItemsOfChapter | ItemsOfSection | ItemsOfAnnex.

(** The variables of the loop of [Build] ([chapter_], [items_] and
    [section_] are [chapter], [items] and [section]: those names are taken
    by lex.go).  [chapter_] and [section_] are the indices the two pointers
    designate ([None] for nil); the loop writes them and never reads
    them. *)
Record assembler : Set := mkAssembler {
  document : Document;
  chapter_ : option nat;
  sections : sectionsPtr;
  items_ : itemsPtr;
  section_ : option nat
}.

Definition add_section (sp : sectionsPtr) (s : Section) (d : Document)
  : Document :=
  match sp with
  | SectionsOfDocument =>
    mkDocument (Items d) (Sections d ++ [s]) (Chapters d) (Annexes d)
  | SectionsOfChapter =>
    mkDocument (Items d) (Sections d)
      (update_last
         (fun c => mkChapter (cTitle c) (cItems c) (cSections c ++ [s]))
         (Chapters d))
      (Annexes d)
  end.

Definition section_add_item (it : item) (s : Section) : Section :=
  mkSection (sTitle s) (sItems s ++ [it]).

Definition add_item (sp : sectionsPtr) (ip : itemsPtr) (it : item)
  (d : Document) : Document :=
  match ip with
  | ItemsOfDocument =>
    mkDocument (Items d ++ [it]) (Sections d) (Chapters d) (Annexes d)
  | ItemsOfChapter =>
    mkDocument (Items d) (Sections d)
      (update_last
         (fun c => mkChapter (cTitle c) (cItems c ++ [it]) (cSections c))
         (Chapters d))
      (Annexes d)
  | ItemsOfAnnex =>
    mkDocument (Items d) (Sections d) (Chapters d)
      (update_last (section_add_item it) (Annexes d))
  | ItemsOfSection =>
    match sp with
    | SectionsOfDocument =>
      mkDocument (Items d)
        (update_last (section_add_item it) (Sections d))
        (Chapters d) (Annexes d)
    | SectionsOfChapter =>
      mkDocument (Items d) (Sections d)
        (update_last
           (fun c => mkChapter (cTitle c) (cItems c)
                       (update_last (section_add_item it) (cSections c)))
           (Chapters d))
        (Annexes d)
    end
  end.

Definition sections_length (sp : sectionsPtr) (d : Document) : nat :=
  match sp with
  | SectionsOfDocument => List.length (Sections d)
  | SectionsOfChapter =>
    match rev (Chapters d) with
    | c :: _ => List.length (cSections c)
    | [] => O
    end
  end.

(** The state of [Build] before its loop. *)
Definition assembler0 : assembler :=
  mkAssembler (mkDocument [] [] [] []) None SectionsOfDocument
              ItemsOfDocument None.

(** The [switch it.typ] of the loop of [Build]. *)
Definition assemble_item (a : assembler) (it : item) : assembler :=
  let d := document a in
  match typ it with
  | itemChapter =>
    let d' := mkDocument (Items d) (Sections d)
                (Chapters d ++ [mkChapter (val it) [] []]) (Annexes d) in
    mkAssembler d' (Some (List.length (Chapters d))) SectionsOfChapter
                ItemsOfChapter None
  | itemAnnex =>
    let d' := mkDocument (Items d) (Sections d) (Chapters d)
                (Annexes d ++ [mkSection (val it) []]) in
    mkAssembler d' None (sections a) ItemsOfAnnex (section_ a)
  | itemSection =>
    let d' := add_section (sections a) (mkSection (val it) []) d in
    mkAssembler d' (chapter_ a) (sections a) ItemsOfSection
                (Some (sections_length (sections a) d))
  | _ =>
    mkAssembler (add_item (sections a) (items_ a) it d) (chapter_ a)
                (sections a) (items_ a) (section_ a)
  end.

Definition assemble (its : list item) : Document :=
  document (fold_left assemble_item its assembler0).

(** ** builder.go: the HTML builder *)

(** More of the library. *)
Module Fmt.

(** The decimal digits of a natural number ([%v] of an [int] that is a
    length). *)
Fixpoint digits (fuel n : nat) (acc : string) : string :=
  match fuel with
  | O => acc
  | S fuel' =>
    let acc' := String (ascii_of_nat (48 + n mod 10)) acc in
    if (n <? 10)%nat then acc' else digits fuel' (n / 10) acc'
  end.

Definition itoa (n : nat) : string := digits (S n) n "".

Definition byte (n : Z) : string := chr (Z.to_nat n).

(** [string(r)] for a rune [r]: its UTF-8 encoding, the encoding of
    U+FFFD for a value that is no valid rune. *)
Definition string_of_rune (r : Z) : string :=
  if (0 <=? r) && (r <? 128) then byte r
  else if (0 <=? r) && (r <? 2048) then
    byte (Z.lor 192 (Z.shiftr r 6)) ++ byte (Z.lor 128 (Z.land r 63))
  else if (r <? 0) || (1114111 <? r) || ((55296 <=? r) && (r <=? 57343))
  then byte 239 ++ byte 191 ++ byte 189
  else if r <? 65536 then
    byte (Z.lor 224 (Z.shiftr r 12))
    ++ byte (Z.lor 128 (Z.land (Z.shiftr r 6) 63))
    ++ byte (Z.lor 128 (Z.land r 63))
  else
    byte (Z.lor 240 (Z.shiftr r 18))
    ++ byte (Z.lor 128 (Z.land (Z.shiftr r 12) 63))
    ++ byte (Z.lor 128 (Z.land (Z.shiftr r 6) 63))
    ++ byte (Z.lor 128 (Z.land r 63)).

(** [fmt.Sprintf(s)] without operands: ["%%"] prints a percent sign; a
    verb finds no operand and prints as ["%!v(MISSING)"], a percent sign
    that ends the format as ["%!(NOVERB)"].  Flags, widths and verbs
    outside ASCII are not modelled; [Build] doubles every percent sign of
    its input, so the formats of the pipeline hold ["%%"] only. *)
Fixpoint Sprintf0 (s : string) : string :=
  match s with
  | EmptyString => EmptyString
  | String c t =>
    if Ascii.eqb c "%" then
      match t with
      | EmptyString => "%!(NOVERB)"
      | String v t' =>
        if Ascii.eqb v "%" then String "%" (Sprintf0 t')
        else "%!" ++ String v ("(MISSING)" ++ Sprintf0 t')
      end
    else String c (Sprintf0 t)
  end.

End Fmt.

Definition toAnnex (n : Z) : string := Fmt.string_of_rune (n + 65).

Record BuilderConfig : Set := mkConfig { TableOfContents : bool }.

(** The [Builder] struct.  [content] is the [strings.Builder]: the list of
    the strings written to it, in order; [contentString] is what its
    [String] method returns.  [err] is [None] for a nil error. *)
Record Builder : Set := mkBuilder {
  err : option string;
  content : list string;
  paragraphIsOpen : bool;
  newSection : bool;
  tableRowIndex : Z;
  tableTitle : string;
  Config : BuilderConfig
}.

Definition contentString (b : Builder) : string :=
  String.concat "" (content b).

(** Go's [int] is 64 bits wide on the platforms the package targets. *)
Definition wrap64 (z : Z) : Z :=
  (z + 9223372036854775808) mod 18446744073709551616 - 9223372036854775808.

Definition set_paragraphIsOpen (b : Builder) (v : bool) : Builder :=
  mkBuilder (err b) (content b) v (newSection b) (tableRowIndex b)
            (tableTitle b) (Config b).
Definition set_newSection (b : Builder) (v : bool) : Builder :=
  mkBuilder (err b) (content b) (paragraphIsOpen b) v (tableRowIndex b)
            (tableTitle b) (Config b).
Definition set_tableRowIndex (b : Builder) (v : Z) : Builder :=
  mkBuilder (err b) (content b) (paragraphIsOpen b) (newSection b) v
            (tableTitle b) (Config b).
Definition set_tableTitle (b : Builder) (v : string) : Builder :=
  mkBuilder (err b) (content b) (paragraphIsOpen b) (newSection b)
            (tableRowIndex b) v (Config b).

(** [strings.Builder.WriteString] always returns a nil error. *)
Definition WriteString (chunks : list string) (s : string)
  : list string * option string :=
  ((chunks ++ [s])%list, None).

(** [b.append(s, args...)], with [s] the formatted string. *)
Definition append (s : string) (b : Builder) : Builder :=
  match err b with
  | Some _ => b
  | None =>
    let '(c, e) := WriteString (content b) s in
    mkBuilder e c (paragraphIsOpen b) (newSection b) (tableRowIndex b)
              (tableTitle b) (Config b)
  end.

Definition closeParagraph (b : Builder) : Builder :=
  if paragraphIsOpen b
  then append (nl ++ "</p>" ++ nl) (set_paragraphIsOpen b false)
  else b.

Definition openParagraph (b : Builder) : Builder :=
  if negb (paragraphIsOpen b) && newSection b then
    append ("<p class='indent'>" ++ nl)
           (set_newSection (set_paragraphIsOpen b true) false)
  else if negb (paragraphIsOpen b) then
    append ("<p>" ++ nl) (set_paragraphIsOpen b true)
  else b.

Definition anchorName (s : string) : string :=
  Go.ReplaceAll (Go.ToLower s) " " "-".

Definition annexAnchorName (s : string) : string :=
  "annex-" ++ anchorName s.

(** [xs[i]], which panics out of range. *)
Definition index (xs : list string) (i : nat) : result string :=
  match nth_error xs i with
  | Some x => Done x
  | None => Panic
  end.

Definition bind {A B : Type} (r : result A) (k : A -> result B) : result B :=
  match r with
  | Done a => k a
  | OutOfFuel => OutOfFuel
  | Panic => Panic
  end.

Notation "x <- r ;; k" := (bind r (fun x => k))
  (at level 61, r at next level, right associativity).

(** [s[1:]] of a non-empty string. *)
Definition tail (s : string) : string :=
  match s with
  | EmptyString => EmptyString
  | String _ t => t
  end.

Definition handleCommand (name : string) (args : list string) (b : Builder)
  : result Builder :=
  if String.eqb name "color" then
    a1 <- index args 1 ;;
    a0 <- index args 0 ;;
    Done (append ("<span style='color: #" ++ Go.TrimSpace a1 ++ "'>"
                  ++ Go.TrimSpace a0 ++ "</span>") b)
  else if String.eqb name "img" then
    let b := closeParagraph b in
    classNames <-
      (if (2 <? List.length args)%nat then
         a2 <- index args 2 ;;
         let position := Go.TrimSpace a2 in
         if String.eqb position "left"
         then Done ["illustration"; "float-left"]
         else if String.eqb position "right"
         then Done ["illustration"; "float-right"]
         else Done ["illustration"]
       else Done ["illustration"]) ;;
    wh <-
      (if (3 <? List.length args)%nat then
         a3 <- index args 3 ;;
         match Go.TrimSpace a3 with
         | EmptyString => Panic
         | String c _ as size =>
           if Ascii.eqb c "w" then Done (tail size, "")
           else if Ascii.eqb c "h" then Done ("", tail size)
           else Done ("", "")
         end
       else Done ("", "")) ;;
    let '(width, height) := wh in
    a0 <- index args 0 ;;
    a1 <- index args 1 ;;
    let img := "<img class='" ++ Go.Join classNames " " ++ "' src='" ++ a0
               ++ "' alt='" ++ Go.TrimSpace a1 in
    if negb (String.eqb width "") then
      Done (append (img ++ "' width='" ++ width ++ "'/>") b)
    else if negb (String.eqb height "") then
      Done (append (img ++ "' height='" ++ height ++ "'/>") b)
    else Done (append (img ++ "' />") b)
  else Done b.

(** The cells of a table row after the first one. *)
Definition rowCell (rowIndex : Z) (cell : string) : string :=
  if rowIndex =? 0 then "<td class='head'>" ++ cell ++ "</td>" ++ nl
  else "<td class='lead'>" ++ cell ++ "</td>" ++ nl.

Definition handleItem (it : item) (b : Builder) : result Builder :=
  match typ it with
  | itemNewLine => Done (closeParagraph b)
  | itemListOpen =>
    Done (append ("<ol class='roman'>" ++ nl) (closeParagraph b))
  | itemListClose => Done (append ("</ol>" ++ nl ++ nl) b)
  | itemStartListElement =>
    Done (openParagraph (append (nl ++ "<li>" ++ nl) b))
  | itemEndListElement =>
    Done (append (nl ++ "</li>" ++ nl) (closeParagraph b))
  | itemBold =>
    Done (append ("<strong>" ++ val it ++ "</strong>") (openParagraph b))
  | itemCommand =>
    let info := Go.Split (val it) "|" in
    name <- index info 0 ;;
    args <- index info 1 ;;
    handleCommand name (Go.Split args ",") b
  | itemLink =>
    let b := openParagraph b in
    let info := Go.Split (val it) "|" in
    text <- index info 0 ;;
    link <- index info 1 ;;
    Done (append ("<a href='#" ++ anchorName link ++ "'>" ++ text ++ "</a>")
                 b)
  | itemEm => Done (append ("<em>" ++ val it ++ "</em>") (openParagraph b))
  | itemTableStart =>
    let b := closeParagraph b in
    let b := set_tableRowIndex b (-1) in
    let b := set_tableTitle b (val it) in
    Done (append ("<table>" ++ nl) b)
  | itemTableRow =>
    let cells := Go.Split (val it) "|" in
    let b :=
      if tableRowIndex b =? -1 then
        let b := append ("<thead>" ++ nl) b in
        let b := append ("<tr>" ++ nl) b in
        let b := append ("<th colspan='" ++ Fmt.itoa (List.length cells)
                         ++ "'>" ++ tableTitle b ++ "</th>" ++ nl) b in
        let b := append ("</tr>" ++ nl) b in
        let b := append ("</thead>" ++ nl) b in
        append ("<tbody>" ++ nl) b
      else b in
    let b := set_tableRowIndex b (wrap64 (tableRowIndex b + 1)) in
    let b := append ("<tr>" ++ nl) b in
    c0 <- index cells 0 ;;
    let b := append ("<td class='head'>" ++ c0 ++ "</td>" ++ nl) b in
    let b := fold_left
               (fun b cell => append (rowCell (tableRowIndex b) cell) b)
               (List.tl cells) b in
    Done (append ("</tr>" ++ nl) b)
  | itemTableEnd =>
    Done (append ("</table>" ++ nl) (append ("</tbody>" ++ nl) b))
  | _ =>
    if negb (String.eqb (val it) "")
    then Done (append (Fmt.Sprintf0 (val it)) (openParagraph b))
    else Done b
  end.

(** [for _, it := range its { b.handleItem(it) }]. *)
Fixpoint handleItems (its : list item) (b : Builder) : result Builder :=
  match its with
  | [] => Done b
  | it :: rest => b' <- handleItem it b ;; handleItems rest b'
  end.

Definition buildAnnex (a : Section) (b : Builder) : result Builder :=
  handleItems (sItems a) (set_newSection b true).

Definition handleSection (s : Section) (b : Builder) : result Builder :=
  let b := set_newSection b true in
  let b := append ("<h3><a name='" ++ anchorName (sTitle s) ++ "'></a>"
                   ++ sTitle s ++ "</h3>" ++ nl) b in
  handleItems (sItems s) b.

Fixpoint handleSections (ss : list Section) (b : Builder) : result Builder :=
  match ss with
  | [] => Done b
  | s :: rest => b' <- handleSection s b ;; handleSections rest b'
  end.

Definition tocSection (s : Section) : string :=
  "<li><a href='#" ++ anchorName (sTitle s) ++ "'>" ++ sTitle s
  ++ "</a></li>" ++ nl.

Definition tocSections (ss : list Section) (b : Builder) : Builder :=
  fold_left (fun b s => append (tocSection s) b) ss b.

Fixpoint tocChapters (chapterIndex : Z) (cs : list Chapter) (b : Builder)
  : Builder :=
  match cs with
  | [] => b
  | c :: rest =>
    let b := append ("<li><strong>" ++ Roman.toRoman chapterIndex
                     ++ "</strong> - <a href='#" ++ anchorName (cTitle c)
                     ++ "'>" ++ cTitle c ++ "</a></li>" ++ nl) b in
    let b := append ("<ol class='roman'>" ++ nl) b in
    let b := tocSections (cSections c) b in
    let b := append ("</ol>" ++ nl) b in
    tocChapters (chapterIndex + 1) rest b
  end.

Fixpoint tocAnnexes (annexIndex : Z) (xs : list Section) (b : Builder)
  : Builder :=
  match xs with
  | [] => b
  | a :: rest =>
    let b := append ("<li><strong>Annexe " ++ toAnnex annexIndex
                     ++ "</strong>: <a href='#" ++ annexAnchorName (sTitle a)
                     ++ "'>" ++ sTitle a ++ "</a></li>" ++ nl) b in
    tocAnnexes (annexIndex + 1) rest b
  end.

(** ["Table des matieres"], with its e grave in UTF-8. *)
Definition tocTitle : string :=
  "Table des mati" ++ chr 195 ++ chr 168 ++ "res".

Definition buildTableOfContents (d : Document) (b : Builder) : Builder :=
  let b := append ("<div id='summary'>" ++ nl ++ "<h3>" ++ tocTitle
                   ++ "</h3>" ++ nl) b in
  let b := append ("<ol>" ++ nl) b in
  let b := tocSections (Sections d) b in
  let b := append ("</ol>" ++ nl) b in
  let b := append ("<ol>" ++ nl) b in
  let b := tocChapters 0 (Chapters d) b in
  let b := append ("</ol>" ++ nl) b in
  let b := append ("<ol>" ++ nl) b in
  let b := tocAnnexes 0 (Annexes d) b in
  let b := append ("</ol>" ++ nl) b in
  append ("</div>" ++ nl) b.

(** The heading [Builder.Build] writes for the chapter of index
    [chapterIndex]. *)
Definition chapterHeading (chapterIndex : Z) (c : Chapter) : string :=
  "<h2><a id='" ++ anchorName (cTitle c) ++ "'></a>"
  ++ Roman.toRoman chapterIndex ++ " - " ++ cTitle c ++ "</h2>" ++ nl.

Definition annexHeading (annexIndex : Z) (a : Section) : string :=
  "<h2><a name='" ++ annexAnchorName (sTitle a) ++ "'></a>Annexe "
  ++ toAnnex annexIndex ++ ": " ++ sTitle a ++ "</h2>" ++ nl.

Fixpoint buildChapters (chapterIndex : Z) (cs : list Chapter) (b : Builder)
  : result Builder :=
  match cs with
  | [] => Done b
  | c :: rest =>
    let b := set_newSection b true in
    let b := append (chapterHeading chapterIndex c) b in
    b <- handleItems (cItems c) b ;;
    b <- handleSections (cSections c) b ;;
    buildChapters (chapterIndex + 1) rest b
  end.

Fixpoint buildAnnexes (annexIndex : Z) (xs : list Section) (b : Builder)
  : result Builder :=
  match xs with
  | [] => Done b
  | a :: rest =>
    let b := append ("<div class='annex'>" ++ nl) b in
    let b := append (annexHeading annexIndex a) b in
    let b := set_newSection b true in
    b <- handleItems (sItems a) b ;;
    let b := append ("</div>" ++ nl) b in
    buildAnnexes (annexIndex + 1) rest b
  end.

(** The builder after the whole of [Builder.Build] has run. *)
Definition Builder_run (d : Document) (b : Builder) : result Builder :=
  let b := mkBuilder (err b) [] false (newSection b) (tableRowIndex b)
                     (tableTitle b) (Config b) in
  let b := if TableOfContents (Config b) then buildTableOfContents d b
           else b in
  b <- handleSections (Sections d) b ;;
  b <- buildChapters 0 (Chapters d) b ;;
  buildAnnexes 0 (Annexes d) b.

(** [Builder.Build]: the string and the error it returns. *)
Definition Builder_Build (d : Document) (b : Builder)
  : result (string * option string) :=
  b <- Builder_run d b ;;
  Done (contentString b, err b).

(** [Builder{Config: config}]. *)
Definition newBuilder (config : BuilderConfig) : Builder :=
  mkBuilder None [] false false 0 "" config.

(** ** builder.go: [Build] *)

(** The errors [Build] returns: the one made of the error item of the
    lexer, the one of [Builder.Build], the one of the writer. *)
Inductive buildError : Set :=
| LexerError (it : item)
| BuilderError (e : string)
| WriteError (e : string).

(** [Build], on the bytes read from [input] and a writer [w] that returns
    an error or nil for the bytes it is given.  The result is the list of
    the strings passed to [w.Write] and the error returned. *)
Definition Build (fuel : nat) (inp : string) (w : string -> option string)
  (config : BuilderConfig) : result (list string * option buildError) :=
  toks <- tokens fuel (lex (Go.ReplaceAll inp "%" "%%")) ;;
  let '(its, last) := toks in
  let d := assemble its in
  match typ last with
  | itemError => Done ([], Some (LexerError last))
  | _ =>
    r <- Builder_Build d (newBuilder config) ;;
    let '(out, e) := r in
    match e with
    | Some e => Done ([], Some (BuilderError e))
    | None =>
      Done ([out], match w out with
                   | Some e => Some (WriteError e)
                   | None => None
                   end)
    end
  end.

(** A writer that accepts everything. *)
Definition okWriter (s : string) : option string := None.

(** ** What the properties are stated with *)

(** The markup [handleItem] writes for a list, a table and a paragraph. *)
Definition listOpenMarkup : string := "<ol class='roman'>" ++ nl.
Definition listCloseMarkup : string := "</ol>" ++ nl ++ nl.
Definition tableMarkup : string := "<table>" ++ nl.
Definition paragraphCloseMarkup : string := nl ++ "</p>" ++ nl.

Definition isParagraphOpen (c : string) : bool :=
  String.eqb c ("<p>" ++ nl) || String.eqb c ("<p class='indent'>" ++ nl).

Definition isParagraphClose (c : string) : bool :=
  String.eqb c paragraphCloseMarkup.

(** Table and list markup; table, list and heading markup. *)
Definition isTableOrList (c : string) : bool :=
  String.eqb c tableMarkup || String.eqb c listOpenMarkup.

Definition isBlockMarkup (c : string) : bool :=
  isTableOrList c || HasPrefix c "<h2>" || HasPrefix c "<h3>".

(** A sequence of written strings in which no string that [isBlock]
    accepts is written while a paragraph is open and, when [atEnd], no
    paragraph is open after the last string; [open] tells whether a
    paragraph is open at the start. *)
Fixpoint closedBefore (isBlock : string -> bool) (atEnd : bool)
  (open : bool) (chunks : list string) : bool :=
  match chunks with
  | [] => negb (atEnd && open)
  | c :: rest =>
    if isParagraphOpen c then closedBefore isBlock atEnd true rest
    else if isParagraphClose c then closedBefore isBlock atEnd false rest
    else if isBlock c then negb open && closedBefore isBlock atEnd open rest
    else closedBefore isBlock atEnd open rest
  end.

(** Every paragraph is closed before the table, list or heading markup
    that follows it, and before the end. *)
Definition paragraphsClosed : bool -> list string -> bool :=
  closedBefore isBlockMarkup true.

(** Every paragraph is closed before the table or list markup that
    follows it. *)
Definition paragraphsClosedBeforeTablesAndLists
  : bool -> list string -> bool :=
  closedBefore isTableOrList false.

(** Whether a paragraph is open after a sequence of written strings. *)
Fixpoint openAfter (open : bool) (chunks : list string) : bool :=
  match chunks with
  | [] => open
  | c :: rest =>
    if isParagraphOpen c then openAfter true rest
    else if isParagraphClose c then openAfter false rest
    else openAfter open rest
  end.

(** The invariant of the builder: its error is nil, what it has written
    closes every paragraph before a table or a list, and its flag
    [paragraphIsOpen] tells whether a paragraph is open in what it has
    written. *)
Definition paragraphInv (b : Builder) : Prop :=
  err b = None /\
  paragraphsClosedBeforeTablesAndLists false (content b) = true /\
  openAfter false (content b) = paragraphIsOpen b.

(** How many items of a type a list holds. *)
Definition countType (t : itemType) (its : list item) : nat :=
  List.length (filter (fun it => itemType_eqb (typ it) t) its).

(** The strings [Builder.Build] writes for an input, when the lexer stops
    on [itemEOF]. *)
Definition rendered (fuel : nat) (inp : string) (config : BuilderConfig)
  : result (list string) :=
  toks <- tokens fuel (lex (Go.ReplaceAll inp "%" "%%")) ;;
  b <- Builder_run (assemble (fst toks)) (newBuilder config) ;;
  Done (content b).

(** The header block of a table of [n] columns, and a data row whose cells
    after the first have the class [cls]. *)
Definition headerBlock (n : nat) (title : string) : list string :=
  [ "<thead>" ++ nl; "<tr>" ++ nl;
    "<th colspan='" ++ Fmt.itoa n ++ "'>" ++ title ++ "</th>" ++ nl;
    "</tr>" ++ nl; "</thead>" ++ nl; "<tbody>" ++ nl ].

Definition td (cls cell : string) : string :=
  "<td class='" ++ cls ++ "'>" ++ cell ++ "</td>" ++ nl.

Definition trOpen : string := "<tr>" ++ nl.
Definition trClose : string := "</tr>" ++ nl.

Definition dataRow (cls : string) (cells : list string) : list string :=
  trOpen :: td "head" (hd "" cells)
         :: (map (td cls) (List.tl cells) ++ [trClose])%list.

(** ** The vocabulary of the properties and of their proofs *)

(** [b'] is [b] after more strings were written, with a nil error. *)
Definition grows (b b' : Builder) : Prop :=
  err b' = None /\ exists chunks, content b' = (content b ++ chunks)%list.

(** [b] with the strings [c] written and a nil error. *)
Definition with_content (b : Builder) (c : list string) : Builder :=
  mkBuilder None c (paragraphIsOpen b) (newSection b) (tableRowIndex b)
            (tableTitle b) (Config b).

(** The document of the input ["#Intro\nHello *world*.\n"]. *)
Definition introDocument : Document :=
  mkDocument [] []
    [mkChapter "Intro"
       [mkItem itemNewLine "" 1; mkItem itemText "Hello " 2;
        mkItem itemBold "world" 2; mkItem itemText "." 2;
        mkItem itemNewLine "" 2] []]
    [].

(** The items and the document of the input ["#C\n\color(red)"]: a
    [color] command with one argument. *)
Definition colorItems : list item :=
  [mkItem itemChapter "C" 1; mkItem itemNewLine "" 1; mkItem itemText "" 2;
   mkItem itemCommand "color|red" 2].

Definition colorDocument : Document :=
  mkDocument [] []
    [mkChapter "C"
       [mkItem itemNewLine "" 1; mkItem itemText "" 2;
        mkItem itemCommand "color|red" 2] []]
    [].

(** The cells of a row item. *)
Definition cellsOf (r : item) : list string := Go.Split (val r) "|".

(** The markup [handleItem] writes for an item that starts a table or a
    list. *)
Definition blockMarkupOf (t : itemType) : list string :=
  match t with
  | itemTableStart => [tableMarkup]
  | itemListOpen => [listOpenMarkup]
  | _ => []
  end.

(** The line feed, and the strings that hold none. *)
Definition isNl (c : ascii) : bool := Ascii.eqb c (ascii_of_nat 10).

Fixpoint nlfree (s : string) : bool :=
  match s with
  | EmptyString => true
  | String c t => negb (isNl c) && nlfree t
  end.

(** The types of the items that start a chapter, a section or an annex. *)
Definition isHeading (t : itemType) : bool :=
  match t with
  | itemChapter | itemSection | itemAnnex => true
  | _ => false
  end.

(** The types [handleItem] writes the value of as it is. *)
Definition isPlain (t : itemType) : bool :=
  match t with
  | itemError | itemText | itemChapter | itemSection | itemAnnex
  | itemEOF => true
  | _ => false
  end.

(** An item that is no error and whose value, when written as it is,
    holds no line feed. *)
Definition okItem (it : item) : bool :=
  negb (itemType_eqb (typ it) itemError)
  && (negb (isPlain (typ it)) || nlfree (val it)).

(** The items of a list come between [itemListOpen] and [itemListClose],
    and no heading comes inside a list: [lstep m it] is the mode after the
    item [it] read in the mode [m] ([true] inside a list), when [it] may
    come in that mode. *)
Definition lstep (m : bool) (it : item) : option bool :=
  match typ it with
  | itemListOpen => if m then None else Some true
  | itemListClose => if m then Some false else None
  | itemChapter | itemSection | itemAnnex => if m then None else Some false
  | _ => Some m
  end.

(** The mode after a sequence of items. *)
Fixpoint lrun (m : bool) (its : list item) : option bool :=
  match its with
  | [] => Some m
  | it :: rest =>
    match lstep m it with
    | Some m' => lrun m' rest
    | None => None
    end
  end.

(** The state a sub-lexer returns to in the end is [lexListItem]. *)
Fixpoint inList (st : stateFn) : bool :=
  match st with
  | lexListItem => true
  | lexBold fn | lexEm fn | lexTableTitle fn | lexTable fn | lexCmdName fn
  | lexCmdArgs _ fn | lexLinkHead fn | lexLinkTail _ fn => inList fn
  | _ => false
  end.

(** The states that gather the pending text into a text or heading item. *)
Definition gathers (st : stateFn) : bool :=
  match st with
  | lexText | lexChapter | lexSection | lexAnnex | lexListItem => true
  | _ => false
  end.

(** No trigger starts with the first byte of the string. *)
Definition noTrigger (rest : string) : Prop :=
  match rest with
  | EmptyString => True
  | String c _ => byte_of c = 0 \/ 128 <= byte_of c
  end.

(** [next] reads the end of the input here, and no trigger starts here. *)
Definition at_end (l : lexer) : Prop :=
  fst (next l) = eof /\ noTrigger (from (input l) (pos l)).

(** The pending text is a slice of the input without a line feed. *)
Definition gathered (l : lexer) : Prop :=
  0 <= start l /\ start l <= pos l /\ nlfree (pending l) = true.

(** The invariant of the state [st] in the mode [m]. *)
Definition stateInv (st : stateFn) (m : bool) (l : lexer) : Prop :=
  0 <= pos l /\
  (gathers st = true -> gathered l) /\
  (if m then inList st = true \/ (st = lexText /\ at_end l)
   else inList st = false).

(** What a round of a state function keeps, from a lexer that satisfies the
    invariant of the state [st] in the mode [m]: a round that goes on keeps
    the invariant and the queue; a round that returns has sent items that
    are fine, that may come in the mode [m], and it leaves the invariant of
    the next state in the mode after them. *)
Definition outcomeInv (st : stateFn) (m : bool) (l : lexer) (o : outcome)
  : Prop :=
  match o with
  | Continue l' => stateInv st m l' /\ items l' = items l
  | Return l' nxt =>
    exists emitted m',
      items l' = (items l ++ emitted)%list /\
      forallb okItem emitted = true /\
      lrun m emitted = Some m' /\
      match nxt with
      | Some st' => stateInv st' m' l'
      | None => True
      end
  end.

(** The queue holds fine items that may come in the mode [m], and the state
    satisfies its invariant in the mode after them. *)
Definition lexerInv (m : bool) (l : lexer) : Prop :=
  forallb okItem (items l) = true /\
  exists m', lrun m (items l) = Some m' /\
             match state l with
             | Some st => stateInv st m' l
             | None => True
             end.

(** The items [Builder.Build] passes to [handleItem], in order: those of
    the sections of the document, of the chapters with their sections, and
    of the annexes.  [Document.Items] is not among them. *)
Definition chapterItems (c : Chapter) : list item :=
  (cItems c ++ flat_map sItems (cSections c))%list.

Definition renderedItems (d : Document) : list item :=
  (flat_map sItems (Sections d) ++ flat_map chapterItems (Chapters d)
   ++ flat_map sItems (Annexes d))%list.

(** The last element of a list, the one [update_last] updates. *)
Fixpoint lastOpt {A : Type} (xs : list A) : option A :=
  match xs with
  | [] => None
  | [x] => Some x
  | _ :: rest => lastOpt rest
  end.

(** The pointers of [Build] designate elements that exist; as long as
    [items] points to [document.Items], the document holds nothing else. *)
Definition assemblerInv (a : assembler) : Prop :=
  let d := document a in
  (sections a = SectionsOfChapter -> exists c, lastOpt (Chapters d) = Some c)
  /\ match items_ a with
     | ItemsOfDocument =>
       Sections d = [] /\ Chapters d = [] /\ Annexes d = []
     | ItemsOfChapter => exists c, lastOpt (Chapters d) = Some c
     | ItemsOfAnnex => exists x, lastOpt (Annexes d) = Some x
     | ItemsOfSection =>
       match sections a with
       | SectionsOfDocument => exists s, lastOpt (Sections d) = Some s
       | SectionsOfChapter =>
         exists c s, lastOpt (Chapters d) = Some c
                     /\ lastOpt (cSections c) = Some s
       end
     end.

(** In the mode [m], the lists opened are the lists closed, and one more
    inside a list. *)
Definition listBalance (m : bool) (its : list item) : Prop :=
  countType itemListOpen its
  = (countType itemListClose its + (if m then 1 else 0))%nat.

(** The invariant of the loop of [Build], after items that lead to the
    mode [m]. *)
Definition buildInv (m : bool) (a : assembler) : Prop :=
  assemblerInv a /\
  forallb okItem (renderedItems (document a)) = true /\
  (items_ a = ItemsOfDocument \/ listBalance m (renderedItems (document a))).

(** The strings that open and close an ordered list: the ones
    [handleItem] writes for a list of the document, and the ones
    [buildTableOfContents] writes. *)
Definition isListOpen (c : string) : bool :=
  String.eqb c listOpenMarkup || String.eqb c ("<ol>" ++ nl).

Definition isListClose (c : string) : bool :=
  String.eqb c listCloseMarkup || String.eqb c ("</ol>" ++ nl).

Definition listOpens (chunks : list string) : nat :=
  List.length (filter isListOpen chunks).

Definition listCloses (chunks : list string) : nat :=
  List.length (filter isListClose chunks).

(** A string that neither opens nor closes a list. *)
Definition quiet (c : string) : bool :=
  negb (isListOpen c) && negb (isListClose c).

(** [b'] is [b] after strings were written, [o] of which open a list and
    [c] of which close one; its error is nil. *)
Definition writes (b b' : Builder) (o c : nat) : Prop :=
  err b' = None /\
  exists chunks,
    content b' = (content b ++ chunks)%list /\
    listOpens chunks = o /\ listCloses chunks = c.

(** A string that is no paragraph, table or list markup. *)
Definition neutral (s : string) : bool :=
  negb (isParagraphOpen s) && negb (isParagraphClose s)
  && negb (isTableOrList s).

(** ** roman.go: the values of the symbols *)

(** The map [num]; a key that is absent yields Go's zero value [0]. *)
Definition num (s : string) : Z :=
  if String.eqb s "I" then 1 else if String.eqb s "V" then 5
  else if String.eqb s "X" then 10 else if String.eqb s "L" then 50
  else if String.eqb s "C" then 100 else if String.eqb s "D" then 500
  else if String.eqb s "M" then 1000 else 0.

(** The value of the first symbol of a numeral. *)
Definition firstValue (s : string) : Z :=
  match s with
  | EmptyString => 0
  | String c _ => num (String c EmptyString)
  end.

(** The number a Roman numeral denotes: a symbol written before a symbol
    of a greater value is subtracted, every other symbol is added. *)
Fixpoint romanValue (s : string) : Z :=
  match s with
  | EmptyString => 0
  | String c t =>
    let v := num (String c EmptyString) in
    if v <? firstValue t then romanValue t - v else v + romanValue t
  end.

(** ** The document and the stream of items *)

(** All the items a document holds: those of [Document.Items] and those
    the builder handles. *)
Definition allItems (d : Document) : list item :=
  (Items d ++ renderedItems d)%list.

(** All the sections of a document: those before the first chapter, then
    those of the chapters. *)
Definition allSections (d : Document) : list Section :=
  (Sections d ++ flat_map cSections (Chapters d))%list.

(** The values of the items of a type, in order. *)
Definition valuesOf (t : itemType) (its : list item) : list string :=
  map val (filter (fun it => itemType_eqb (typ it) t) its).

(** The titles of the chapters, of the sections and of the annexes of the
    document an assembler holds; [sections] points to [document.Sections]
    only as long as there is no chapter. *)
Definition titlesInv (a : assembler) (its : list item) : Prop :=
  let d := document a in
  map cTitle (Chapters d) = valuesOf itemChapter its /\
  map sTitle (Annexes d) = valuesOf itemAnnex its /\
  map sTitle (allSections d) = valuesOf itemSection its /\
  (sections a = SectionsOfDocument -> Chapters d = []).

(** ** The stream of a sample input *)

(** The input ["#C\n- a\n- b\n\nx"], a chapter with a list of two
    elements and a text, and the items the lexer sends for it. *)
Definition listInput : string :=
  "#C" ++ nl ++ "- a" ++ nl ++ "- b" ++ nl ++ nl ++ "x".

Definition listStream : list item :=
  [mkItem itemChapter "C" 1; mkItem itemListOpen "" 2;
   mkItem itemStartListElement "" 2; mkItem itemText "a" 2;
   mkItem itemEndListElement "" 3; mkItem itemStartListElement "" 3;
   mkItem itemText "b" 3; mkItem itemEndListElement "" 3;
   mkItem itemListClose "" 3; mkItem itemNewLine "" 3;
   mkItem itemNewLine "" 4; mkItem itemText "x" 5].

(** ** The nil state *)

(** The queue ends with an [itemEOF]. *)
Definition endsWithEOF (q : list item) : Prop :=
  exists q' it, q = (q' ++ [it])%list /\ typ it = itemEOF.

(** The state is nil only while the [itemEOF] that [lexText] sent with it
    is in the queue. *)
Definition nilInv (l : lexer) : Prop :=
  state l = None -> endsWithEOF (items l).

(** ** Commands and links the builder can handle *)

(** The arguments [handleCommand] indexes out of range: a [color] or an
    [img] command with less than two arguments, and an [img] command
    whose fourth argument is blank. *)
Definition commandPanics (name : string) (args : list string) : bool :=
  if String.eqb name "color" then (List.length args <? 2)%nat
  else if String.eqb name "img" then
    (List.length args <? 2)%nat
    || ((3 <? List.length args)%nat
        && String.eqb (Go.TrimSpace (nth 3 args "")) "")
  else false.

(** The value holds a [|]: [strings.Split(val, "|")] has two pieces at
    least. *)
Definition hasBar (s : string) : bool :=
  (1 <? List.length (Go.Split s "|"))%nat.

(** A link or command item whose value holds a [|], as every value made
    with [bar] does. *)
Definition barItem (it : item) : bool :=
  match typ it with
  | itemLink | itemCommand => hasBar (val it)
  | _ => true
  end.

(** An item that is no command with arguments [handleCommand] indexes out
    of range. *)
Definition safeItem (it : item) : bool :=
  match typ it with
  | itemCommand =>
    let info := Go.Split (val it) "|" in
    negb (commandPanics (nth 0 info "") (Go.Split (nth 1 info "") ","))
  | _ => true
  end.

(** ** Paragraphs that alternate *)

(** A sequence of written strings in which a paragraph is opened only
    while none is open and closed only while one is open; [open] tells
    whether a paragraph is open at the start. *)
Fixpoint alternates (open : bool) (chunks : list string) : bool :=
  match chunks with
  | [] => true
  | c :: rest =>
    if isParagraphOpen c then negb open && alternates true rest
    else if isParagraphClose c then open && alternates false rest
    else alternates open rest
  end.

(** A string that neither opens nor closes a paragraph. *)
Definition plainChunk (s : string) : bool :=
  negb (isParagraphOpen s) && negb (isParagraphClose s).

(** The error of the builder is nil, the paragraphs alternate in what it
    has written, and its flag [paragraphIsOpen] tells whether a paragraph
    is open there. *)
Definition altInv (b : Builder) : Prop :=
  err b = None /\
  alternates false (content b) = true /\
  openAfter false (content b) = paragraphIsOpen b.

(** ** Lines *)

(** The number of line feeds of a string, and the line of the position
    [p] of an input: one more than the line feeds before [p]. *)
Fixpoint nlcount (s : string) : Z :=
  match s with
  | EmptyString => 0
  | String c t => (if isNl c then 1 else 0) + nlcount t
  end.

Definition lineAt (inp : string) (p : Z) : Z :=
  1 + nlcount (substring 0 (Z.to_nat p) inp).

(** The numbers never decrease, from [k] on. *)
Fixpoint nondecreasing (k : Z) (ls : list Z) : bool :=
  match ls with
  | [] => true
  | x :: rest => (k <=? x) && nondecreasing x rest
  end.

(** The last number of a list, [k] for the empty list. *)
Fixpoint lastOr (k : Z) (ls : list Z) : Z :=
  match ls with
  | [] => k
  | x :: rest => lastOr x rest
  end.

(** The invariant of the lines: the field [line] is the line of the
    position, and the lines of the queued items never decrease, from the
    line [k] of the item received last up to the line of the start of the
    pending text. *)
Definition lineInv (inp : string) (k : Z) (l : lexer) : Prop :=
  input l = inp /\ 0 <= start l /\ start l <= pos l /\
  lline l = lineAt inp (pos l) /\
  nondecreasing k (map line (items l)) = true /\
  lastOr k (map line (items l)) <= lineAt inp (start l).

(** The states a sub-lexer returns to: [lexText] and [lexListItem]. *)
Definition isBase (st : stateFn) : bool :=
  match st with
  | lexText | lexListItem => true
  | _ => false
  end.

Definition plainReturn (st : stateFn) : bool :=
  match st with
  | lexBold fn | lexEm fn | lexTableTitle fn | lexTable fn | lexCmdName fn
  | lexCmdArgs _ fn | lexLinkHead fn | lexLinkTail _ fn => isBase fn
  | _ => true
  end.

(** The next state returns to [lexText] or [lexListItem], and
    [lexTableTitle] is entered at the marker of a table, which it
    skips. *)
Definition tableOk (nxt : option stateFn) (l : lexer) : Prop :=
  match nxt with
  | Some st =>
    plainReturn st = true /\
    match st with
    | lexTableTitle _ => at_prefix l table = true
    | _ => True
    end
  | None => True
  end.

(** ** Inputs without bold, emphasis, commands, links and tables *)

(** No byte of the string starts a bold text ([*]), an emphasis ([__]), a
    command ([\]), a link ([[]) or a table ([-table-]): the constructs
    whose state functions look for a closing mark. *)
Fixpoint noSubLexer (s : string) : bool :=
  match s with
  | EmptyString => true
  | String c t =>
    negb (HasPrefix s table) && negb (HasPrefix s emSymbol)
    && negb (byte_of c =? boldRune) && negb (byte_of c =? cmdStart)
    && negb (byte_of c =? 91) && noSubLexer t
  end.

(** The rest of the input, from the position on, has no such byte. *)
Definition simpleAt (l : lexer) : Prop :=
  0 <= pos l /\ noSubLexer (from (input l) (pos l)) = true.

(** The bytes left to read, and the work left to a state: a state other
    than [lexText] comes back to [lexText] before the end. *)
Definition rest (l : lexer) : nat := Z.to_nat (len (input l) - pos l).

Definition work (st : option stateFn) (l : lexer) : nat :=
  match st with
  | None => 0
  | Some lexText => 2 * rest l + 1
  | Some _ => 2 * rest l + 2
  end.

(** [l'] reads the same input as [l], at least [d] bytes further. *)
Definition ahead (d : Z) (l l' : lexer) : Prop :=
  input l' = input l /\ pos l + d <= pos l'.

(** The next state of a state that gathers text gathers text. *)
Definition gathersOpt (nxt : option stateFn) : Prop :=
  match nxt with
  | Some st => gathers st = true
  | None => True
  end.

(** What the loop of [Build] runs on: a simple rest of the input, a state
    that gathers text, a nil state only with [itemEOF] queued, and no
    command queued that [handleCommand] cannot handle. *)
Definition simpleInv (l : lexer) : Prop :=
  simpleAt l /\ gathersOpt (state l) /\ nilInv l /\
  forallb safeItem (items l) = true.

(** The items queued and the work left, as one measure of what is left
    to the loop of [Build]: a state sends three items at most. *)
Definition toDo (l : lexer) : nat :=
  4 * work (state l) l + List.length (items l).

(** ** What the builder reads of the document *)

(** Two assemblers that differ in [document.Items] at most. *)
Definition sameButItems (a a' : assembler) : Prop :=
  Sections (document a) = Sections (document a') /\
  Chapters (document a) = Chapters (document a') /\
  Annexes (document a) = Annexes (document a') /\
  sections a = sections a' /\ items_ a = items_ a'.

(** ** Plain text *)




(** ** The table of contents in front *)

(** [b'] is [b] with the strings [c] written before all it has written:
    both have a nil error and the same flags, row index and table
    title. *)
Definition shifted (c : list string) (b b' : Builder) : Prop :=
  err b = None /\ err b' = None /\
  content b' = (c ++ content b)%list /\
  paragraphIsOpen b' = paragraphIsOpen b /\ newSection b' = newSection b /\
  tableRowIndex b' = tableRowIndex b /\ tableTitle b' = tableTitle b.

(** Two runs that end alike: both return, with related builders, or both
    panic. *)
Definition alike (c : list string) (r r' : result Builder) : Prop :=
  match r, r' with
  | Done b, Done b' => shifted c b b'
  | Panic, Panic => True
  | OutOfFuel, OutOfFuel => True
  | _, _ => False
  end.

(** What [append] keeps of a builder: its flags, row index and table
    title. *)
Definition sameFlags (b b' : Builder) : Prop :=
  paragraphIsOpen b' = paragraphIsOpen b /\ newSection b' = newSection b /\
  tableRowIndex b' = tableRowIndex b /\ tableTitle b' = tableTitle b.

(** The strings of the table of contents of a document. *)
Definition tocChunks (d : Document) : list string :=
  content (buildTableOfContents d (newBuilder (mkConfig true))).

(** ** lex.go: the names of the item types *)

(** [itemType.String].  Its [panic] for a value that is no declared type
    cannot be reached from a value of [itemType]. *)
Definition itemType_String (t : itemType) : string :=
  match t with
  | itemError => "Error"
  | itemEOF => "EOF"
  | itemText => "Text"
  | itemEm => "Em"
  | itemBold => "Bold"
  | itemSection => "Section"
  | itemChapter => "Chapter"
  | itemAnnex => "Annex"
  | itemLink => "Link"
  | itemCommand => "Command"
  | itemNewLine => "NewLine"
  | itemStartListElement => "StartListElement"
  | itemEndListElement => "EndListElement"
  | itemListOpen => "ListOpen"
  | itemListClose => "ListClose"
  | itemTableStart => "TableStart"
  | itemTableEnd => "TableEnd"
  | itemTableRow => "TableRow"
  end.


(** ** Text up to a closing mark *)

(** No byte of the string is [d]. *)
Fixpoint noByte (d : Z) (s : string) : bool :=
  match s with
  | EmptyString => true
  | String c t => negb (byte_of c =? d) && noByte d t
  end.

(** ** Text up to a closing mark, by what follows each byte *)

(** Every rest of [s ++ tail] that starts inside [s] satisfies [p]. *)
Fixpoint allRests (p : string -> bool) (s tail : string) : bool :=
  match s with
  | EmptyString => true
  | String c t => p (String c (t ++ tail)) && allRests p t tail
  end.


(** The rest of an emphasis goes on: it does not start with [__]. *)
Definition inEm (s : string) : bool := negb (HasPrefix s emSymbol).



(** ** Fuel

    A run that has returned (or panicked) within a bound does the same
    within every larger bound. *)

Section FuelMonotone.

Lemma loop_mono st f f' l r :
  loop f st l = r -> r <> OutOfFuel -> (f <= f')%nat -> loop f' st l = r.
Proof.
  revert f' l. induction f as [|f IH]; intros f' l Hr Hne Hle.
  - simpl in Hr. congruence.
  - destruct f' as [|f']; [lia|].
    simpl in *. destruct (body st l) as [l'|l' nxt]; [|assumption].
    apply IH; [assumption|assumption|lia].
Qed.

Lemma call_mono st f f' l r :
  call f st l = r -> r <> OutOfFuel -> (f <= f')%nat -> call f' st l = r.
Proof. unfold call. apply loop_mono. Qed.

Lemma nextItem_mono f f' l r :
  nextItem f l = r -> r <> OutOfFuel -> (f <= f')%nat -> nextItem f' l = r.
Proof.
  revert f' l. induction f as [|f IH]; intros f' l Hr Hne Hle.
  - destruct f'; simpl in *; destruct (items l); congruence.
  - destruct f' as [|f']; [lia|].
    simpl in *. destruct (items l); [|assumption].
    destruct (state l) as [st|]; [|assumption].
    destruct (call f st l) as [[l1 nxt]| |] eqn:Hc.
    + rewrite (call_mono st f f' l _ Hc) by (congruence || lia).
      apply IH; [assumption|assumption|lia].
    + congruence.
    + rewrite (call_mono st f f' l _ Hc) by (congruence || lia).
      assumption.
Qed.

Lemma tokens_mono f f' l r :
  tokens f l = r -> r <> OutOfFuel -> (f <= f')%nat -> tokens f' l = r.
Proof.
  revert f' l r. induction f as [|f IH]; intros f' l r Hr Hne Hle.
  - simpl in Hr. congruence.
  - destruct f' as [|f']; [lia|].
    simpl in *.
    destruct (nextItem f l) as [[it l1]| |] eqn:Hn.
    + rewrite (nextItem_mono f f' l _ Hn) by (congruence || lia).
      destruct (tokens f l1) as [[its last]| |] eqn:Ht.
      * rewrite (IH f' l1 _ Ht) by (congruence || lia). assumption.
      * destruct (typ it); congruence.
      * rewrite (IH f' l1 _ Ht) by (congruence || lia). assumption.
    + congruence.
    + rewrite (nextItem_mono f f' l _ Hn) by (congruence || lia).
      assumption.
Qed.

(** A run is out of fuel or it is the run with a fuel [f0] that has
    returned. *)
Lemma nextItem_settled f0 l f :
  nextItem f0 l <> OutOfFuel ->
  nextItem f l = OutOfFuel \/ nextItem f l = nextItem f0 l.
Proof.
  intros Hne. destruct (Nat.le_ge_cases f f0) as [H|H].
  - destruct (nextItem f l) eqn:E; auto; right; symmetry;
      apply (nextItem_mono f f0 l); trivial; congruence.
  - right. apply (nextItem_mono f0 f l); trivial.
Qed.

End FuelMonotone.

(** ** Runs that do not return *)

Section Stuck.

(** A round that goes on from a lexer to the same lexer: the loop never
    returns. *)
Lemma loop_stuck st l :
  body st l = Continue l -> forall f, loop f st l = OutOfFuel.
Proof.
  intros H f. induction f as [|f IH]; simpl; [reflexivity|].
  rewrite H. exact IH.
Qed.

Lemma nextItem_stuck st l :
  items l = [] -> state l = Some st ->
  (forall f, call f st l = OutOfFuel) ->
  forall f, nextItem f l = OutOfFuel.
Proof.
  intros Hq Hs Hc f. destruct f as [|f]; simpl; rewrite Hq; [reflexivity|].
  rewrite Hs, Hc. reflexivity.
Qed.

Lemma tokens_stuck l :
  (forall f, nextItem f l = OutOfFuel) -> forall f, tokens f l = OutOfFuel.
Proof.
  intros H f. destruct f as [|f]; simpl; [reflexivity|].
  rewrite H. reflexivity.
Qed.

(** When the next item is an ordinary one and the run after it does not
    return, the run does not return. *)
Lemma tokens_stuck_after f0 l it l' :
  nextItem f0 l = Done (it, l') ->
  typ it <> itemEOF -> typ it <> itemError ->
  (forall f, tokens f l' = OutOfFuel) ->
  forall f, tokens f l = OutOfFuel.
Proof.
  intros Hn He Hr Hs f. destruct f as [|f]; simpl; [reflexivity|].
  destruct (nextItem_settled f0 l f) as [E|E];
    [congruence|rewrite E; reflexivity|].
  rewrite E, Hn, Hs. destruct (typ it); congruence.
Qed.

End Stuck.

Section StuckAfter.

Lemma loop_stuck_after st l l' :
  body st l = Continue l' ->
  (forall f, loop f st l' = OutOfFuel) ->
  forall f, loop f st l = OutOfFuel.
Proof.
  intros H Hs f. destruct f as [|f]; simpl; [reflexivity|].
  rewrite H. apply Hs.
Qed.

Lemma call_settled f0 st l f :
  call f0 st l <> OutOfFuel ->
  call f st l = OutOfFuel \/ call f st l = call f0 st l.
Proof.
  intros Hne. destruct (Nat.le_ge_cases f f0) as [H|H].
  - destruct (call f st l) eqn:E; auto; right; symmetry;
      apply (call_mono st f f0 l); trivial; congruence.
  - right. apply (call_mono st f0 f l); trivial.
Qed.

(** A state that returns without sending hands over to the next state. *)
Lemma nextItem_stuck_after f0 st l l1 nxt :
  items l = [] -> state l = Some st ->
  call f0 st l = Done (l1, nxt) ->
  (forall f, nextItem f (set_state l1 nxt) = OutOfFuel) ->
  forall f, nextItem f l = OutOfFuel.
Proof.
  intros Hq Hs Hc Hn f. destruct f as [|f]; simpl; rewrite Hq;
    [reflexivity|].
  rewrite Hs.
  destruct (call_settled f0 st l f) as [E|E];
    [congruence|rewrite E; reflexivity|].
  rewrite E, Hc. apply Hn.
Qed.

End StuckAfter.

(** ** The lexer on unterminated constructs *)

(** C2.  The lexer is not a finite producer on every input: on the input
    [*a], whose bold text is not terminated, the request for the items never
    returns, whatever the bound on the number of rounds.  The empty text
    item before the delimiter is received; then [lexBold] reads the end of
    the input again and again, since its loop has no exit there. *)
Theorem C2_unterminated_bold_never_returns :
  forall fuel, tokens fuel (lex "*a") = OutOfFuel.
Proof.
  eapply (tokens_stuck_after 2).
  - cbv. reflexivity.
  - cbv. discriminate.
  - cbv. discriminate.
  - apply tokens_stuck.
    eapply nextItem_stuck; [reflexivity|reflexivity|].
    unfold call.
    do 2 (eapply loop_stuck_after; [cbv; reflexivity|]).
    apply loop_stuck. cbv. reflexivity.
Qed.

(** ** The builder only appends, and its error stays nil *)

Create HintDb grows.

Lemma grows_refl b : err b = None -> grows b b.
Proof. intros H. split; [assumption|]. exists []. now rewrite app_nil_r. Qed.

Lemma grows_trans b1 b2 b3 : grows b1 b2 -> grows b2 b3 -> grows b1 b3.
Proof.
  intros [_ [c1 H1]] [E [c2 H2]]. split; [assumption|].
  exists (c1 ++ c2)%list. now rewrite H2, H1, app_assoc.
Qed.

Lemma append_content s b :
  err b = None ->
  err (append s b) = None /\ content (append s b) = (content b ++ [s])%list.
Proof. intros H. unfold append. rewrite H. simpl. auto. Qed.

Lemma append_grows s b : err b = None -> grows b (append s b).
Proof.
  intros H. destruct (append_content s b H) as [E C].
  split; [assumption|]. now exists [s].
Qed.

Lemma closeParagraph_grows b : err b = None -> grows b (closeParagraph b).
Proof.
  intros H. unfold closeParagraph. destruct (paragraphIsOpen b).
  - apply (append_grows _ (set_paragraphIsOpen b false)). assumption.
  - now apply grows_refl.
Qed.

Lemma openParagraph_grows b : err b = None -> grows b (openParagraph b).
Proof.
  intros H. unfold openParagraph.
  destruct (paragraphIsOpen b), (newSection b); simpl;
    try (now apply grows_refl).
  - apply (append_grows _ (set_newSection (set_paragraphIsOpen b true) false)).
    assumption.
  - apply (append_grows _ (set_paragraphIsOpen b true)). assumption.
Qed.

Lemma grows_err b b' : grows b b' -> err b' = None.
Proof. now intros [H _]. Qed.

#[local] Hint Resolve grows_refl append_grows closeParagraph_grows
  openParagraph_grows grows_err : grows.

Lemma grows_append b b1 s : grows b b1 -> grows b (append s b1).
Proof. intros G. eapply grows_trans; [exact G|]. eauto with grows. Qed.

Lemma grows_close b b1 : grows b b1 -> grows b (closeParagraph b1).
Proof. intros G. eapply grows_trans; [exact G|]. eauto with grows. Qed.

Lemma grows_open b b1 : grows b b1 -> grows b (openParagraph b1).
Proof. intros G. eapply grows_trans; [exact G|]. eauto with grows. Qed.

Lemma grows_set_paragraphIsOpen b b1 v :
  grows b b1 -> grows b (set_paragraphIsOpen b1 v).
Proof. exact (fun G => G). Qed.

Lemma grows_set_newSection b b1 v :
  grows b b1 -> grows b (set_newSection b1 v).
Proof. exact (fun G => G). Qed.

Lemma grows_set_tableRowIndex b b1 v :
  grows b b1 -> grows b (set_tableRowIndex b1 v).
Proof. exact (fun G => G). Qed.

Lemma grows_set_tableTitle b b1 v :
  grows b b1 -> grows b (set_tableTitle b1 v).
Proof. exact (fun G => G). Qed.

(** Peel the writes and the field updates off the builder on the right. *)
Ltac grows_tac :=
  repeat first
    [ assumption
    | apply grows_append
    | apply grows_close
    | apply grows_open
    | apply grows_set_paragraphIsOpen
    | apply grows_set_newSection
    | apply grows_set_tableRowIndex
    | apply grows_set_tableTitle
    | apply grows_refl ].

Lemma handleCommand_grows name args b b' :
  err b = None -> handleCommand name args b = Done b' -> grows b b'.
Proof.
  intros H. unfold handleCommand.
  destruct (String.eqb name "color").
  - destruct (index args 1); simpl; try discriminate.
    destruct (index args 0); simpl; try discriminate.
    intros E. injection E as <-. grows_tac.
  - destruct (String.eqb name "img").
    + match goal with |- bind ?c _ = _ -> _ => destruct c end;
        simpl; try discriminate.
      match goal with |- bind ?c _ = _ -> _ => destruct c as [[wd ht]| |] end;
        simpl; try discriminate.
      destruct (index args 0); simpl; try discriminate.
      destruct (index args 1); simpl; try discriminate.
      destruct (negb (wd =? "")%string);
        [|destruct (negb (ht =? "")%string)];
        intros E; injection E as <-; grows_tac.
    + intros E. injection E as <-. grows_tac.
Qed.

Lemma append_eq s b :
  err b = None -> append s b = with_content b (content b ++ [s])%list.
Proof. intros H. unfold append. rewrite H. reflexivity. Qed.

Lemma fold_rowCell cells b :
  err b = None ->
  fold_left (fun b cell => append (rowCell (tableRowIndex b) cell) b) cells b
  = with_content b (content b ++ map (rowCell (tableRowIndex b)) cells)%list.
Proof.
  revert b. induction cells as [|c cells IH]; intros b H; simpl.
  - rewrite app_nil_r. destruct b; simpl in *. now subst.
  - rewrite (append_eq _ b H), IH by reflexivity.
    simpl. unfold with_content. simpl. now rewrite <- app_assoc.
Qed.

Lemma handleItem_grows it b b' :
  err b = None -> handleItem it b = Done b' -> grows b b'.
Proof.
  intros H. unfold handleItem.
  destruct (typ it);
    try (destruct (negb (val it =? "")%string);
         intros E; injection E as <-; grows_tac; fail);
    try (intros E; injection E as <-; grows_tac; fail).
  - (* itemLink *)
    destruct (index _ 0); simpl; try discriminate.
    destruct (index _ 1); simpl; try discriminate.
    intros E; injection E as <-. grows_tac.
  - (* itemCommand *)
    destruct (index _ 0); simpl; try discriminate.
    destruct (index _ 1); simpl; try discriminate.
    now apply handleCommand_grows.
  - (* itemTableRow *)
    destruct (index _ 0); simpl; try discriminate.
    intros E; injection E as <-.
    apply grows_append.
    rewrite fold_rowCell.
    + match goal with |- grows b (with_content ?x ?c) =>
        assert (G : grows b x)
      end.
      { grows_tac. destruct (tableRowIndex b =? -1); grows_tac. }
      eapply grows_trans; [exact G|].
      split; [reflexivity|]. simpl. eauto.
    + apply (grows_err b). grows_tac.
      destruct (tableRowIndex b =? -1); grows_tac.
Qed.

Lemma handleItems_grows its b b' :
  err b = None -> handleItems its b = Done b' -> grows b b'.
Proof.
  revert b. induction its as [|it its IH]; intros b H; simpl.
  - intros E. injection E as <-. now apply grows_refl.
  - destruct (handleItem it b) as [b1| |] eqn:E1; simpl; try discriminate.
    intros E. pose proof (handleItem_grows _ _ _ H E1) as G1.
    eapply grows_trans; [exact G1|].
    apply IH; [exact (grows_err _ _ G1)|exact E].
Qed.

Lemma handleSection_grows s b b' :
  err b = None -> handleSection s b = Done b' -> grows b b'.
Proof.
  intros H E. unfold handleSection in E.
  match type of E with handleItems _ ?x = _ =>
    assert (G : grows b x) by grows_tac
  end.
  eapply grows_trans; [exact G|].
  eapply handleItems_grows; [exact (grows_err _ _ G)|exact E].
Qed.

Lemma handleSections_grows ss b b' :
  err b = None -> handleSections ss b = Done b' -> grows b b'.
Proof.
  revert b. induction ss as [|s ss IH]; intros b H; simpl.
  - intros E. injection E as <-. now apply grows_refl.
  - destruct (handleSection s b) as [b1| |] eqn:E1; simpl; try discriminate.
    intros E. pose proof (handleSection_grows _ _ _ H E1) as G1.
    eapply grows_trans; [exact G1|].
    apply IH; [exact (grows_err _ _ G1)|exact E].
Qed.

Lemma buildChapters_grows cs i b b' :
  err b = None -> buildChapters i cs b = Done b' -> grows b b'.
Proof.
  revert i b. induction cs as [|c cs IH]; intros i b H; simpl.
  - intros E. injection E as <-. now apply grows_refl.
  - match goal with |- bind (handleItems _ ?x) _ = _ -> _ =>
      assert (G0 : grows b x) by grows_tac;
      destruct (handleItems (cItems c) x) as [b1| |] eqn:E1
    end; simpl; try discriminate.
    pose proof (handleItems_grows _ _ _ (grows_err _ _ G0) E1) as G1.
    destruct (handleSections (cSections c) b1) as [b2| |] eqn:E2; simpl;
      try discriminate.
    pose proof (handleSections_grows _ _ _ (grows_err _ _ G1) E2) as G2.
    intros E.
    eapply grows_trans; [exact G0|].
    eapply grows_trans; [exact G1|].
    eapply grows_trans; [exact G2|].
    eapply IH; [exact (grows_err _ _ G2)|exact E].
Qed.

Lemma buildAnnexes_grows xs i b b' :
  err b = None -> buildAnnexes i xs b = Done b' -> grows b b'.
Proof.
  revert i b. induction xs as [|a xs IH]; intros i b H; simpl.
  - intros E. injection E as <-. now apply grows_refl.
  - match goal with |- bind (handleItems _ ?x) _ = _ -> _ =>
      assert (G0 : grows b x) by grows_tac;
      destruct (handleItems (sItems a) x) as [b1| |] eqn:E1
    end; simpl; try discriminate.
    pose proof (handleItems_grows _ _ _ (grows_err _ _ G0) E1) as G1.
    intros E.
    assert (G2 : grows b (append ("</div>" ++ nl) b1)).
    { apply grows_append. eapply grows_trans; eassumption. }
    eapply grows_trans; [exact G2|].
    eapply IH; [exact (grows_err _ _ G2)|exact E].
Qed.

Lemma tocSections_grows ss b : err b = None -> grows b (tocSections ss b).
Proof.
  revert b. unfold tocSections.
  induction ss as [|s ss IH]; intros b H; simpl.
  - now apply grows_refl.
  - eapply grows_trans; [apply (append_grows (tocSection s) b H)|].
    apply IH. apply (grows_err b). now apply append_grows.
Qed.

Lemma tocChapters_grows cs i b : err b = None -> grows b (tocChapters i cs b).
Proof.
  revert i b. induction cs as [|c cs IH]; intros i b H; simpl.
  - now apply grows_refl.
  - match goal with |- grows b (tocChapters _ _ ?x) =>
      assert (G : grows b x)
    end.
    { apply grows_append.
      match goal with |- grows b (tocSections _ ?y) =>
        assert (G0 : grows b y) by grows_tac
      end.
      eapply grows_trans; [exact G0|].
      apply tocSections_grows. exact (grows_err _ _ G0). }
    eapply grows_trans; [exact G|].
    apply IH. exact (grows_err _ _ G).
Qed.

Lemma tocAnnexes_grows xs i b : err b = None -> grows b (tocAnnexes i xs b).
Proof.
  revert i b. induction xs as [|a xs IH]; intros i b H; simpl.
  - now apply grows_refl.
  - match goal with |- grows b (tocAnnexes _ _ ?x) =>
      assert (G : grows b x) by grows_tac
    end.
    eapply grows_trans; [exact G|].
    apply IH. exact (grows_err _ _ G).
Qed.

Lemma buildTableOfContents_grows d b :
  err b = None -> grows b (buildTableOfContents d b).
Proof.
  intros H. unfold buildTableOfContents.
  do 2 apply grows_append.
  match goal with |- grows b (tocAnnexes _ _ ?x) =>
    assert (G3 : grows b x)
  end.
  { do 2 apply grows_append.
    match goal with |- grows b (tocChapters _ _ ?x) =>
      assert (G2 : grows b x)
    end.
    { do 2 apply grows_append.
      match goal with |- grows b (tocSections _ ?x) =>
        assert (G1 : grows b x) by grows_tac
      end.
      eapply grows_trans; [exact G1|].
      apply tocSections_grows. exact (grows_err _ _ G1). }
    eapply grows_trans; [exact G2|].
    apply tocChapters_grows. exact (grows_err _ _ G2). }
  eapply grows_trans; [exact G3|].
  apply tocAnnexes_grows. exact (grows_err _ _ G3).
Qed.

(** The error of the builder [Builder.Build] has run on is nil. *)
Lemma Builder_run_err d config b' :
  Builder_run d (newBuilder config) = Done b' -> err b' = None.
Proof.
  unfold Builder_run. simpl.
  set (b0 := mkBuilder None [] false false 0 "" config).
  set (b1 := if TableOfContents config then _ else b0).
  assert (G1 : grows b0 b1).
  { subst b1. destruct (TableOfContents config).
    - now apply buildTableOfContents_grows.
    - now apply grows_refl. }
  destruct (handleSections (Sections d) b1) as [b2| |] eqn:E2; simpl;
    try discriminate.
  pose proof (handleSections_grows _ _ _ (grows_err _ _ G1) E2) as G2.
  destruct (buildChapters 0 (Chapters d) b2) as [b3| |] eqn:E3; simpl;
    try discriminate.
  pose proof (buildChapters_grows _ _ _ _ (grows_err _ _ G2) E3) as G3.
  intros E4.
  exact (grows_err _ _ (buildAnnexes_grows _ _ _ _ (grows_err _ _ G3) E4)).
Qed.

(** ** Roman numerals and the label of the first chapter *)

Lemma toRoman_nonpositive n : n <= 0 -> Roman.toRoman n = "".
Proof.
  intros H. unfold Roman.toRoman. simp toRoman_loop.
  destruct (Z_gt_dec n 0) as [G|G]; simpl; [lia|reflexivity].
Qed.

(** The heading of the first chapter is the first string written when
    there is no table of contents and no section before the chapters. *)
Lemma first_chapter_heading d c cs config b' :
  Sections d = [] -> Chapters d = c :: cs ->
  TableOfContents config = false ->
  Builder_run d (newBuilder config) = Done b' ->
  exists rest, content b' = chapterHeading 0 c :: rest.
Proof.
  intros Hs Hc Ht. unfold Builder_run. simpl. rewrite Ht, Hs, Hc. simpl.
  match goal with |- context [handleItems _ ?x] => set (b0 := x) end.
  destruct (handleItems (cItems c) b0) as [b1| |] eqn:E1; simpl;
    try discriminate.
  assert (H0 : err b0 = None) by reflexivity.
  pose proof (handleItems_grows _ _ _ H0 E1) as G1.
  destruct (handleSections (cSections c) b1) as [b2| |] eqn:E2; simpl;
    try discriminate.
  pose proof (handleSections_grows _ _ _ (grows_err _ _ G1) E2) as G2.
  destruct (buildChapters 1 cs b2) as [b3| |] eqn:E3; simpl;
    try discriminate.
  pose proof (buildChapters_grows _ _ _ _ (grows_err _ _ G2) E3) as G3.
  intros E4.
  pose proof (buildAnnexes_grows _ _ _ _ (grows_err _ _ G3) E4) as G4.
  destruct (grows_trans _ _ _ G1 (grows_trans _ _ _ G2
             (grows_trans _ _ _ G3 G4))) as [_ [chunks Hc']].
  exists chunks. rewrite Hc'. reflexivity.
Qed.

(** C10.  [toRoman] is a total function (its loop subtracts a positive
    value in every round) and returns the empty string for every [n <= 0].
    [Builder.Build] labels the chapters with [toRoman] of their index from
    0, so the heading of the first chapter has the empty label: it reads
    [<h2><a id='anchor'></a> - Title</h2>]. *)
Theorem C10_toRoman_nonpositive_empty_label :
  (forall n, n <= 0 -> Roman.toRoman n = "") /\
  (forall d c cs config b',
      Sections d = [] -> Chapters d = c :: cs ->
      TableOfContents config = false ->
      Builder_run d (newBuilder config) = Done b' ->
      exists rest,
        content b' =
        ("<h2><a id='" ++ anchorName (cTitle c) ++ "'></a>" ++ ""
         ++ " - " ++ cTitle c ++ "</h2>" ++ nl) :: rest).
Proof.
  split; [exact toRoman_nonpositive|].
  intros d c cs config b' Hs Hc Ht E.
  destruct (first_chapter_heading d c cs config b' Hs Hc Ht E) as [rest H].
  exists rest. rewrite H. unfold chapterHeading.
  rewrite (toRoman_nonpositive 0) by lia. reflexivity.
Qed.

Lemma C10_witness :
  Roman.toRoman (-3) = "" /\
  exists b', Builder_run introDocument (newBuilder (mkConfig false)) = Done b'
    /\ exists rest,
      content b' = ("<h2><a id='intro'></a> - Intro</h2>" ++ nl) :: rest.
Proof.
  split.
  - apply (proj1 C10_toRoman_nonpositive_empty_label (-3)). lia.
  - eexists. split; [vm_compute; reflexivity|].
    apply (proj2 C10_toRoman_nonpositive_empty_label introDocument
             (mkChapter "Intro"
                [mkItem itemNewLine "" 1; mkItem itemText "Hello " 2;
                 mkItem itemBold "world" 2; mkItem itemText "." 2;
                 mkItem itemNewLine "" 2] [])
             [] (mkConfig false));
      reflexivity.
Defined.

(** ** The pipeline on three inputs *)

(** C1.  On the input [abc], which holds no trigger, the lexer yields one
    text item; the assembler puts it in [Document.Items], which
    [Builder.Build] never reads (it renders the sections, the chapters and
    the annexes): the output is the empty string, not a paragraph. *)
Theorem C1_text_without_trigger_renders_nothing :
  tokens 10 (lex (Go.ReplaceAll "abc" "%" "%%"))
  = Done ([mkItem itemText "abc" 1], mkItem itemEOF "" 1)
  /\ assemble [mkItem itemText "abc" 1]
     = mkDocument [mkItem itemText "abc" 1] [] [] []
  /\ Build 10 "abc" okWriter (mkConfig false) = Done ([""], None).
Proof. repeat split. Qed.

(** C4.  On the input ["#C\nANNEX A\n##S\nx"] the section [S], which
    follows the annex heading, is appended to the sections of the chapter
    [C], and the text [x] after it is placed in that section: the annex case
    of [Build] leaves the pointer [sections] on the chapter. *)
Theorem C4_section_after_annex_joins_chapter :
  let its :=
    [mkItem itemChapter "C" 1; mkItem itemNewLine "" 1;
     mkItem itemAnnex "A" 2; mkItem itemNewLine "" 2;
     mkItem itemSection "S" 3; mkItem itemNewLine "" 3;
     mkItem itemText "x" 4] in
  tokens 20 (lex ("#C" ++ nl ++ "ANNEX A" ++ nl ++ "##S" ++ nl ++ "x"))
  = Done (its, mkItem itemEOF "" 4)
  /\ assemble its
     = mkDocument [] []
         [mkChapter "C" [mkItem itemNewLine "" 1]
            [mkSection "S" [mkItem itemNewLine "" 3; mkItem itemText "x" 4]]]
         [mkSection "A" [mkItem itemNewLine "" 2]].
Proof. repeat split. Qed.

(** C7.  On the input ["#Intro\nHello *world*.\n"], without table of
    contents, the chapter heading carries the empty label, not the Roman
    numeral I: the chapter is labelled with [toRoman] of its index from 0.
    The paragraph that follows is as the claim says. *)
Theorem C7_intro_heading_has_empty_label :
  Build 20 ("#Intro" ++ nl ++ "Hello *world*." ++ nl) okWriter
        (mkConfig false)
  = Done (["<h2><a id='intro'></a> - Intro</h2>" ++ nl
           ++ "<p class='indent'>" ++ nl
           ++ "Hello <strong>world</strong>." ++ nl ++ "</p>" ++ nl],
          None).
Proof. vm_compute. reflexivity. Qed.

(** ** Tables *)

Arguments wrap64 : simpl never.

Lemma wrap64_small z :
  -9223372036854775808 <= z < 9223372036854775808 -> wrap64 z = z.
Proof.
  intros H. unfold wrap64. rewrite Z.mod_small by lia. lia.
Qed.

Lemma Split_nonempty s sep : exists c0 cs, Go.Split s sep = c0 :: cs.
Proof.
  induction s as [|c s [c0 [cs IH]]]; simpl.
  - now exists "", [].
  - destruct (Ascii.eqb c sep); [now exists "", (Go.Split s sep)|].
    rewrite IH. now exists (String c c0), cs.
Qed.

(** The first row after [itemTableStart]: the header block, then the row
    with header cells. *)
Lemma handleItem_first_row r b :
  err b = None -> typ r = itemTableRow -> tableRowIndex b = -1 ->
  exists b',
    handleItem r b = Done b' /\ err b' = None /\ tableRowIndex b' = 0 /\
    content b' = (content b
                  ++ headerBlock (List.length (cellsOf r)) (tableTitle b)
                  ++ dataRow "head" (cellsOf r))%list.
Proof.
  intros He Ht Hi. unfold handleItem, cellsOf. rewrite Ht, Hi.
  destruct (Split_nonempty (val r) "|") as [c0 [cs Hs]]. rewrite Hs.
  destruct b as [e c p n t ti cfg]. simpl in He, Hi. subst e t.
  cbn -[fold_left wrap64 String.append nl Fmt.itoa rowCell].
  rewrite fold_rowCell by reflexivity.
  cbn -[wrap64 String.append nl Fmt.itoa rowCell].
  rewrite wrap64_small by lia.
  eexists. split; [reflexivity|]. cbn [err tableRowIndex content].
  split; [reflexivity|]. split; [reflexivity|].
  unfold dataRow, trOpen, trClose. cbn [hd tl].
  repeat rewrite <- app_assoc. reflexivity.
Qed.

(** A later row: the row alone, with plain cells after the first. *)
Lemma handleItem_later_row r b :
  err b = None -> typ r = itemTableRow ->
  0 <= tableRowIndex b < 9223372036854775807 ->
  exists b',
    handleItem r b = Done b' /\ err b' = None /\
    tableRowIndex b' = tableRowIndex b + 1 /\
    content b' = (content b ++ dataRow "lead" (cellsOf r))%list.
Proof.
  intros He Ht Hi. unfold handleItem, cellsOf. rewrite Ht.
  destruct (tableRowIndex b =? -1) eqn:E; [lia|].
  destruct (Split_nonempty (val r) "|") as [c0 [cs Hs]]. rewrite Hs.
  destruct b as [e c p n t ti cfg]. simpl in He, Hi. subst e.
  cbn -[fold_left wrap64 String.append nl Fmt.itoa rowCell].
  rewrite fold_rowCell by reflexivity.
  cbn -[wrap64 String.append nl Fmt.itoa rowCell].
  rewrite wrap64_small by lia.
  eexists. split; [reflexivity|]. cbn [err tableRowIndex content].
  split; [reflexivity|]. split; [reflexivity|].
  unfold dataRow, trOpen, trClose. cbn [hd tl].
  replace (map (rowCell (t + 1)) cs) with (map (td "lead") cs).
  - repeat rewrite <- app_assoc. reflexivity.
  - apply map_ext. intros cell. unfold rowCell, td.
    destruct (t + 1 =? 0) eqn:E0; [lia|reflexivity].
Qed.

Lemma handleItems_later_rows rows :
  forall b,
    err b = None ->
    Forall (fun r => typ r = itemTableRow) rows ->
    0 <= tableRowIndex b ->
    tableRowIndex b + Z.of_nat (List.length rows) < 9223372036854775808 ->
    exists b',
      handleItems rows b = Done b' /\ err b' = None /\
      content b'
      = (content b ++ flat_map (fun r => dataRow "lead" (cellsOf r)) rows)%list.
Proof.
  induction rows as [|r rows IH]; intros b He Hf H0 Hn.
  - exists b. simpl. rewrite app_nil_r. auto.
  - inversion Hf as [|? ? Hr Hrs]; subst.
    cbn [List.length] in Hn.
    destruct (handleItem_later_row r b He Hr) as [b1 [E1 [He1 [Hi1 Hc1]]]];
      [lia|].
    destruct (IH b1 He1 Hrs) as [b' [E' [He' Hc']]]; [lia|lia|].
    exists b'. cbn [handleItems]. rewrite E1. cbn [bind].
    split; [exact E'|]. split; [exact He'|].
    rewrite Hc', Hc1. cbn [flat_map]. now rewrite <- !app_assoc.
Qed.

(** C8.  For a table, that is an [itemTableStart] followed by its rows,
    the first row writes the header block (one header cell that spans the
    cells of that row and holds the title of the table) and a data row whose
    cells all have the class [head]; every later row writes a data row
    whose first cell has the class [head] and whose other cells have the
    class [lead].  The number of rows is below 2^63, as the length of a Go
    slice is. *)
Theorem C8_table_rows_rendering b start r0 rows :
  err b = None ->
  typ start = itemTableStart ->
  Forall (fun r => typ r = itemTableRow) (r0 :: rows) ->
  Z.of_nat (List.length rows) < 9223372036854775807 ->
  exists b',
    handleItems (start :: r0 :: rows) b = Done b' /\
    content b'
    = (content (closeParagraph b) ++ [tableMarkup]
       ++ headerBlock (List.length (cellsOf r0)) (val start)
       ++ dataRow "head" (cellsOf r0)
       ++ flat_map (fun r => dataRow "lead" (cellsOf r)) rows)%list.
Proof.
  intros He Hs Hf Hn.
  inversion Hf as [|? ? Hr0 Hrows]; subst.
  pose proof (grows_err _ _ (closeParagraph_grows b He)) as Hc.
  set (b0 := closeParagraph b) in *.
  assert (E0 : handleItem start b
               = Done (with_content
                         (set_tableTitle (set_tableRowIndex b0 (-1))
                                         (val start))
                         (content b0 ++ [tableMarkup]))).
  { unfold handleItem. rewrite Hs. fold b0.
    now rewrite append_eq by exact Hc. }
  set (b1 := with_content _ _) in E0.
  destruct (handleItem_first_row r0 b1) as [b2 [E2 [He2 [Hi2 Hc2]]]];
    [reflexivity|exact Hr0|reflexivity|].
  destruct (handleItems_later_rows rows b2 He2 Hrows) as [b' [E' [_ Hc']]];
    [lia|lia|].
  exists b'. cbn [handleItems]. rewrite E0. cbn [bind].
  rewrite E2. cbn [bind]. split; [exact E'|].
  rewrite Hc', Hc2. subst b1. cbn [content with_content tableTitle
    set_tableTitle set_tableRowIndex].
  now rewrite <- !app_assoc.
Qed.

Lemma C8_witness :
  exists b',
    handleItems [mkItem itemTableStart "T" 1; mkItem itemTableRow "a|b" 2;
                 mkItem itemTableRow "c|d" 3]
                (newBuilder (mkConfig false)) = Done b' /\
    content b'
    = (content (closeParagraph (newBuilder (mkConfig false)))
       ++ [tableMarkup]
       ++ headerBlock (List.length (cellsOf (mkItem itemTableRow "a|b" 2)))
                      "T"
       ++ dataRow "head" (cellsOf (mkItem itemTableRow "a|b" 2))
       ++ flat_map (fun r => dataRow "lead" (cellsOf r))
                   [mkItem itemTableRow "c|d" 3])%list.
Proof.
  apply (C8_table_rows_rendering (newBuilder (mkConfig false))
           (mkItem itemTableStart "T" 1) (mkItem itemTableRow "a|b" 2)
           [mkItem itemTableRow "c|d" 3]).
  - reflexivity.
  - reflexivity.
  - repeat constructor.
  - simpl. lia.
Defined.

(** ** Paragraphs *)

(** When [handleItem] handles an item that starts a table or a list, it
    writes the close of the paragraph, when one is open, before the markup
    of the table or of the list, and no paragraph is open afterwards. *)
Lemma handleItem_closes_paragraph b it :
  err b = None ->
  typ it = itemTableStart \/ typ it = itemListOpen ->
  exists b',
    handleItem it b = Done b' /\ paragraphIsOpen b' = false /\
    content b'
    = (content b
       ++ (if paragraphIsOpen b then [paragraphCloseMarkup] else [])
       ++ blockMarkupOf (typ it))%list.
Proof.
  intros He Ht. unfold handleItem.
  destruct b as [e c p n t ti cfg]. simpl in He. subst e.
  destruct Ht as [Ht|Ht]; rewrite Ht; destruct p;
    (eexists; split; [reflexivity|]; split; [reflexivity|]);
    cbn -[String.append nl]; now rewrite <- ?app_assoc.
Qed.

(** ** Strings without a line feed *)

Lemma nlfree_app a b : nlfree (a ++ b) = nlfree a && nlfree b.
Proof.
  induction a as [|c a IH]; simpl; [reflexivity|].
  rewrite IH. now rewrite andb_assoc.
Qed.

Lemma substring_split s : forall n m w,
  substring n (m + w) s = substring n m s ++ substring (n + m) w s.
Proof.
  induction s as [|c s IH]; intros n m w.
  - destruct n, m, w; reflexivity.
  - destruct n as [|n].
    + destruct m as [|m]; simpl.
      * reflexivity.
      * f_equal. apply (IH O m w).
    + simpl. apply IH.
Qed.

Lemma substring_drop s : forall k w,
  substring k w s = substring 0 w (drop k s).
Proof.
  induction s as [|c s IH]; intros k w.
  - destruct k, w; reflexivity.
  - destruct k as [|k]; simpl; [reflexivity|]. apply IH.
Qed.

Lemma drop_nil_length s : forall n,
  drop n s = EmptyString -> (String.length s <= n)%nat.
Proof.
  induction s as [|c s IH]; intros n H; simpl; [lia|].
  destruct n as [|n]; simpl in H; [discriminate|].
  apply IH in H. lia.
Qed.

Lemma drop_length_nil s : forall n,
  (String.length s <= n)%nat -> drop n s = EmptyString.
Proof.
  induction s as [|c s IH]; intros n H; simpl in *.
  - now destruct n.
  - destruct n as [|n]; [lia|]. apply IH. lia.
Qed.

Lemma nlfree_TrimLeft s : nlfree s = true -> nlfree (Go.TrimLeft s) = true.
Proof.
  induction s as [|c s IH]; simpl; [reflexivity|].
  intros H. destruct (Go.isSpace c); [|exact H].
  apply andb_true_iff in H. now apply IH.
Qed.

Lemma nlfree_TrimRight s : nlfree s = true -> nlfree (Go.TrimRight s) = true.
Proof.
  induction s as [|c s IH]; simpl; [reflexivity|].
  intros H. apply andb_true_iff in H. destruct H as [Hc Hs].
  specialize (IH Hs).
  destruct (Go.TrimRight s) as [|c' t'].
  - destruct (Go.isSpace c); simpl; [reflexivity|]. now rewrite Hc.
  - simpl in *. now rewrite Hc, IH.
Qed.

Lemma nlfree_TrimSpace s : nlfree s = true -> nlfree (Go.TrimSpace s) = true.
Proof.
  intros H. unfold Go.TrimSpace.
  now apply nlfree_TrimRight, nlfree_TrimLeft.
Qed.

Lemma nlfree_Sprintf0_aux n : forall s,
  (String.length s <= n)%nat ->
  nlfree s = true -> nlfree (Fmt.Sprintf0 s) = true.
Proof.
  induction n as [|n IH]; intros s Hl H.
  - destruct s; [reflexivity|simpl in Hl; lia].
  - destruct s as [|c t]; [reflexivity|].
    simpl in H. apply andb_true_iff in H. destruct H as [Hc Ht].
    simpl. destruct (Ascii.eqb c "%").
    + destruct t as [|v t']; [reflexivity|].
      simpl in Ht. apply andb_true_iff in Ht. destruct Ht as [Hv Ht'].
      assert (R : nlfree (Fmt.Sprintf0 t') = true)
        by (apply IH; [simpl in Hl; lia|exact Ht']).
      destruct (Ascii.eqb v "%"); simpl; rewrite ?Hv, ?R; reflexivity.
    + simpl. rewrite Hc. apply IH; [simpl in Hl; lia|exact Ht].
Qed.

Lemma nlfree_Sprintf0 s : nlfree s = true -> nlfree (Fmt.Sprintf0 s) = true.
Proof. apply (nlfree_Sprintf0_aux (String.length s)). lia. Qed.

(** A string without a line feed differs from one with a line feed. *)
Lemma nlfree_neq s m :
  nlfree s = true -> nlfree m = false -> String.eqb s m = false.
Proof.
  intros Hs Hm. destruct (String.eqb s m) eqn:E; [|reflexivity].
  apply String.eqb_eq in E. subst. congruence.
Qed.

(** ** The runes [next] reads *)

Lemma isNl_byte c : isNl c = true -> byte_of c = 10.
Proof.
  unfold isNl. intros H. apply Ascii.eqb_eq in H. subst. reflexivity.
Qed.

Lemma high_byte_not_nl c : 128 <= byte_of c -> isNl c = false.
Proof.
  intros H. destruct (isNl c) eqn:E; [|reflexivity].
  apply isNl_byte in E. lia.
Qed.

Lemma utf8_first_lo s0 sz lo hi :
  Go.utf8_first s0 = Some (sz, lo, hi) -> 128 <= lo.
Proof.
  unfold Go.utf8_first.
  repeat match goal with
         | |- context [if ?c then _ else _] => destruct c
         end; intros H; inversion H; lia.
Qed.

Lemma HasPrefix_cons c t a p :
  HasPrefix (String c t) (String a p) = Ascii.eqb a c && HasPrefix t p.
Proof.
  unfold HasPrefix. cbn [String.prefix].
  destruct (ascii_dec a c) as [E|E].
  - subst. now rewrite Ascii.eqb_refl.
  - apply Ascii.eqb_neq in E. now rewrite E.
Qed.

Lemma HasPrefix_nil a p : HasPrefix EmptyString (String a p) = false.
Proof. reflexivity. Qed.

Lemma HasPrefix_empty s : HasPrefix s EmptyString = true.
Proof. now destruct s. Qed.

Lemma not_prefix_nl c t : HasPrefix (String c t) nl = false -> isNl c = false.
Proof.
  unfold nl, chr. rewrite HasPrefix_cons, HasPrefix_empty, andb_true_r.
  unfold isNl. now rewrite Ascii.eqb_sym.
Qed.

(** The bytes of a rune hold no line feed, unless the rune is one. *)
Lemma Decode_nlfree s r w :
  Go.DecodeRuneInString s = (r, w) ->
  HasPrefix s nl = false ->
  0 <= w /\ nlfree (substring 0 (Z.to_nat w) s) = true.
Proof.
  destruct s as [|c0 t]; simpl.
  - intros H _. inversion H; subst. split; [lia|reflexivity].
  - intros H Hp. apply not_prefix_nl in Hp.
    assert (One : nlfree (substring 0 1 (String c0 t)) = true).
    { simpl. rewrite Hp. now destruct t. }
    destruct (byte_of c0 <? 128); [inversion H; subst; auto with zarith|].
    destruct (Go.utf8_first (byte_of c0)) as [[[sz lo] hi]|] eqn:F;
      [|inversion H; subst; auto with zarith].
    apply utf8_first_lo in F.
    destruct (len (String c0 t) <? sz);
      [inversion H; subst; auto with zarith|].
    destruct t as [|c1 t1]; [inversion H; subst; auto with zarith|].
    destruct ((byte_of c1 <? lo) || (hi <? byte_of c1)) eqn:R1;
      [inversion H; subst; auto with zarith|].
    apply orb_false_iff in R1. destruct R1 as [R1 _].
    apply Z.ltb_ge in R1.
    assert (N1 : isNl c1 = false) by (apply high_byte_not_nl; lia).
    destruct (sz <=? 2).
    { inversion H; subst. split; [lia|]. simpl. rewrite Hp, N1.
      now destruct t1. }
    destruct t1 as [|c2 t2]; [inversion H; subst; auto with zarith|].
    destruct (Go.is_cont (byte_of c2)) eqn:R2; simpl in H;
      [|inversion H; subst; auto with zarith].
    unfold Go.is_cont in R2. apply andb_true_iff in R2.
    destruct R2 as [R2 _]. apply Z.leb_le in R2.
    assert (N2 : isNl c2 = false) by (apply high_byte_not_nl; lia).
    destruct (sz <=? 3).
    { inversion H; subst. split; [lia|]. simpl. rewrite Hp, N1, N2.
      now destruct t2. }
    destruct t2 as [|c3 t3]; [inversion H; subst; auto with zarith|].
    destruct (Go.is_cont (byte_of c3)) eqn:R3; simpl in H;
      [|inversion H; subst; auto with zarith].
    unfold Go.is_cont in R3. apply andb_true_iff in R3.
    destruct R3 as [R3 _]. apply Z.leb_le in R3.
    assert (N3 : isNl c3 = false) by (apply high_byte_not_nl; lia).
    inversion H; subst. split; [lia|]. simpl. rewrite Hp, N1, N2, N3.
    now destruct t3.
Qed.

(** ** The primitives of the lexer *)

Lemma substring_zero s : forall n, substring n 0 s = EmptyString.
Proof.
  induction s as [|c s IH]; intros [|n]; simpl; auto.
Qed.

Lemma next_snd l : next l = (fst (next l), next_ l).
Proof. unfold next_. now destruct (next l). Qed.

(** [next] leaves the input, the start and the queue as they are and does
    not move the position back; [backup] after it restores the position. *)
Lemma next_fields l :
  input (next_ l) = input l /\ start (next_ l) = start l /\
  items (next_ l) = items l /\ pos l <= pos (next_ l) /\
  pos (next_ l) - width (next_ l) = pos l.
Proof.
  unfold next_, next.
  destruct (pos l >=? len (input l)); [simpl; repeat split; lia|].
  destruct (Go.DecodeRuneInString (from (input l) (pos l))) as [r w] eqn:D.
  assert (0 <= w).
  { unfold Go.DecodeRuneInString in D.
    repeat match type of D with
           | context [match ?x with _ => _ end] => destruct x
           end; inversion D; lia. }
  destruct (r =? 10); simpl; repeat split; lia.
Qed.

Lemma backup_fields l :
  input (backup l) = input l /\ start (backup l) = start l /\
  items (backup l) = items l /\ pos (backup l) = pos l - width l.
Proof.
  unfold backup.
  match goal with |- context [if ?c then _ else _] => destruct c end;
    simpl; auto.
Qed.

Lemma backup_next_fields l :
  input (backup (next_ l)) = input l /\ start (backup (next_ l)) = start l /\
  items (backup (next_ l)) = items l /\ pos (backup (next_ l)) = pos l.
Proof.
  destruct (backup_fields (next_ l)) as [A [B [C D]]].
  destruct (next_fields l) as [A' [B' [C' [_ D']]]].
  repeat split; congruence.
Qed.

(** The pending text depends on the input, the start and the position. *)
Lemma pending_ext l l' :
  input l' = input l -> start l' = start l -> pos l' = pos l ->
  pending l' = pending l.
Proof. unfold pending. now intros -> -> ->. Qed.

Lemma pending_empty l : start l = pos l -> pending l = EmptyString.
Proof.
  unfold pending, slice. intros ->. rewrite Z.sub_diag. apply substring_zero.
Qed.

(** Reading a rune that is not a line feed keeps the pending text free of
    line feeds. *)
Lemma next_nlfree l :
  0 <= start l -> start l <= pos l ->
  nlfree (pending l) = true -> at_prefix l newLine = false ->
  nlfree (pending (next_ l)) = true.
Proof.
  intros H0 H1 Hp Ha. unfold next_, next.
  destruct (pos l >=? len (input l)); [exact Hp|].
  destruct (Go.DecodeRuneInString (from (input l) (pos l))) as [r w] eqn:D.
  destruct (Decode_nlfree _ _ _ D Ha) as [Hw Hn].
  assert (E : pending (set_pos (set_width l w) (pos l + w))
              = pending l ++ substring 0 (Z.to_nat w) (from (input l) (pos l))).
  { unfold pending, slice, from. simpl.
    replace (Z.to_nat (pos l + w - start l))
      with (Z.to_nat (pos l - start l) + Z.to_nat w)%nat by lia.
    rewrite substring_split.
    replace (Z.to_nat (start l) + Z.to_nat (pos l - start l))%nat
      with (Z.to_nat (pos l)) by lia.
    now rewrite (substring_drop (input l) (Z.to_nat (pos l))). }
  assert (G : nlfree (pending (set_pos (set_width l w) (pos l + w))) = true)
    by (rewrite E, nlfree_app, Hp, Hn; reflexivity).
  destruct (r =? 10); exact G.
Qed.

(** ** The invariant of the lexer *)

Lemma noTrigger_prefix rest a p :
  noTrigger rest -> 1 <= byte_of a < 128 ->
  HasPrefix rest (String a p) = false.
Proof.
  destruct rest as [|c t]; intros H Ha; [reflexivity|].
  simpl in H. rewrite HasPrefix_cons. destruct (Ascii.eqb a c) eqn:E; [|reflexivity].
  apply Ascii.eqb_eq in E. subst. lia.
Qed.

Lemma at_end_prefix l a p :
  at_end l -> 1 <= byte_of a < 128 -> at_prefix l (String a p) = false.
Proof. intros [_ H] Ha. now apply noTrigger_prefix. Qed.

Lemma next_fst_ext l l' :
  input l' = input l -> pos l' = pos l -> fst (next l') = fst (next l).
Proof.
  intros Hi Hp. unfold next. rewrite Hi, Hp.
  destruct (pos l >=? len (input l)); [reflexivity|].
  destruct (Go.DecodeRuneInString _) as [r w].
  destruct (r =? 10); reflexivity.
Qed.

Lemma at_end_ext l l' :
  input l' = input l -> pos l' = pos l -> at_end l -> at_end l'.
Proof.
  intros Hi Hp [A B]. split.
  - now rewrite (next_fst_ext l l').
  - now rewrite Hi, Hp.
Qed.

Lemma gathered_ext l l' :
  input l' = input l -> start l' = start l -> pos l' = pos l ->
  gathered l -> gathered l'.
Proof.
  intros Hi Hs Hp [A [B C]]. unfold gathered.
  rewrite (pending_ext l l' Hi Hs Hp), Hs, Hp. auto.
Qed.

Lemma stateInv_ext st m l l' :
  input l' = input l -> start l' = start l -> pos l' = pos l ->
  stateInv st m l -> stateInv st m l'.
Proof.
  intros Hi Hs Hp [A [B C]]. split; [lia|]. split.
  - intros G. apply (gathered_ext l); auto.
  - destruct m; [|exact C].
    destruct C as [C|[C D]]; [now left|right].
    split; [exact C|]. now apply (at_end_ext l).
Qed.

(** A lexer whose pending text is empty. *)
Lemma gathered_fresh l : 0 <= pos l -> start l = pos l -> gathered l.
Proof.
  intros H E. unfold gathered. rewrite (pending_empty l E).
  repeat split; lia.
Qed.

(** When [next] reads the end of the input, no trigger starts there. *)
Lemma next_eof_at_end l : 0 <= pos l -> fst (next l) = eof -> at_end l.
Proof.
  intros H0 H. split; [exact H|].
  unfold next in H.
  destruct (pos l >=? len (input l)) eqn:E.
  - apply Z.geb_le in E. unfold from, len in *.
    rewrite drop_length_nil by lia. exact I.
  - destruct (Go.DecodeRuneInString (from (input l) (pos l))) as [r w] eqn:D.
    assert (r = 0) by (destruct (r =? 10); exact H). subst r.
    destruct (from (input l) (pos l)) as [|c t]; [exact I|].
    simpl in D. simpl.
    destruct (byte_of c <? 128) eqn:B.
    + inversion D. now left.
    + apply Z.ltb_ge in B. now right.
Qed.

Lemma lrun_app m a b :
  lrun m (a ++ b) = match lrun m a with
                    | Some m' => lrun m' b
                    | None => None
                    end.
Proof.
  revert m. induction a as [|x a IH]; intros m; simpl; [reflexivity|].
  destruct (lstep m x); [apply IH|reflexivity].
Qed.

Arguments next_ : simpl never.
Arguments backup : simpl never.
Arguments pending : simpl never.
Arguments at_prefix : simpl never.

Lemma next_input l : input (next_ l) = input l.
Proof. apply next_fields. Qed.
Lemma next_start l : start (next_ l) = start l.
Proof. apply next_fields. Qed.
Lemma next_items l : items (next_ l) = items l.
Proof. apply next_fields. Qed.
Lemma next_pos_ge l : pos l <= pos (next_ l).
Proof. apply next_fields. Qed.
Lemma backup_next_input l : input (backup (next_ l)) = input l.
Proof. apply backup_next_fields. Qed.
Lemma backup_next_start l : start (backup (next_ l)) = start l.
Proof. apply backup_next_fields. Qed.
Lemma backup_next_items l : items (backup (next_ l)) = items l.
Proof. apply backup_next_fields. Qed.
Lemma backup_next_pos l : pos (backup (next_ l)) = pos l.
Proof. apply backup_next_fields. Qed.
Lemma backup_next_pending l : pending (backup (next_ l)) = pending l.
Proof.
  apply pending_ext; [apply backup_next_input|apply backup_next_start
                     |apply backup_next_pos].
Qed.

Create Rewrite HintDb lex.
#[local] Hint Rewrite next_input next_start next_items backup_next_input
  backup_next_start backup_next_items backup_next_pos backup_next_pending
  : lex.

Ltac lexcbn :=
  cbn [input start pos items emit emitTrim emitCustom ignore send set_start
       set_pos typ val] in *.

Ltac lexrw := autorewrite with lex in *.

Ltac lexsimp :=
  repeat first [progress lexcbn | progress lexrw];
  rewrite <- ?app_assoc.

(** Note the lower bound of the position after every [next]. *)
Ltac note_next :=
  repeat match goal with
         | |- context [next_ ?x] =>
           lazymatch goal with
           | _ : pos x <= pos (next_ x) |- _ => fail
           | _ => pose proof (next_pos_ge x)
           end
         end.

Lemma lexHeading_inv st t m l :
  isHeading t = true -> inList st = false -> gathers st = true ->
  st <> lexText ->
  stateInv st m l -> outcomeInv st m l (lexHeading_body t l).
Proof.
  intros Ht Hst Hg Hne [H0 [HJ Hm]]. specialize (HJ Hg).
  destruct HJ as [J0 [J1 J2]].
  assert (m = false).
  { destruct m; [|reflexivity]. destruct Hm as [Hm|[Hm _]]; [congruence|].
    contradiction. }
  subst m. unfold lexHeading_body.
  destruct (at_prefix l newLine) eqn:P.
  - (* the heading ends *)
    do 2 eexists. split; [|split; [|split]].
    + lexsimp. reflexivity.
    + cbn. unfold okItem. cbn. rewrite nlfree_TrimSpace, orb_true_r by exact J2.
      destruct t; try discriminate; reflexivity.
    + cbn. unfold lstep. cbn. destruct t; try discriminate; reflexivity.
    + split; [exact H0|]. split; [|reflexivity].
      intros _. apply gathered_fresh; [exact H0|reflexivity].
  - rewrite next_snd. destruct (fst (next l) =? eof) eqn:E.
    + (* the input ends inside the heading *)
      exists [], false. split; [|split; [|split]].
      * lexsimp. now rewrite app_nil_r.
      * reflexivity.
      * reflexivity.
      * apply (stateInv_ext lexText false l); lexsimp; trivial.
        split; [exact H0|]. split; [|reflexivity].
        intros _. repeat split; assumption.
    + split.
      * note_next. split; [lia|]. split; [|exact Hst].
        intros _. split; [|split]; lexsimp; try lia.
        now apply next_nlfree.
      * now lexsimp.
Qed.

(** A sub-lexer [st] hands over to a state [fn] of the same mode with an
    empty pending text. *)
Lemma return_to st fn m l l' :
  st <> lexText -> inList st = inList fn ->
  stateInv st m l -> 0 <= pos l' -> start l' = pos l' ->
  stateInv fn m l'.
Proof.
  intros Hne Hi [_ [_ Hm]] H0 Hs. split; [exact H0|]. split.
  - intros _. now apply gathered_fresh.
  - destruct m.
    + left. destruct Hm as [Hm|[Hm _]]; [congruence|contradiction].
    + congruence.
Qed.

(** A sub-lexer goes on, or hands over to another sub-lexer. *)
Lemma sub_to st st' m l l' :
  st <> lexText -> inList st = inList st' -> gathers st' = false ->
  stateInv st m l -> 0 <= pos l' -> stateInv st' m l'.
Proof.
  intros Hne Hi Hg [_ [_ Hm]] H0. split; [exact H0|]. split.
  - rewrite Hg. discriminate.
  - destruct m.
    + left. destruct Hm as [Hm|[Hm _]]; [congruence|contradiction].
    + congruence.
Qed.

Ltac sub_return :=
  match goal with
  | H : stateInv ?st ?m ?l |- stateInv ?fn ?m ?l' =>
    first
      [ apply (return_to st fn m l l');
        [discriminate|reflexivity|exact H
        |lexsimp; note_next; lexsimp; change (len table) with 7;
         destruct H; lia
        |lexsimp; reflexivity]
      | apply (sub_to st fn m l l');
        [discriminate|reflexivity|reflexivity|exact H
        |lexsimp; note_next; lexsimp; destruct H; lia] ]
  end.

(** The outcome of a sub-lexer that sends one item of a type that is
    neither plain nor a list or heading boundary. *)
Ltac sub_round :=
  cbv beta iota zeta;
  match goal with
  | |- outcomeInv _ _ _ (Continue _) =>
    split; [sub_return|lexsimp; reflexivity]
  | |- outcomeInv _ ?m _ (Return _ _) =>
    first
      [ exists [], m; split; [lexsimp; now rewrite app_nil_r|];
        split; [reflexivity|]; split; [reflexivity|]; sub_return
      | do 2 eexists; split; [lexsimp; reflexivity|];
        split; [reflexivity|]; split; [reflexivity|]; sub_return ]
  end.

Lemma lexBold_inv fn m l :
  stateInv (lexBold fn) m l ->
  outcomeInv (lexBold fn) m l (lexBold_body fn l).
Proof.
  intros H. unfold lexBold_body. rewrite next_snd.
  destruct (fst (next l) =? boldRune); sub_round.
Qed.

Lemma lexEm_inv fn m l :
  stateInv (lexEm fn) m l -> outcomeInv (lexEm fn) m l (lexEm_body fn l).
Proof.
  intros H. unfold lexEm_body.
  destruct (at_prefix l emSymbol); sub_round.
Qed.

Lemma lexTableTitle_inv fn m l :
  stateInv (lexTableTitle fn) m l ->
  outcomeInv (lexTableTitle fn) m l (lexTableTitle_body fn l).
Proof.
  intros H. unfold lexTableTitle_body. rewrite next_snd.
  destruct (fst (next l) =? 10); sub_round.
Qed.

Lemma lexTable_inv fn m l :
  stateInv (lexTable fn) m l ->
  outcomeInv (lexTable fn) m l (lexTable_body fn l).
Proof.
  intros H. unfold lexTable_body.
  destruct (at_prefix l table); [sub_round|].
  rewrite next_snd. destruct (fst (next l) =? 10); sub_round.
Qed.

Lemma lexCmdName_inv fn m l :
  stateInv (lexCmdName fn) m l ->
  outcomeInv (lexCmdName fn) m l (lexCmdName_body fn l).
Proof.
  intros H. unfold lexCmdName_body. rewrite next_snd.
  destruct (fst (next l) =? 40); sub_round.
Qed.

Lemma lexCmdArgs_inv cmd fn m l :
  stateInv (lexCmdArgs cmd fn) m l ->
  outcomeInv (lexCmdArgs cmd fn) m l (lexCmdArgs_body cmd fn l).
Proof.
  intros H. unfold lexCmdArgs_body. rewrite next_snd.
  destruct (fst (next l) =? 41); sub_round.
Qed.

Lemma lexLinkHead_inv fn m l :
  stateInv (lexLinkHead fn) m l ->
  outcomeInv (lexLinkHead fn) m l (lexLinkHead_body fn l).
Proof.
  intros H. unfold lexLinkHead_body. rewrite next_snd.
  destruct (fst (next l) =? 93); sub_round.
Qed.

Lemma lexLinkTail_inv text fn m l :
  stateInv (lexLinkTail text fn) m l ->
  outcomeInv (lexLinkTail text fn) m l (lexLinkTail_body text fn l).
Proof.
  intros H. unfold lexLinkTail_body. rewrite next_snd.
  destruct (fst (next l) =? 41); sub_round.
Qed.

Lemma pending_after_emit t l : pending (emit t l) = EmptyString.
Proof. now apply pending_empty. Qed.

Lemma pending_after_emitTrim t l : pending (emitTrim t l) = EmptyString.
Proof. now apply pending_empty. Qed.

Lemma pending_after_ignore l : pending (ignore l) = EmptyString.
Proof. now apply pending_empty. Qed.

#[local] Hint Rewrite pending_after_emit pending_after_emitTrim
  pending_after_ignore : lex.

(** The items sent are fine: the plain ones hold the pending text, which
    has no line feed. *)
Ltac ok_items :=
  lexsimp; cbn [forallb app]; unfold okItem;
  cbn [typ val isPlain itemType_eqb negb orb andb nlfree];
  repeat match goal with
         | H : nlfree ?s = true |- context [nlfree (Go.TrimSpace ?s)] =>
           rewrite (nlfree_TrimSpace s H)
         | H : nlfree ?s = true |- context [nlfree ?s] => rewrite H
         end;
  cbn [negb orb andb]; reflexivity.

(** A round that returns: the items, that they are fine, the mode. *)
Ltac ret_round :=
  cbv beta iota zeta;
  do 2 eexists;
  split; [lexsimp; first [reflexivity|symmetry; apply app_nil_r]|];
  split; [ok_items|];
  split; [reflexivity|].

(** The invariant of a state entered with an empty pending text. *)
Ltac fresh_state :=
  split; [lexsimp; note_next; lexsimp; lia|];
  split; [intros _; apply gathered_fresh;
          [lexsimp; note_next; lexsimp; lia|lexsimp; reflexivity]
         |first [reflexivity|left; reflexivity]].

(** The invariant of a sub-lexer that is entered. *)
Ltac sub_state :=
  split; [lexsimp; note_next; lexsimp; lia|];
  split; [discriminate|first [reflexivity|left; reflexivity]].

Lemma lexListItem_inv m l :
  stateInv lexListItem m l -> outcomeInv lexListItem m l (lexListItem_body l).
Proof.
  intros [H0 [HJ Hm]]. destruct (HJ eq_refl) as [J0 [J1 J2]].
  destruct m; [clear Hm|discriminate].
  unfold lexListItem_body, flush, flush_before.
  destruct (at_prefix l listElement).
  { destruct (pos l >? start l); ret_round; fresh_state. }
  destruct (at_prefix l newLine) eqn:PN.
  { destruct (pos l >? start l); ret_round; fresh_state. }
  destruct (at_prefix l emSymbol).
  { destruct (pos l >? start l); ret_round; sub_state. }
  rewrite next_snd.
  destruct (fst (next l) =? boldRune).
  { destruct (pos (next_ l) >? start (next_ l)); ret_round; sub_state. }
  destruct (fst (next l) =? eof) eqn:E.
  { ret_round. apply Z.eqb_eq in E.
    split; [lexsimp; lia|]. split.
    - intros _. apply (gathered_ext l); lexsimp; trivial.
      repeat split; assumption.
    - right. split; [reflexivity|].
      apply (at_end_ext l); lexsimp; trivial.
      now apply next_eof_at_end. }
  cbv beta iota. split; [|lexsimp; reflexivity].
  note_next. split; [lia|]. split; [|left; reflexivity].
  intros _. split; [|split]; lexsimp; try lia.
  now apply next_nlfree.
Qed.

(** At the end of the input [lexText] sends the pending text, when there is
    one, and [itemEOF], and returns nil. *)
Lemma lexText_at_end l :
  at_end l ->
  lexText_body l
  = Return (emit itemEOF (if pos (next_ l) >? start (next_ l)
                          then emitTrim itemText (next_ l) else next_ l))
           None.
Proof.
  intros H. unfold lexText_body, section, table, annex, chapter, listElement,
              newLine, emSymbol, nl, chr.
  cbn [String.append].
  rewrite !(at_end_prefix l _ _ H)
    by (split; [apply Z.leb_le|apply Z.ltb_lt]; reflexivity).
  rewrite next_snd. destruct H as [E _]. rewrite E. reflexivity.
Qed.

Lemma lexText_inv m l :
  stateInv lexText m l -> outcomeInv lexText m l (lexText_body l).
Proof.
  intros [H0 [HJ Hm]]. destruct (HJ eq_refl) as [J0 [J1 J2]].
  destruct m.
  { (* a list was left open at the end of the input *)
    destruct Hm as [Hm|[_ Hm]]; [discriminate|].
    rewrite (lexText_at_end l Hm).
    assert (N : nlfree (pending (next_ l)) = true).
    { apply next_nlfree; trivial.
      apply (at_end_prefix l _ _ Hm).
      split; [apply Z.leb_le|apply Z.ltb_lt]; reflexivity. }
    destruct (pos (next_ l) >? start (next_ l)); ret_round; exact I. }
  unfold lexText_body, flush, flush_before.
  destruct (at_prefix l section).
  { destruct (pos l >? start l); ret_round; fresh_state. }
  destruct (at_prefix l table).
  { destruct (pos l >? start l); ret_round; sub_state. }
  destruct (at_prefix l annex).
  { destruct (pos l >? start l); ret_round; fresh_state. }
  destruct (at_prefix l chapter).
  { destruct (pos l >? start l); ret_round; fresh_state. }
  destruct (at_prefix l listElement).
  { destruct (pos l >? start l); ret_round; fresh_state. }
  destruct (at_prefix l newLine) eqn:PN.
  { destruct (pos l >? start l); ret_round; fresh_state. }
  destruct (at_prefix l emSymbol).
  { destruct (pos l >? start l); ret_round; sub_state. }
  assert (N : nlfree (pending (next_ l)) = true)
    by (now apply next_nlfree).
  rewrite next_snd.
  destruct (fst (next l) =? cmdStart).
  { destruct (pos (next_ l) >? start (next_ l)); ret_round; sub_state. }
  destruct (fst (next l) =? boldRune).
  { destruct (pos (next_ l) >? start (next_ l)); ret_round; sub_state. }
  destruct (fst (next l) =? 91).
  { destruct (pos (next_ l) >? start (next_ l)); ret_round; sub_state. }
  destruct (fst (next l) =? eof).
  { destruct (pos (next_ l) >? start (next_ l)); ret_round; exact I. }
  cbv beta iota. split; [|lexsimp; reflexivity].
  note_next. split; [lia|]. split; [|reflexivity].
  intros _. split; [|split]; lexsimp; try lia. exact N.
Qed.

Lemma body_inv st m l : stateInv st m l -> outcomeInv st m l (body st l).
Proof.
  destruct st; simpl.
  - apply lexText_inv.
  - now apply lexHeading_inv.
  - now apply lexHeading_inv.
  - now apply lexHeading_inv.
  - apply lexListItem_inv.
  - apply lexBold_inv.
  - apply lexEm_inv.
  - apply lexTableTitle_inv.
  - apply lexTable_inv.
  - apply lexCmdName_inv.
  - apply lexCmdArgs_inv.
  - apply lexLinkHead_inv.
  - apply lexLinkTail_inv.
Qed.

Lemma enter_inv st m l :
  stateInv st m l ->
  stateInv st m (enter st l) /\ items (enter st l) = items l.
Proof.
  intros H.
  destruct st; simpl; try (split; [exact H|reflexivity]);
    (split; [|reflexivity]);
    match goal with
    | |- stateInv ?s _ ?l' =>
      apply (sub_to s s m l l');
        [discriminate|reflexivity|reflexivity|exact H
        |lexsimp; change (len table) with 7; destruct H; lia]
    end.
Qed.

(** ** The invariant along a run of the lexer *)

Lemma loop_inv f : forall st m l l' nxt,
  stateInv st m l -> loop f st l = Done (l', nxt) ->
  outcomeInv st m l (Return l' nxt).
Proof.
  induction f as [|f IH]; intros st m l l' nxt H E; simpl in E;
    [discriminate|].
  pose proof (body_inv st m l H) as B.
  destruct (body st l) as [l1|l1 nxt1].
  - destruct B as [B1 B2]. specialize (IH st m l1 l' nxt B1 E).
    simpl in *. now rewrite <- B2.
  - inversion E; subst. exact B.
Qed.

Lemma call_inv f st m l l' nxt :
  stateInv st m l -> call f st l = Done (l', nxt) ->
  outcomeInv st m l (Return l' nxt).
Proof.
  intros H E. unfold call in E.
  destruct (enter_inv st m l H) as [H1 H2].
  pose proof (loop_inv f st m (enter st l) l' nxt H1 E) as B.
  simpl in *. now rewrite <- H2.
Qed.

Lemma nextItem_inv f : forall m l it l',
  lexerInv m l -> nextItem f l = Done (it, l') ->
  okItem it = true /\ exists m1, lstep m it = Some m1 /\ lexerInv m1 l'.
Proof.
  assert (Q : forall m l it q,
             lexerInv m l -> items l = it :: q ->
             okItem it = true /\
             exists m1, lstep m it = Some m1 /\ lexerInv m1 (set_items l q)).
  { intros m l it q [Hok [m' [Hrun Hst]]] Hq. rewrite Hq in *.
    simpl in Hok, Hrun. apply andb_true_iff in Hok. destruct Hok as [Ha Hb].
    split; [exact Ha|].
    destruct (lstep m it) as [m1|]; [|discriminate].
    exists m1. split; [reflexivity|]. split; [exact Hb|].
    exists m'. split; [exact Hrun|].
    simpl. destruct (state l) as [st|]; [|exact I].
    now apply (stateInv_ext st m' l). }
  induction f as [|f IH]; intros m l it l' H E; simpl in E.
  - destruct (items l) as [|x q] eqn:Hq; [discriminate|].
    inversion E; subst. now apply Q.
  - destruct (items l) as [|x q] eqn:Hq.
    + destruct H as [_ [m' [Hrun Hst]]]. rewrite Hq in Hrun.
      simpl in Hrun. inversion Hrun; subst m'.
      destruct (state l) as [st|]; [|discriminate].
      destruct (call f st l) as [[l1 nxt]| |] eqn:C; try discriminate.
      destruct (call_inv f st m l l1 nxt Hst C)
        as [emitted [m2 [Hi [Hok [Hr Hn]]]]].
      rewrite Hq in Hi. simpl in Hi.
      apply (IH m (set_state l1 nxt) it l'); [|exact E].
      split; [simpl; now rewrite Hi|].
      exists m2. split; [simpl; now rewrite Hi|].
      simpl. destruct nxt as [st'|]; [|exact I].
      now apply (stateInv_ext st' m2 l1).
    + inversion E; subst. now apply Q.
Qed.

Lemma tokens_inv f : forall m l its last,
  lexerInv m l -> tokens f l = Done (its, last) ->
  forallb okItem its = true /\ okItem last = true /\
  exists m', lrun m its = Some m'.
Proof.
  induction f as [|f IH]; intros m l its last H E; simpl in E;
    [discriminate|].
  destruct (nextItem f l) as [[it l1]| |] eqn:N; try discriminate.
  destruct (nextItem_inv f m l it l1 H N) as [Hok [m1 [Hs Hinv]]].
  assert (R : match tokens f l1 with
              | Done (its0, last0) => Done (it :: its0, last0)
              | OutOfFuel => OutOfFuel
              | Panic => Panic
              end = Done (its, last) ->
              forallb okItem its = true /\ okItem last = true /\
              exists m', lrun m its = Some m').
  { destruct (tokens f l1) as [[its0 last0]| |] eqn:T; try discriminate.
    intros R. inversion R; subst.
    destruct (IH m1 l1 its0 last Hinv T) as [A [L [m' B]]].
    split; [simpl; now rewrite Hok, A|]. split; [exact L|].
    exists m'. simpl. now rewrite Hs. }
  destruct (typ it); try (exact (R E));
    inversion E; subst;
    (split; [reflexivity|]; split; [exact Hok|now exists m]).
Qed.

Lemma lex_inv inp : lexerInv false (lex inp).
Proof.
  split; [reflexivity|]. exists false. split; [reflexivity|].
  simpl. split; [simpl; lia|]. split; [|reflexivity].
  intros _. apply gathered_fresh; simpl; lia.
Qed.

(** The items [Build] receives are fine and come in an order in which the
    lists and the headings are well placed. *)
Lemma tokens_fine f inp its last :
  tokens f (lex inp) = Done (its, last) ->
  forallb okItem its = true /\ exists m', lrun false its = Some m'.
Proof.
  intros E. destruct (tokens_inv f false (lex inp) its last (lex_inv inp) E)
    as [A [_ B]]. auto.
Qed.

(** The lexer sends no error item: the item that ends the loop of [Build]
    is [itemEOF]. *)
Lemma tokens_end_with_EOF f : forall l its last,
  tokens f l = Done (its, last) ->
  typ last = itemEOF \/ typ last = itemError.
Proof.
  induction f as [|f IH]; intros l its last E; simpl in E; [discriminate|].
  destruct (nextItem f l) as [[it l1]| |]; try discriminate.
  assert (R : match tokens f l1 with
              | Done (its0, last0) => Done (it :: its0, last0)
              | OutOfFuel => OutOfFuel
              | Panic => Panic
              end = Done (its, last) ->
              typ last = itemEOF \/ typ last = itemError).
  { destruct (tokens f l1) as [[its0 last0]| |] eqn:T; try discriminate.
    intros R. inversion R; subst. exact (IH l1 its0 last T). }
  destruct (typ it) eqn:Et; try (exact (R E)); inversion E; subst; auto.
Qed.

Lemma lexer_sends_no_error f inp its last :
  tokens f (lex inp) = Done (its, last) -> typ last = itemEOF.
Proof.
  intros E.
  destruct (tokens_inv f false (lex inp) its last (lex_inv inp) E)
    as [_ [L _]].
  destruct (tokens_end_with_EOF f _ _ _ E) as [T|T]; [exact T|].
  unfold okItem in L. rewrite T in L. discriminate.
Qed.

(** ** The items the builder handles *)

Lemma lastOpt_app {A : Type} (xs : list A) x : lastOpt (xs ++ [x]) = Some x.
Proof.
  induction xs as [|y xs IH]; [reflexivity|].
  simpl. destruct (xs ++ [x])%list eqn:E; [|exact IH].
  destruct xs; discriminate.
Qed.

Lemma lastOpt_update_last {A : Type} (f : A -> A) xs :
  lastOpt (update_last f xs) = option_map f (lastOpt xs).
Proof.
  induction xs as [|y xs IH]; [reflexivity|].
  destruct xs as [|z xs]; [reflexivity|].
  change (update_last f (y :: z :: xs)) with (y :: update_last f (z :: xs)).
  change (lastOpt (y :: z :: xs)) with (lastOpt (z :: xs)).
  rewrite <- IH. simpl. destruct xs; reflexivity.
Qed.

(** Updating the last element so that one item is inserted in what it
    holds inserts that item in what the list holds. *)
Lemma flat_map_update_last_insert {A : Type} (g : A -> list item)
      (f : A -> A) it xs x :
  lastOpt xs = Some x ->
  (exists p q, g x = (p ++ q)%list /\ g (f x) = (p ++ it :: q)%list) ->
  exists pre post,
    flat_map g xs = (pre ++ post)%list /\
    flat_map g (update_last f xs) = (pre ++ it :: post)%list.
Proof.
  intros Hl [p [q [Hg Hf]]]. induction xs as [|y xs IH]; [discriminate|].
  destruct xs as [|z xs].
  - inversion Hl; subst. exists p, q. simpl. rewrite !app_nil_r. auto.
  - destruct (IH Hl) as [pre [post [E1 E2]]].
    exists (g y ++ pre)%list, post.
    change (update_last f (y :: z :: xs)) with (y :: update_last f (z :: xs)).
    cbn [flat_map] in *. rewrite E1, E2, !app_assoc. auto.
Qed.

Lemma flat_map_update_last_same {A : Type} (g : A -> list item)
      (f : A -> A) xs :
  (forall x, lastOpt xs = Some x -> g (f x) = g x) ->
  flat_map g (update_last f xs) = flat_map g xs.
Proof.
  induction xs as [|y xs IH]; intros H; [reflexivity|].
  destruct xs as [|z xs].
  - simpl. rewrite (H y eq_refl). reflexivity.
  - change (update_last f (y :: z :: xs)) with (y :: update_last f (z :: xs)).
    cbn [flat_map]. rewrite IH; [reflexivity|]. exact H.
Qed.

Lemma flat_map_snoc {A B : Type} (g : A -> list B) xs x :
  flat_map g (xs ++ [x]) = (flat_map g xs ++ g x)%list.
Proof. rewrite flat_map_app. simpl. now rewrite app_nil_r. Qed.

Lemma section_insert it s :
  exists p q, sItems s = (p ++ q)%list
              /\ sItems (section_add_item it s) = (p ++ it :: q)%list.
Proof. exists (sItems s), []. simpl. now rewrite app_nil_r. Qed.

(** An item appended through [items], when it does not point to
    [document.Items], is inserted among the items the builder handles. *)
Lemma add_item_rendered a it :
  assemblerInv a -> items_ a <> ItemsOfDocument ->
  exists pre post,
    renderedItems (document a) = (pre ++ post)%list /\
    renderedItems (add_item (sections a) (items_ a) it (document a))
    = (pre ++ it :: post)%list.
Proof.
  intros [_ W] Hne. unfold renderedItems.
  destruct (items_ a); [contradiction| | |]; simpl.
  - (* the items of the last chapter *)
    destruct W as [c Hc].
    destruct (flat_map_update_last_insert chapterItems
                (fun c => mkChapter (cTitle c) (cItems c ++ [it])
                                    (cSections c))
                it (Chapters (document a)) c Hc) as [pre [post [E1 E2]]].
    { exists (cItems c), (flat_map sItems (cSections c)).
      unfold chapterItems. simpl. now rewrite <- app_assoc. }
    exists (flat_map sItems (Sections (document a)) ++ pre)%list,
           (post ++ flat_map sItems (Annexes (document a)))%list.
    rewrite E1, E2, <- !app_assoc. auto.
  - (* the items of the last section *)
    destruct (sections a); simpl.
    + destruct W as [s Hs].
      destruct (flat_map_update_last_insert sItems (section_add_item it) it
                  (Sections (document a)) s Hs (section_insert it s))
        as [pre [post [E1 E2]]].
      exists pre,
        (post ++ flat_map chapterItems (Chapters (document a))
         ++ flat_map sItems (Annexes (document a)))%list.
      rewrite E1, E2, <- !app_assoc. auto.
    + destruct W as [c [s [Hc Hs]]].
      destruct (flat_map_update_last_insert sItems (section_add_item it) it
                  (cSections c) s Hs (section_insert it s))
        as [p [q [F1 F2]]].
      destruct (flat_map_update_last_insert chapterItems
                  (fun c => mkChapter (cTitle c) (cItems c)
                              (update_last (section_add_item it)
                                           (cSections c)))
                  it (Chapters (document a)) c Hc) as [pre [post [E1 E2]]].
      { exists (cItems c ++ p)%list, q. unfold chapterItems. simpl.
        rewrite F1, F2, <- !app_assoc. auto. }
      exists (flat_map sItems (Sections (document a)) ++ pre)%list,
             (post ++ flat_map sItems (Annexes (document a)))%list.
      rewrite E1, E2, <- !app_assoc. auto.
  - (* the items of the last annex *)
    destruct W as [x Hx].
    destruct (flat_map_update_last_insert sItems (section_add_item it) it
                (Annexes (document a)) x Hx (section_insert it x))
      as [pre [post [E1 E2]]].
    exists (flat_map sItems (Sections (document a))
            ++ flat_map chapterItems (Chapters (document a)) ++ pre)%list,
           post.
    rewrite E1, E2, <- !app_assoc. auto.
Qed.

Lemma countType_app t a b :
  countType t (a ++ b) = (countType t a + countType t b)%nat.
Proof. unfold countType. now rewrite filter_app, length_app. Qed.

Lemma countType_insert t pre it post :
  countType t (pre ++ it :: post)
  = (countType t (pre ++ post)
     + (if itemType_eqb (typ it) t then 1 else 0))%nat.
Proof.
  rewrite !countType_app. unfold countType at 2. simpl.
  destruct (itemType_eqb (typ it) t); simpl; fold (countType t post); lia.
Qed.

Lemma forallb_insert {A : Type} (p : A -> bool) pre x post :
  forallb p (pre ++ x :: post) = forallb p (pre ++ post) && p x.
Proof.
  rewrite !forallb_app. simpl.
  destruct (forallb p pre), (p x), (forallb p post); reflexivity.
Qed.

Lemma assemblerInv_add_item a it :
  assemblerInv a ->
  assemblerInv
    (mkAssembler (add_item (sections a) (items_ a) it (document a))
                 (chapter_ a) (sections a) (items_ a) (section_ a)).
Proof.
  intros [W1 W2]. unfold assemblerInv. cbn [document sections items_].
  destruct (items_ a) eqn:Ei; cbn [add_item].
  - split; [exact W1|exact W2].
  - cbn [Chapters]. rewrite lastOpt_update_last.
    destruct W2 as [c Hc]. rewrite Hc. simpl. split; eauto.
  - destruct (sections a) eqn:Es; cbn [Chapters Sections].
    + split; [discriminate|]. rewrite lastOpt_update_last.
      destruct W2 as [s Hs]. rewrite Hs. simpl. eauto.
    + rewrite lastOpt_update_last.
      destruct W2 as [c [s [Hc Hs]]]. rewrite Hc. simpl.
      split; [eauto|]. do 2 eexists. split; [reflexivity|].
      cbn [cSections]. rewrite lastOpt_update_last, Hs. reflexivity.
  - cbn [Chapters Annexes]. split; [exact W1|].
    rewrite lastOpt_update_last. destruct W2 as [x Hx]. rewrite Hx.
    simpl. eauto.
Qed.

(** A heading adds a container that holds no item. *)
Lemma add_section_rendered sp v d :
  renderedItems (add_section sp (mkSection v []) d) = renderedItems d.
Proof.
  unfold renderedItems. destruct sp; simpl.
  - rewrite flat_map_snoc. simpl. now rewrite app_nil_r.
  - rewrite flat_map_update_last_same; [reflexivity|].
    intros c _. unfold chapterItems. simpl.
    rewrite flat_map_snoc. simpl. now rewrite app_nil_r.
Qed.

Lemma buildInv_rendered_nil a :
  assemblerInv a -> items_ a = ItemsOfDocument ->
  renderedItems (document a) = [].
Proof.
  intros [_ W] E. rewrite E in W. destruct W as [A [B C]].
  unfold renderedItems. now rewrite A, B, C.
Qed.

Lemma assemble_item_inv m a it m1 :
  buildInv m a -> okItem it = true -> lstep m it = Some m1 ->
  buildInv m1 (assemble_item a it).
Proof.
  intros [W [Hok Hbal]] Hit Hs.
  assert (Plain : isHeading (typ it) = false ->
                  buildInv m1
                    (mkAssembler
                       (add_item (sections a) (items_ a) it (document a))
                       (chapter_ a) (sections a) (items_ a) (section_ a))).
  { intros Hh. split; [now apply assemblerInv_add_item|].
    cbn [document items_].
    destruct (items_ a) eqn:Ei.
    1: { split; [exact Hok|now left]. }
    all: destruct (add_item_rendered a it W) as [pre [post [E1 E2]]];
      [congruence|];
      rewrite Ei in E2; rewrite E2, E1 in *; clear E1 E2;
      (split; [now rewrite forallb_insert, Hok, Hit|]); right;
      (destruct Hbal as [Hbal|Hbal]; [discriminate|]);
      unfold listBalance in *; rewrite !countType_insert;
      unfold lstep in Hs;
      destruct (typ it), m; simpl in *; inversion Hs; subst;
      try discriminate; lia. }
  assert (Bal0 : m = false -> listBalance false (renderedItems (document a))).
  { intros ->. destruct Hbal as [E|B]; [|exact B].
    rewrite (buildInv_rendered_nil a W E). reflexivity. }
  unfold assemble_item. unfold lstep in Hs.
  destruct (typ it) eqn:Et; try (apply Plain; reflexivity).
  - (* itemChapter *)
    destruct m; inversion Hs; subst. specialize (Bal0 eq_refl).
    assert (R : renderedItems
                  (mkDocument (Items (document a)) (Sections (document a))
                     (Chapters (document a) ++ [mkChapter (val it) [] []])
                     (Annexes (document a)))
                = renderedItems (document a)).
    { unfold renderedItems. simpl. rewrite flat_map_snoc. simpl.
      now rewrite app_nil_r. }
    split; [|split].
    + split; cbn [document sections items_ Chapters]; intros;
        rewrite lastOpt_app; eauto.
    + cbn [document]. now rewrite R.
    + right. cbn [document]. now rewrite R.
  - (* itemSection *)
    destruct m; inversion Hs; subst. specialize (Bal0 eq_refl).
    split; [|split].
    + destruct W as [W1 W2]. unfold assemblerInv.
      cbn [document sections items_].
      destruct (sections a) eqn:Es; cbn [add_section Sections Chapters].
      * split; [discriminate|]. rewrite lastOpt_app. eauto.
      * destruct (W1 eq_refl) as [c Hc].
        rewrite lastOpt_update_last, Hc. simpl. split; [eauto|].
        do 2 eexists. split; [reflexivity|]. cbn [cSections].
        apply lastOpt_app.
    + cbn [document]. now rewrite add_section_rendered.
    + right. cbn [document]. now rewrite add_section_rendered.
  - (* itemAnnex *)
    destruct m; inversion Hs; subst. specialize (Bal0 eq_refl).
    assert (R : renderedItems
                  (mkDocument (Items (document a)) (Sections (document a))
                     (Chapters (document a))
                     (Annexes (document a) ++ [mkSection (val it) []]))
                = renderedItems (document a)).
    { unfold renderedItems. simpl. rewrite flat_map_snoc. simpl.
      now rewrite app_nil_r. }
    split; [|split].
    + destruct W as [W1 W2]. split; cbn [document sections items_ Chapters
                                          Annexes].
      * exact W1.
      * rewrite lastOpt_app. eauto.
    + cbn [document]. now rewrite R.
    + right. cbn [document]. now rewrite R.
Qed.

Lemma assemble_inv its : forall m a m',
  buildInv m a -> forallb okItem its = true -> lrun m its = Some m' ->
  buildInv m' (fold_left assemble_item its a).
Proof.
  induction its as [|it its IH]; intros m a m' H Hok Hr; simpl in *.
  - inversion Hr; subst. exact H.
  - apply andb_true_iff in Hok. destruct Hok as [Hit Hok].
    destruct (lstep m it) as [m1|] eqn:Hs; [|discriminate].
    apply (IH m1); trivial. now apply (assemble_item_inv m).
Qed.

(** Among the items the builder handles, for the items of any input, the
    lists opened are the lists closed, or one more. *)
Lemma assemble_balance its m' :
  forallb okItem its = true -> lrun false its = Some m' ->
  forallb okItem (renderedItems (assemble its)) = true /\
  (countType itemListClose (renderedItems (assemble its))
   <= countType itemListOpen (renderedItems (assemble its))
   <= countType itemListClose (renderedItems (assemble its)) + 1)%nat.
Proof.
  intros Hok Hr.
  assert (H0 : buildInv false assembler0).
  { split; [|split]; [|reflexivity|now left].
    split; [discriminate|]. simpl. auto. }
  destruct (assemble_inv its false assembler0 m' H0 Hok Hr) as [W [A B]].
  split; [exact A|].
  destruct B as [B|B].
  - pose proof (buildInv_rendered_nil _ W B) as R.
    change (renderedItems (assemble its) = []) in R. rewrite R.
    unfold countType. simpl. lia.
  - change (listBalance m' (renderedItems (assemble its))) in B.
    unfold listBalance in B. destruct m'; lia.
Qed.

(** ** The list markup the builder writes *)

Lemma listOpens_app a b :
  listOpens (a ++ b) = (listOpens a + listOpens b)%nat.
Proof. unfold listOpens. now rewrite filter_app, length_app. Qed.

Lemma listCloses_app a b :
  listCloses (a ++ b) = (listCloses a + listCloses b)%nat.
Proof. unfold listCloses. now rewrite filter_app, length_app. Qed.

Lemma writes_refl b : err b = None -> writes b b 0 0.
Proof.
  intros H. split; [exact H|]. exists []. now rewrite app_nil_r.
Qed.

Lemma writes_trans b1 b2 b3 o1 c1 o2 c2 :
  writes b1 b2 o1 c1 -> writes b2 b3 o2 c2 ->
  writes b1 b3 (o1 + o2) (c1 + c2).
Proof.
  intros [_ [k1 [E1 [O1 C1]]]] [H [k2 [E2 [O2 C2]]]].
  split; [exact H|]. exists (k1 ++ k2)%list.
  rewrite E2, E1, app_assoc, listOpens_app, listCloses_app. auto.
Qed.

Lemma writes_err b b' o c : writes b b' o c -> err b' = None.
Proof. now intros [H _]. Qed.

Lemma writes_chunks b b1 o c chunks :
  writes b b1 o c ->
  writes b (with_content b1 (content b1 ++ chunks))
         (o + listOpens chunks) (c + listCloses chunks).
Proof.
  intros [_ [k [E [O C]]]]. split; [reflexivity|].
  exists (k ++ chunks)%list. simpl.
  rewrite E, app_assoc, listOpens_app, listCloses_app. auto.
Qed.

Lemma quiet_counts chunks :
  forallb quiet chunks = true ->
  listOpens chunks = 0%nat /\ listCloses chunks = 0%nat.
Proof.
  unfold listOpens, listCloses.
  induction chunks as [|s chunks IH]; simpl; [auto|].
  intros H. apply andb_true_iff in H. destruct H as [Q H].
  unfold quiet in Q. apply andb_true_iff in Q. destruct Q as [Q1 Q2].
  apply negb_true_iff in Q1, Q2. rewrite Q1, Q2. auto.
Qed.

Lemma writes_quiet_chunks b b1 o c chunks :
  writes b b1 o c -> forallb quiet chunks = true ->
  writes b (with_content b1 (content b1 ++ chunks)) o c.
Proof.
  intros W Q. destruct (quiet_counts chunks Q) as [A B].
  pose proof (writes_chunks b b1 o c chunks W) as R.
  now rewrite A, B, !Nat.add_0_r in R.
Qed.

Lemma writes_append_quiet b b1 o c s :
  writes b b1 o c -> quiet s = true -> writes b (append s b1) o c.
Proof.
  intros W Q. rewrite (append_eq s b1 (writes_err _ _ _ _ W)).
  apply writes_quiet_chunks; [exact W|]. simpl. now rewrite Q.
Qed.

Lemma writes_append_open b b1 o c :
  writes b b1 o c -> writes b (append listOpenMarkup b1) (S o) c.
Proof.
  intros W. rewrite (append_eq _ b1 (writes_err _ _ _ _ W)).
  pose proof (writes_chunks b b1 o c [listOpenMarkup] W) as R.
  change (listOpens [listOpenMarkup]) with 1%nat in R.
  change (listCloses [listOpenMarkup]) with 0%nat in R.
  now rewrite Nat.add_1_r, Nat.add_0_r in R.
Qed.

Lemma writes_append_close b b1 o c :
  writes b b1 o c -> writes b (append listCloseMarkup b1) o (S c).
Proof.
  intros W. rewrite (append_eq _ b1 (writes_err _ _ _ _ W)).
  pose proof (writes_chunks b b1 o c [listCloseMarkup] W) as R.
  change (listOpens [listCloseMarkup]) with 0%nat in R.
  change (listCloses [listCloseMarkup]) with 1%nat in R.
  now rewrite Nat.add_1_r, Nat.add_0_r in R.
Qed.

Lemma writes_close b b1 o c :
  writes b b1 o c -> writes b (closeParagraph b1) o c.
Proof.
  intros W. unfold closeParagraph. destruct (paragraphIsOpen b1); [|exact W].
  apply (writes_append_quiet b (set_paragraphIsOpen b1 false));
    [exact W|reflexivity].
Qed.

Lemma writes_open b b1 o c :
  writes b b1 o c -> writes b (openParagraph b1) o c.
Proof.
  intros W. unfold openParagraph.
  destruct (paragraphIsOpen b1), (newSection b1); simpl; try exact W.
  - apply (writes_append_quiet b
             (set_newSection (set_paragraphIsOpen b1 true) false));
      [exact W|reflexivity].
  - apply (writes_append_quiet b (set_paragraphIsOpen b1 true));
      [exact W|reflexivity].
Qed.

Lemma writes_set_newSection b b1 o c v :
  writes b b1 o c -> writes b (set_newSection b1 v) o c.
Proof. exact (fun W => W). Qed.

Lemma writes_set_tableRowIndex b b1 o c v :
  writes b b1 o c -> writes b (set_tableRowIndex b1 v) o c.
Proof. exact (fun W => W). Qed.

Lemma writes_set_tableTitle b b1 o c v :
  writes b b1 o c -> writes b (set_tableTitle b1 v) o c.
Proof. exact (fun W => W). Qed.

(** A string without a line feed is no list markup. *)
Lemma quiet_nlfree s : nlfree s = true -> quiet s = true.
Proof.
  intros H. unfold quiet, isListOpen, isListClose.
  now rewrite !(nlfree_neq s _ H).
Qed.

Ltac writes_tac :=
  repeat first
    [ assumption
    | apply writes_refl
    | apply writes_close
    | apply writes_open
    | apply writes_set_newSection
    | apply writes_set_tableRowIndex
    | apply writes_set_tableTitle
    | apply writes_append_quiet; [|reflexivity]
    | apply writes_append_open
    | apply writes_append_close ].

Lemma handleCommand_writes name args b b' :
  err b = None -> handleCommand name args b = Done b' -> writes b b' 0 0.
Proof.
  intros H. unfold handleCommand.
  destruct (String.eqb name "color").
  - destruct (index args 1); simpl; try discriminate.
    destruct (index args 0); simpl; try discriminate.
    intros E. injection E as <-. writes_tac.
  - destruct (String.eqb name "img").
    + match goal with |- bind ?c _ = _ -> _ => destruct c end;
        simpl; try discriminate.
      match goal with |- bind ?c _ = _ -> _ => destruct c as [[wd ht]| |] end;
        simpl; try discriminate.
      destruct (index args 0); simpl; try discriminate.
      destruct (index args 1); simpl; try discriminate.
      destruct (negb (wd =? "")%string);
        [|destruct (negb (ht =? "")%string)];
        intros E; injection E as <-; writes_tac.
    + intros E. injection E as <-. writes_tac.
Qed.

Lemma quiet_rowCells i cells : forallb quiet (map (rowCell i) cells) = true.
Proof.
  induction cells as [|c cells IH]; simpl; [reflexivity|].
  rewrite IH, andb_true_r. unfold rowCell. now destruct (i =? 0).
Qed.

(** [handleItem] writes the markup that opens a list for [itemListOpen],
    the markup that closes one for [itemListClose], and no list markup for
    any other item that is fine. *)
Lemma handleItem_writes it b b' :
  okItem it = true -> err b = None -> handleItem it b = Done b' ->
  writes b b' (countType itemListOpen [it]) (countType itemListClose [it]).
Proof.
  intros Hok H. unfold handleItem, countType, okItem in *. cbn [filter].
  destruct (typ it);
    cbn [itemType_eqb List.length isPlain negb orb andb] in *;
    try (destruct (negb (val it =? "")%string);
         intros E; injection E as <-; [|writes_tac];
         apply writes_append_quiet; [writes_tac|];
         now apply quiet_nlfree, nlfree_Sprintf0);
    try (intros E; injection E as <-; writes_tac; fail).
  - (* itemLink *)
    destruct (index _ 0); simpl; try discriminate.
    destruct (index _ 1); simpl; try discriminate.
    intros E; injection E as <-. writes_tac.
  - (* itemCommand *)
    destruct (index _ 0); simpl; try discriminate.
    destruct (index _ 1); simpl; try discriminate.
    now apply handleCommand_writes.
  - (* itemTableRow *)
    destruct (index _ 0); simpl; try discriminate.
    intros E; injection E as <-.
    apply writes_append_quiet; [|reflexivity].
    match goal with |- writes b (fold_left _ _ ?x) _ _ =>
      assert (G : writes b x 0 0)
    end.
    { writes_tac. destruct (tableRowIndex b =? -1); writes_tac. }
    rewrite fold_rowCell by exact (writes_err _ _ _ _ G).
    apply writes_quiet_chunks; [exact G|]. apply quiet_rowCells.
Qed.

Lemma handleItems_writes its : forall b b',
  forallb okItem its = true -> err b = None ->
  handleItems its b = Done b' ->
  writes b b' (countType itemListOpen its) (countType itemListClose its).
Proof.
  induction its as [|it its IH]; intros b b' Hok H; simpl.
  - intros E. injection E as <-. now apply writes_refl.
  - apply andb_true_iff in Hok. destruct Hok as [Hit Hok].
    destruct (handleItem it b) as [b1| |] eqn:E1; simpl; try discriminate.
    intros E. pose proof (handleItem_writes _ _ _ Hit H E1) as W1.
    pose proof (IH b1 b' Hok (writes_err _ _ _ _ W1) E) as W2.
    pose proof (writes_trans _ _ _ _ _ _ _ W1 W2) as W.
    change (it :: its) with ([it] ++ its)%list.
    now rewrite !countType_app.
Qed.

Lemma writes_eq b b' o c o' c' :
  writes b b' o c -> o = o' -> c = c' -> writes b b' o' c'.
Proof. now intros W -> ->. Qed.

Lemma handleSection_writes s b b' :
  forallb okItem (sItems s) = true -> err b = None ->
  handleSection s b = Done b' ->
  writes b b' (countType itemListOpen (sItems s))
         (countType itemListClose (sItems s)).
Proof.
  intros Hok H E. unfold handleSection in E.
  match type of E with handleItems _ ?x = _ =>
    assert (G : writes b x 0 0) by writes_tac
  end.
  exact (writes_trans _ _ _ _ _ _ _ G
           (handleItems_writes _ _ _ Hok (writes_err _ _ _ _ G) E)).
Qed.

Lemma handleSections_writes ss : forall b b',
  forallb okItem (flat_map sItems ss) = true -> err b = None ->
  handleSections ss b = Done b' ->
  writes b b' (countType itemListOpen (flat_map sItems ss))
         (countType itemListClose (flat_map sItems ss)).
Proof.
  induction ss as [|s ss IH]; intros b b' Hok H; simpl.
  - intros E. injection E as <-. now apply writes_refl.
  - simpl in Hok. rewrite forallb_app in Hok.
    apply andb_true_iff in Hok. destruct Hok as [Hs Hok].
    destruct (handleSection s b) as [b1| |] eqn:E1; simpl; try discriminate.
    intros E. pose proof (handleSection_writes _ _ _ Hs H E1) as W1.
    pose proof (IH b1 b' Hok (writes_err _ _ _ _ W1) E) as W2.
    rewrite !countType_app.
    exact (writes_trans _ _ _ _ _ _ _ W1 W2).
Qed.

Lemma buildChapters_writes cs : forall i b b',
  forallb okItem (flat_map chapterItems cs) = true -> err b = None ->
  buildChapters i cs b = Done b' ->
  writes b b' (countType itemListOpen (flat_map chapterItems cs))
         (countType itemListClose (flat_map chapterItems cs)).
Proof.
  induction cs as [|c cs IH]; intros i b b' Hok H; simpl.
  - intros E. injection E as <-. now apply writes_refl.
  - simpl in Hok. unfold chapterItems at 1 in Hok.
    rewrite !forallb_app in Hok.
    apply andb_true_iff in Hok. destruct Hok as [Hc Hok].
    apply andb_true_iff in Hc. destruct Hc as [Hi Hs].
    match goal with |- context [handleItems _ ?x] =>
      assert (G0 : writes b x 0 0) by writes_tac;
      destruct (handleItems (cItems c) x) as [b1| |] eqn:E1
    end; simpl; try discriminate.
    pose proof (handleItems_writes _ _ _ Hi (writes_err _ _ _ _ G0) E1) as G1.
    pose proof (writes_trans _ _ _ _ _ _ _ G0 G1) as G01.
    destruct (handleSections (cSections c) b1) as [b2| |] eqn:E2; simpl;
      try discriminate.
    pose proof (handleSections_writes _ _ _ Hs (writes_err _ _ _ _ G1) E2)
      as G2.
    pose proof (writes_trans _ _ _ _ _ _ _ G01 G2) as G012.
    intros E.
    pose proof (IH _ _ _ Hok (writes_err _ _ _ _ G2) E) as G3.
    pose proof (writes_trans _ _ _ _ _ _ _ G012 G3) as G.
    unfold chapterItems at 1 3. rewrite !countType_app.
    eapply writes_eq; [exact G|lia|lia].
Qed.

Lemma buildAnnexes_writes xs : forall i b b',
  forallb okItem (flat_map sItems xs) = true -> err b = None ->
  buildAnnexes i xs b = Done b' ->
  writes b b' (countType itemListOpen (flat_map sItems xs))
         (countType itemListClose (flat_map sItems xs)).
Proof.
  induction xs as [|a xs IH]; intros i b b' Hok H; simpl.
  - intros E. injection E as <-. now apply writes_refl.
  - simpl in Hok. rewrite forallb_app in Hok.
    apply andb_true_iff in Hok. destruct Hok as [Ha Hok].
    match goal with |- context [handleItems _ ?x] =>
      assert (G0 : writes b x 0 0) by writes_tac;
      destruct (handleItems (sItems a) x) as [b1| |] eqn:E1
    end; simpl; try discriminate.
    pose proof (handleItems_writes _ _ _ Ha (writes_err _ _ _ _ G0) E1) as G1.
    pose proof (writes_trans _ _ _ _ _ _ _ G0 G1) as G01. simpl in G01.
    assert (G2 : writes b (append ("</div>" ++ nl) b1)
                        (countType itemListOpen (sItems a))
                        (countType itemListClose (sItems a)))
      by (apply writes_append_quiet; [exact G01|reflexivity]).
    intros E.
    pose proof (IH _ _ _ Hok (writes_err _ _ _ _ G2) E) as G3.
    rewrite !countType_app.
    exact (writes_trans _ _ _ _ _ _ _ G2 G3).
Qed.

Lemma writes_append_tocOpen b b1 o c :
  writes b b1 o c -> writes b (append ("<ol>" ++ nl) b1) (S o) c.
Proof.
  intros W. rewrite (append_eq _ b1 (writes_err _ _ _ _ W)).
  pose proof (writes_chunks b b1 o c ["<ol>" ++ nl] W) as R.
  change (listOpens ["<ol>" ++ nl]) with 1%nat in R.
  change (listCloses ["<ol>" ++ nl]) with 0%nat in R.
  now rewrite Nat.add_1_r, Nat.add_0_r in R.
Qed.

Lemma writes_append_tocClose b b1 o c :
  writes b b1 o c -> writes b (append ("</ol>" ++ nl) b1) o (S c).
Proof.
  intros W. rewrite (append_eq _ b1 (writes_err _ _ _ _ W)).
  pose proof (writes_chunks b b1 o c ["</ol>" ++ nl] W) as R.
  change (listOpens ["</ol>" ++ nl]) with 0%nat in R.
  change (listCloses ["</ol>" ++ nl]) with 1%nat in R.
  now rewrite Nat.add_1_r, Nat.add_0_r in R.
Qed.

Lemma tocSections_writes ss : forall b b0 o c,
  writes b0 b o c -> writes b0 (tocSections ss b) o c.
Proof.
  unfold tocSections.
  induction ss as [|s ss IH]; intros b b0 o c W; simpl; [exact W|].
  apply IH. apply writes_append_quiet; [exact W|reflexivity].
Qed.

Lemma tocChapters_writes cs : forall i b b0 o c,
  writes b0 b o c ->
  writes b0 (tocChapters i cs b) (o + List.length cs) (c + List.length cs).
Proof.
  induction cs as [|ch cs IH]; intros i b b0 o c W; simpl.
  - now rewrite !Nat.add_0_r.
  - eapply writes_eq; [apply IH|..].
    + apply writes_append_tocClose, tocSections_writes, writes_append_open.
      apply writes_append_quiet; [exact W|reflexivity].
    + lia.
    + lia.
Qed.

Lemma tocAnnexes_writes xs : forall i b b0 o c,
  writes b0 b o c -> writes b0 (tocAnnexes i xs b) o c.
Proof.
  induction xs as [|a xs IH]; intros i b b0 o c W; simpl; [exact W|].
  apply IH. apply writes_append_quiet; [exact W|reflexivity].
Qed.

(** The table of contents closes the lists it opens. *)
Lemma buildTableOfContents_writes d b :
  err b = None ->
  writes b (buildTableOfContents d b) (3 + List.length (Chapters d))
         (3 + List.length (Chapters d)).
Proof.
  intros H. unfold buildTableOfContents.
  apply writes_append_quiet; [|reflexivity].
  apply writes_append_tocClose, tocAnnexes_writes, writes_append_tocOpen.
  apply writes_append_tocClose.
  eapply writes_eq; [apply tocChapters_writes|..].
  - apply writes_append_tocOpen, writes_append_tocClose, tocSections_writes.
    apply writes_append_tocOpen.
    apply writes_append_quiet; [now apply writes_refl|reflexivity].
  - lia.
  - lia.
Qed.

(** What [Builder.Build] writes: the list markup of the table of contents,
    which is balanced, and the list markup of the items it handles. *)
Lemma Builder_run_writes d config b' :
  forallb okItem (renderedItems d) = true ->
  Builder_run d (newBuilder config) = Done b' ->
  exists k,
    listOpens (content b')
    = (k + countType itemListOpen (renderedItems d))%nat /\
    listCloses (content b')
    = (k + countType itemListClose (renderedItems d))%nat.
Proof.
  unfold renderedItems, Builder_run. simpl. rewrite !forallb_app.
  intros Hok. apply andb_true_iff in Hok. destruct Hok as [Hs Hok].
  apply andb_true_iff in Hok. destruct Hok as [Hc Ha].
  set (b0 := mkBuilder None [] false false 0 "" config).
  set (b1 := if TableOfContents config then _ else b0).
  assert (G1 : exists k, writes b0 b1 k k).
  { subst b1. destruct (TableOfContents config).
    - eexists. now apply buildTableOfContents_writes.
    - exists 0%nat. now apply writes_refl. }
  destruct G1 as [k G1].
  destruct (handleSections (Sections d) b1) as [b2| |] eqn:E2; simpl;
    try discriminate.
  pose proof (handleSections_writes _ _ _ Hs (writes_err _ _ _ _ G1) E2) as G2.
  destruct (buildChapters 0 (Chapters d) b2) as [b3| |] eqn:E3; simpl;
    try discriminate.
  pose proof (buildChapters_writes _ _ _ _ Hc (writes_err _ _ _ _ G2) E3)
    as G3.
  intros E4.
  pose proof (buildAnnexes_writes _ _ _ _ Ha (writes_err _ _ _ _ G3) E4)
    as G4.
  destruct (writes_trans _ _ _ _ _ _ _
              (writes_trans _ _ _ _ _ _ _
                 (writes_trans _ _ _ _ _ _ _ G1 G2) G3) G4)
    as [_ [chunks [Ec [Eo Ecl]]]].
  simpl in Ec. exists k. rewrite Ec, Eo, Ecl, !countType_app. lia.
Qed.

(** ** Lists *)

(** C6, as stated, fails.  On the input ["#C\n- a"], which ends inside a
    list item, the list is opened and never closed: [lexListItem] returns
    to [lexText] at the end of the input without sending
    [itemEndListElement] and [itemListClose]. *)
Lemma C6_counterexample :
  rendered 30 ("#C" ++ nl ++ "- a") (mkConfig false)
  = Done ["<h2><a id='c'></a> - C</h2>" ++ nl; listOpenMarkup;
          nl ++ "<li>" ++ nl; "<p class='indent'>" ++ nl; "a"]
  /\ listOpens
       ["<h2><a id='c'></a> - C</h2>" ++ nl; listOpenMarkup;
        nl ++ "<li>" ++ nl; "<p class='indent'>" ++ nl; "a"] = 1%nat
  /\ listCloses
       ["<h2><a id='c'></a> - C</h2>" ++ nl; listOpenMarkup;
        nl ++ "<li>" ++ nl; "<p class='indent'>" ++ nl; "a"] = 0%nat.
Proof. repeat split. Qed.

(** C6, amended.  For every input and configuration on which the build
    returns, among the strings written the ones that close an ordered
    list are as many as the ones that open one, or one less: only a list
    that is open when the input ends is not closed. *)
Theorem C6_lists_closed_but_the_last fuel inp config chunks :
  rendered fuel inp config = Done chunks ->
  (listCloses chunks <= listOpens chunks <= listCloses chunks + 1)%nat.
Proof.
  unfold rendered.
  destruct (tokens fuel _) as [[its last]| |] eqn:T; simpl; try discriminate.
  destruct (Builder_run (assemble its) (newBuilder config)) as [b'| |] eqn:R;
    simpl; try discriminate.
  intros E. injection E as <-.
  destruct (tokens_fine _ _ _ _ T) as [Hok [m' Hr]].
  destruct (assemble_balance its m' Hok Hr) as [Hok' Hbal].
  destruct (Builder_run_writes _ _ _ Hok' R) as [k [Ho Hc]].
  lia.
Qed.

Lemma C6_witness :
  (listCloses
     ["<h2><a id='c'></a> - C</h2>" ++ nl; listOpenMarkup;
      nl ++ "<li>" ++ nl; "<p class='indent'>" ++ nl; "a";
      nl ++ "</p>" ++ nl; nl ++ "</li>" ++ nl; listCloseMarkup]
   <= listOpens
        ["<h2><a id='c'></a> - C</h2>" ++ nl; listOpenMarkup;
         nl ++ "<li>" ++ nl; "<p class='indent'>" ++ nl; "a";
         nl ++ "</p>" ++ nl; nl ++ "</li>" ++ nl; listCloseMarkup]
   <= listCloses
        ["<h2><a id='c'></a> - C</h2>" ++ nl; listOpenMarkup;
         nl ++ "<li>" ++ nl; "<p class='indent'>" ++ nl; "a";
         nl ++ "</p>" ++ nl; nl ++ "</li>" ++ nl; listCloseMarkup] + 1)%nat.
Proof.
  apply (C6_lists_closed_but_the_last 30 ("#C" ++ nl ++ "- a" ++ nl)
           (mkConfig false)).
  vm_compute. reflexivity.
Defined.

(** ** The channel never blocks

    [nextItem] runs a state function only when the queue is empty, and a
    state function sends at most three items before it returns: the three
    slots of the channel suffice, no send blocks. *)

Ltac split_ifs :=
  repeat match goal with
         | |- context [if ?c then _ else _] => destruct c
         end.

Ltac count_sent :=
  cbv beta iota zeta;
  repeat first [ progress cbn [items emit emitTrim emitCustom ignore send
                               set_start set_pos]
               | rewrite next_items
               | rewrite backup_next_items ];
  rewrite ?length_app; cbn [List.length]; first [reflexivity|lia].

Lemma body_sends_at_most_three st l :
  match body st l with
  | Continue l' => items l' = items l
  | Return l' _ => (List.length (items l') <= List.length (items l) + 3)%nat
  end.
Proof.
  destruct st; simpl.
  - unfold lexText_body, flush, flush_before. rewrite next_snd.
    split_ifs; count_sent.
  - unfold lexHeading_body. rewrite next_snd. split_ifs; count_sent.
  - unfold lexHeading_body. rewrite next_snd. split_ifs; count_sent.
  - unfold lexHeading_body. rewrite next_snd. split_ifs; count_sent.
  - unfold lexListItem_body, flush, flush_before. rewrite next_snd.
    split_ifs; count_sent.
  - unfold lexBold_body. rewrite next_snd. split_ifs; count_sent.
  - unfold lexEm_body. split_ifs; count_sent.
  - unfold lexTableTitle_body. rewrite next_snd. split_ifs; count_sent.
  - unfold lexTable_body. rewrite next_snd. split_ifs; count_sent.
  - unfold lexCmdName_body. rewrite next_snd. split_ifs; count_sent.
  - unfold lexCmdArgs_body. rewrite next_snd. split_ifs; count_sent.
  - unfold lexLinkHead_body. rewrite next_snd. split_ifs; count_sent.
  - unfold lexLinkTail_body. rewrite next_snd. split_ifs; count_sent.
Qed.

(** ** The errors of the build *)

(** When [Build] returns an error, it is the error the writer returned for
    the rendered string: the lexer sends no error item and the error of
    the builder is nil. *)
Lemma Build_error_is_the_writers fuel inp w config writes e :
  Build fuel inp w config = Done (writes, Some e) ->
  exists out msg, e = WriteError msg /\ writes = [out] /\ w out = Some msg.
Proof.
  unfold Build.
  destruct (tokens fuel _) as [[its last]| |] eqn:T; simpl; try discriminate.
  rewrite (lexer_sends_no_error _ _ _ _ T).
  unfold Builder_Build.
  destruct (Builder_run (assemble its) (newBuilder config)) as [b'| |] eqn:R;
    simpl; try discriminate.
  rewrite (Builder_run_err _ _ _ R).
  destruct (w (contentString b')) as [msg|] eqn:W; try discriminate.
  intros H. injection H as <- <-. now exists (contentString b'), msg.
Qed.

(** C3.  An unclosed command argument list yields no error item: on the
    input [\img(a] the build never returns, whatever the bound on the number
    of rounds, the writer and the configuration.  [lexCmdArgs] reads the end
    of the input again and again.  No state function calls [errorf]: on no
    input does the build return the error made of an error item. *)
Theorem C3_unclosed_command_never_returns :
  (forall fuel w config, Build fuel "\img(a" w config = OutOfFuel) /\
  (forall fuel inp w config,
      match Build fuel inp w config with
      | Done (_, Some (LexerError _)) => False
      | _ => True
      end).
Proof.
  split.
  - intros fuel w config. unfold Build.
    assert (H : forall f, tokens f (lex (Go.ReplaceAll "\img(a" "%" "%%"))
                          = OutOfFuel).
    { eapply (tokens_stuck_after 2).
      - cbv. reflexivity.
      - cbv. discriminate.
      - cbv. discriminate.
      - apply tokens_stuck.
        eapply (nextItem_stuck_after 5); [reflexivity|reflexivity| |].
        + cbv. reflexivity.
        + eapply nextItem_stuck; [reflexivity|reflexivity|].
          unfold call.
          do 2 (eapply loop_stuck_after; [cbv; reflexivity|]).
          apply loop_stuck. cbv. reflexivity. }
    rewrite H. reflexivity.
  - intros fuel inp w config.
    destruct (Build fuel inp w config) as [[writes [e|]]| |] eqn:E; trivial.
    destruct (Build_error_is_the_writers _ _ _ _ _ _ E) as [out [msg [A _]]].
    now subst e.
Qed.

(** [Builder.Build] never returns a non-nil error: whenever it returns,
    its error is nil, since [WriteString] never fails. *)
Lemma Builder_Build_error_is_nil d config out e :
  Builder_Build d (newBuilder config) = Done (out, e) -> e = None.
Proof.
  unfold Builder_Build.
  destruct (Builder_run d (newBuilder config)) as [b'| |] eqn:E; simpl;
    try discriminate.
  intros H. injection H as _ <-. exact (Builder_run_err _ _ _ E).
Qed.

(** C9.  The rendering can fail: the lexer turns the input
    ["#C\n\color(red)"] into [colorItems], assembled into [colorDocument],
    on which [Builder.Build] does not return a nil error, nor anything:
    [handleCommand] reads [args[1]] of a slice of one element and panics,
    and so does [Build], whatever the writer. *)
Theorem C9_color_command_panics :
  tokens 20 (lex (Go.ReplaceAll ("#C" ++ nl ++ "\color(red)") "%" "%%"))
  = Done (colorItems, mkItem itemEOF "" 2)
  /\ assemble colorItems = colorDocument
  /\ Builder_Build colorDocument (newBuilder (mkConfig false)) = Panic
  /\ Build 20 ("#C" ++ nl ++ "\color(red)") okWriter (mkConfig false) = Panic.
Proof. repeat split. Qed.

(** ** Paragraphs along a build *)

Lemma closedBefore_app f o a b :
  closedBefore f false o (a ++ b)
  = closedBefore f false o a && closedBefore f false (openAfter o a) b.
Proof.
  revert o. induction a as [|c a IH]; intros o; simpl; [reflexivity|].
  destruct (isParagraphOpen c); [apply IH|].
  destruct (isParagraphClose c); [apply IH|].
  destruct (f c); [|apply IH].
  rewrite IH. now rewrite andb_assoc.
Qed.

Lemma openAfter_app o a b :
  openAfter o (a ++ b) = openAfter (openAfter o a) b.
Proof.
  revert o. induction a as [|c a IH]; intros o; simpl; [reflexivity|].
  destruct (isParagraphOpen c); [apply IH|].
  destruct (isParagraphClose c); apply IH.
Qed.

Lemma append_flag s b : paragraphIsOpen (append s b) = paragraphIsOpen b.
Proof. unfold append. now destruct (err b). Qed.

(** What the invariant asks of one more string [s] written. *)
Lemma paragraphInv_append b s o :
  paragraphInv b ->
  closedBefore isTableOrList false (paragraphIsOpen b) [s] = true ->
  openAfter (paragraphIsOpen b) [s] = o ->
  paragraphInv
    (mkBuilder None (content b ++ [s]) o (newSection b) (tableRowIndex b)
               (tableTitle b) (Config b)).
Proof.
  intros [He [Hc Ho]] C O. split; [reflexivity|]. simpl. split.
  - unfold paragraphsClosedBeforeTablesAndLists in *.
    now rewrite closedBefore_app, Hc, Ho.
  - now rewrite openAfter_app, Ho.
Qed.

Lemma neutral_cases s :
  neutral s = true ->
  isParagraphOpen s = false /\ isParagraphClose s = false
  /\ isTableOrList s = false.
Proof.
  unfold neutral. intros H.
  apply andb_true_iff in H. destruct H as [H C].
  apply andb_true_iff in H. destruct H as [A B].
  now rewrite negb_true_iff in A, B, C.
Qed.

Lemma paragraphInv_append_neutral b s :
  paragraphInv b -> neutral s = true -> paragraphInv (append s b).
Proof.
  intros H N. destruct (neutral_cases s N) as [A [B C]].
  rewrite (append_eq s b (proj1 H)). unfold with_content.
  apply paragraphInv_append; [exact H| |]; simpl; now rewrite A, B, ?C.
Qed.

Lemma paragraphInv_append_block b s :
  paragraphInv b -> paragraphIsOpen b = false ->
  isParagraphOpen s = false -> isParagraphClose s = false ->
  paragraphInv (append s b).
Proof.
  intros H F A B. rewrite (append_eq s b (proj1 H)). unfold with_content.
  rewrite F at 1. apply paragraphInv_append; [exact H| |]; simpl;
    rewrite A, B, F; [now destruct (isTableOrList s)|reflexivity].
Qed.

Lemma closeParagraph_closed b : paragraphIsOpen (closeParagraph b) = false.
Proof.
  unfold closeParagraph. destruct (paragraphIsOpen b) eqn:E; [|exact E].
  now rewrite append_flag.
Qed.

Lemma paragraphInv_close b : paragraphInv b -> paragraphInv (closeParagraph b).
Proof.
  intros H. unfold closeParagraph. destruct (paragraphIsOpen b) eqn:E;
    [|exact H].
  destruct H as [He [Hc Ho]].
  rewrite (append_eq _ (set_paragraphIsOpen b false) He).
  apply (paragraphInv_append b paragraphCloseMarkup false);
    [now repeat split|now rewrite E|now rewrite E].
Qed.

Lemma paragraphInv_open b : paragraphInv b -> paragraphInv (openParagraph b).
Proof.
  intros H. unfold openParagraph.
  destruct (paragraphIsOpen b) eqn:E; simpl; [now destruct (newSection b)|].
  destruct H as [He [Hc Ho]].
  destruct (newSection b) eqn:N.
  - rewrite (append_eq _ (set_newSection (set_paragraphIsOpen b true) false)
               He).
    pose proof (paragraphInv_append b ("<p class='indent'>" ++ nl) true
                  (conj He (conj Hc Ho))) as R.
    rewrite E in R. specialize (R eq_refl eq_refl).
    destruct R as [R1 [R2 R3]]. repeat split; assumption.
  - rewrite (append_eq _ (set_paragraphIsOpen b true) He).
    pose proof (paragraphInv_append b ("<p>" ++ nl) true
                  (conj He (conj Hc Ho))) as R.
    rewrite E in R. specialize (R eq_refl eq_refl).
    destruct R as [R1 [R2 R3]]. repeat split; assumption.
Qed.

Lemma paragraphInv_set_newSection b v :
  paragraphInv b -> paragraphInv (set_newSection b v).
Proof. exact (fun H => H). Qed.

Lemma paragraphInv_set_tableRowIndex b v :
  paragraphInv b -> paragraphInv (set_tableRowIndex b v).
Proof. exact (fun H => H). Qed.

Lemma paragraphInv_set_tableTitle b v :
  paragraphInv b -> paragraphInv (set_tableTitle b v).
Proof. exact (fun H => H). Qed.

Lemma paragraphInv_chunks chunks : forall b,
  paragraphInv b -> forallb neutral chunks = true ->
  paragraphInv (with_content b (content b ++ chunks)).
Proof.
  induction chunks as [|s chunks IH]; intros b H N; simpl in N.
  - rewrite app_nil_r. destruct H as [He [Hc Ho]].
    repeat split; assumption.
  - apply andb_true_iff in N. destruct N as [Ns N].
    pose proof (IH (append s b) (paragraphInv_append_neutral b s H Ns) N) as R.
    rewrite (append_eq s b (proj1 H)) in R. simpl in R.
    rewrite <- app_assoc in R. exact R.
Qed.

Ltac pinv_tac :=
  repeat first
    [ assumption
    | apply paragraphInv_close
    | apply paragraphInv_open
    | apply paragraphInv_set_newSection
    | apply paragraphInv_set_tableRowIndex
    | apply paragraphInv_set_tableTitle
    | apply paragraphInv_append_neutral; [|reflexivity]
    | apply paragraphInv_append_block;
      [|exact (closeParagraph_closed _)|reflexivity|reflexivity] ].

Lemma neutral_nlfree s : nlfree s = true -> neutral s = true.
Proof.
  intros H.
  unfold neutral, isParagraphOpen, isParagraphClose, isTableOrList.
  now rewrite !(nlfree_neq s _ H).
Qed.

Lemma neutral_rowCells i cells :
  forallb neutral (map (rowCell i) cells) = true.
Proof.
  induction cells as [|c cells IH]; simpl; [reflexivity|].
  rewrite IH, andb_true_r. unfold rowCell. now destruct (i =? 0).
Qed.

Lemma handleCommand_paragraphInv name args b b' :
  paragraphInv b -> handleCommand name args b = Done b' -> paragraphInv b'.
Proof.
  intros H. unfold handleCommand.
  destruct (String.eqb name "color").
  - destruct (index args 1); simpl; try discriminate.
    destruct (index args 0); simpl; try discriminate.
    intros E. injection E as <-. pinv_tac.
  - destruct (String.eqb name "img").
    + match goal with |- bind ?c _ = _ -> _ => destruct c end;
        simpl; try discriminate.
      match goal with |- bind ?c _ = _ -> _ => destruct c as [[wd ht]| |] end;
        simpl; try discriminate.
      destruct (index args 0); simpl; try discriminate.
      destruct (index args 1); simpl; try discriminate.
      destruct (negb (wd =? "")%string);
        [|destruct (negb (ht =? "")%string)];
        intros E; injection E as <-; pinv_tac.
    + intros E. injection E as <-. pinv_tac.
Qed.

(** [handleItem] keeps the invariant, for an item that is fine. *)
Lemma handleItem_paragraphInv it b b' :
  okItem it = true -> paragraphInv b -> handleItem it b = Done b' ->
  paragraphInv b'.
Proof.
  intros Hok H. unfold handleItem, okItem in *.
  destruct (typ it);
    cbn [itemType_eqb isPlain negb orb andb] in *;
    try (destruct (negb (val it =? "")%string);
         intros E; injection E as <-; [|pinv_tac];
         apply paragraphInv_append_neutral; [pinv_tac|];
         now apply neutral_nlfree, nlfree_Sprintf0);
    try (intros E; injection E as <-; pinv_tac; fail).
  - (* itemLink *)
    destruct (index _ 0); simpl; try discriminate.
    destruct (index _ 1); simpl; try discriminate.
    intros E; injection E as <-. pinv_tac.
  - (* itemCommand *)
    destruct (index _ 0); simpl; try discriminate.
    destruct (index _ 1); simpl; try discriminate.
    now apply handleCommand_paragraphInv.
  - (* itemTableRow *)
    destruct (index _ 0); simpl; try discriminate.
    intros E; injection E as <-.
    apply paragraphInv_append_neutral; [|reflexivity].
    match goal with |- paragraphInv (fold_left _ _ ?x) =>
      assert (G : paragraphInv x)
    end.
    { pinv_tac. destruct (tableRowIndex b =? -1); pinv_tac. }
    rewrite fold_rowCell by exact (proj1 G).
    apply paragraphInv_chunks; [exact G|]. apply neutral_rowCells.
Qed.

Lemma handleItems_paragraphInv its : forall b b',
  forallb okItem its = true -> paragraphInv b ->
  handleItems its b = Done b' -> paragraphInv b'.
Proof.
  induction its as [|it its IH]; intros b b' Hok H; simpl.
  - intros E. now injection E as <-.
  - apply andb_true_iff in Hok. destruct Hok as [Hit Hok].
    destruct (handleItem it b) as [b1| |] eqn:E1; simpl; try discriminate.
    apply (IH b1 b' Hok). exact (handleItem_paragraphInv _ _ _ Hit H E1).
Qed.

Lemma handleSections_paragraphInv ss : forall b b',
  forallb okItem (flat_map sItems ss) = true -> paragraphInv b ->
  handleSections ss b = Done b' -> paragraphInv b'.
Proof.
  induction ss as [|s ss IH]; intros b b' Hok H; simpl.
  - intros E. now injection E as <-.
  - simpl in Hok. rewrite forallb_app in Hok.
    apply andb_true_iff in Hok. destruct Hok as [Hs Hok].
    destruct (handleSection s b) as [b1| |] eqn:E1; simpl; try discriminate.
    apply (IH b1 b' Hok). unfold handleSection in E1.
    apply (handleItems_paragraphInv _ _ _ Hs) in E1; [exact E1|].
    pinv_tac.
Qed.

Lemma buildChapters_paragraphInv cs : forall i b b',
  forallb okItem (flat_map chapterItems cs) = true -> paragraphInv b ->
  buildChapters i cs b = Done b' -> paragraphInv b'.
Proof.
  induction cs as [|c cs IH]; intros i b b' Hok H; simpl.
  - intros E. now injection E as <-.
  - simpl in Hok. unfold chapterItems at 1 in Hok.
    rewrite !forallb_app in Hok.
    apply andb_true_iff in Hok. destruct Hok as [Hc Hok].
    apply andb_true_iff in Hc. destruct Hc as [Hi Hs].
    match goal with |- context [handleItems _ ?x] =>
      assert (G0 : paragraphInv x) by pinv_tac;
      destruct (handleItems (cItems c) x) as [b1| |] eqn:E1
    end; simpl; try discriminate.
    pose proof (handleItems_paragraphInv _ _ _ Hi G0 E1) as G1.
    destruct (handleSections (cSections c) b1) as [b2| |] eqn:E2; simpl;
      try discriminate.
    pose proof (handleSections_paragraphInv _ _ _ Hs G1 E2) as G2.
    apply (IH _ _ _ Hok G2).
Qed.

Lemma buildAnnexes_paragraphInv xs : forall i b b',
  forallb okItem (flat_map sItems xs) = true -> paragraphInv b ->
  buildAnnexes i xs b = Done b' -> paragraphInv b'.
Proof.
  induction xs as [|a xs IH]; intros i b b' Hok H; simpl.
  - intros E. now injection E as <-.
  - simpl in Hok. rewrite forallb_app in Hok.
    apply andb_true_iff in Hok. destruct Hok as [Ha Hok].
    match goal with |- context [handleItems _ ?x] =>
      assert (G0 : paragraphInv x) by pinv_tac;
      destruct (handleItems (sItems a) x) as [b1| |] eqn:E1
    end; simpl; try discriminate.
    pose proof (handleItems_paragraphInv _ _ _ Ha G0 E1) as G1.
    apply (IH _ _ _ Hok). pinv_tac.
Qed.

(** The table of contents is written while no paragraph is open. *)
Lemma closed_append b s :
  paragraphInv b /\ paragraphIsOpen b = false ->
  isParagraphOpen s = false -> isParagraphClose s = false ->
  paragraphInv (append s b) /\ paragraphIsOpen (append s b) = false.
Proof.
  intros [H F] A B. split.
  - now apply paragraphInv_append_block.
  - now rewrite append_flag.
Qed.

Lemma tocSections_closed ss : forall b,
  paragraphInv b /\ paragraphIsOpen b = false ->
  paragraphInv (tocSections ss b)
  /\ paragraphIsOpen (tocSections ss b) = false.
Proof.
  unfold tocSections.
  induction ss as [|s ss IH]; intros b H; simpl; [exact H|].
  apply IH. now apply closed_append.
Qed.

Lemma tocChapters_closed cs : forall i b,
  paragraphInv b /\ paragraphIsOpen b = false ->
  paragraphInv (tocChapters i cs b)
  /\ paragraphIsOpen (tocChapters i cs b) = false.
Proof.
  induction cs as [|c cs IH]; intros i b H; simpl; [exact H|].
  apply IH. apply closed_append; [|reflexivity|reflexivity].
  apply tocSections_closed.
  apply closed_append; [|reflexivity|reflexivity].
  now apply closed_append.
Qed.

Lemma tocAnnexes_closed xs : forall i b,
  paragraphInv b /\ paragraphIsOpen b = false ->
  paragraphInv (tocAnnexes i xs b)
  /\ paragraphIsOpen (tocAnnexes i xs b) = false.
Proof.
  induction xs as [|a xs IH]; intros i b H; simpl; [exact H|].
  apply IH. now apply closed_append.
Qed.

Lemma buildTableOfContents_closed d b :
  paragraphInv b /\ paragraphIsOpen b = false ->
  paragraphInv (buildTableOfContents d b).
Proof.
  intros H. unfold buildTableOfContents.
  apply closed_append; [|reflexivity|reflexivity].
  apply closed_append; [|reflexivity|reflexivity].
  apply tocAnnexes_closed.
  apply closed_append; [|reflexivity|reflexivity].
  apply closed_append; [|reflexivity|reflexivity].
  apply tocChapters_closed.
  apply closed_append; [|reflexivity|reflexivity].
  apply closed_append; [|reflexivity|reflexivity].
  apply tocSections_closed.
  apply closed_append; [|reflexivity|reflexivity].
  now apply closed_append.
Qed.

(** What [Builder.Build] writes for a document of fine items closes every
    paragraph before a table or a list. *)
Lemma Builder_run_paragraphInv d config b' :
  forallb okItem (renderedItems d) = true ->
  Builder_run d (newBuilder config) = Done b' -> paragraphInv b'.
Proof.
  unfold renderedItems, Builder_run. simpl. rewrite !forallb_app.
  intros Hok. apply andb_true_iff in Hok. destruct Hok as [Hs Hok].
  apply andb_true_iff in Hok. destruct Hok as [Hc Ha].
  set (b0 := mkBuilder None [] false false 0 "" config).
  set (b1 := if TableOfContents config then _ else b0).
  assert (G0 : paragraphInv b0 /\ paragraphIsOpen b0 = false)
    by (repeat split).
  assert (G1 : paragraphInv b1).
  { subst b1. destruct (TableOfContents config).
    - now apply buildTableOfContents_closed.
    - apply G0. }
  destruct (handleSections (Sections d) b1) as [b2| |] eqn:E2; simpl;
    try discriminate.
  pose proof (handleSections_paragraphInv _ _ _ Hs G1 E2) as G2.
  destruct (buildChapters 0 (Chapters d) b2) as [b3| |] eqn:E3; simpl;
    try discriminate.
  pose proof (buildChapters_paragraphInv _ _ _ _ Hc G2 E3) as G3.
  intros E4. exact (buildAnnexes_paragraphInv _ _ _ _ Ha G3 E4).
Qed.

(** C5, as stated, fails.  On the input ["#A\nx##B\ny"] the heading of the
    section [B] is written while the paragraph of [x] is open, and the
    paragraph of [y] is still open when the output ends: neither
    [handleSection] nor the end of [Builder.Build] closes a paragraph. *)
Lemma C5_counterexample :
  rendered 30 ("#A" ++ nl ++ "x##B" ++ nl ++ "y") (mkConfig false)
  = Done ["<h2><a id='a'></a> - A</h2>" ++ nl; "<p class='indent'>" ++ nl;
          "x"; "<h3><a name='b'></a>B</h3>" ++ nl; nl ++ "</p>" ++ nl;
          "<p class='indent'>" ++ nl; "y"]
  /\ paragraphsClosed false
       ["<h2><a id='a'></a> - A</h2>" ++ nl; "<p class='indent'>" ++ nl;
        "x"; "<h3><a name='b'></a>B</h3>" ++ nl] = false
  /\ paragraphsClosed false ["<p class='indent'>" ++ nl; "y"] = false
  /\ paragraphsClosed false
       ["<h2><a id='a'></a> - A</h2>" ++ nl; "<p class='indent'>" ++ nl;
        "x"; "<h3><a name='b'></a>B</h3>" ++ nl; nl ++ "</p>" ++ nl;
        "<p class='indent'>" ++ nl; "y"] = false.
Proof. repeat split. Qed.

(** C5, amended.  For every input and configuration on which the build
    returns, in the strings written every opened paragraph is closed
    before any table or list markup that follows it: [handleItem] closes
    the open paragraph before it opens a table or a list, and the lists of
    the table of contents are written before any paragraph. *)
Theorem C5_paragraph_closed_before_table_and_list fuel inp config chunks :
  rendered fuel inp config = Done chunks ->
  paragraphsClosedBeforeTablesAndLists false chunks = true.
Proof.
  unfold rendered.
  destruct (tokens fuel _) as [[its last]| |] eqn:T; simpl; try discriminate.
  destruct (Builder_run (assemble its) (newBuilder config)) as [b'| |] eqn:R;
    simpl; try discriminate.
  intros E. injection E as <-.
  destruct (tokens_fine _ _ _ _ T) as [Hok [m' Hr]].
  destruct (assemble_balance its m' Hok Hr) as [Hok' _].
  exact (proj1 (proj2 (Builder_run_paragraphInv _ _ _ Hok' R))).
Qed.

Lemma C5_witness :
  paragraphsClosedBeforeTablesAndLists false
    ["<h2><a id='a'></a> - A</h2>" ++ nl; "<p class='indent'>" ++ nl; "x";
     nl ++ "</p>" ++ nl; tableMarkup;
     "<thead>" ++ nl; "<tr>" ++ nl; "<th colspan='2'>T</th>" ++ nl;
     "</tr>" ++ nl; "</thead>" ++ nl; "<tbody>" ++ nl; "<tr>" ++ nl;
     "<td class='head'>a</td>" ++ nl; "<td class='head'>b</td>" ++ nl;
     "</tr>" ++ nl; "</tbody>" ++ nl; "</table>" ++ nl] = true.
Proof.
  apply (C5_paragraph_closed_before_table_and_list 60
           ("#A" ++ nl ++ "x-table-T" ++ nl ++ "a|b" ++ nl ++ "-table-")
           (mkConfig false)).
  vm_compute. reflexivity.
Defined.

(** ** What comes before the first heading *)

(** As long as no heading has come, the items go to [Document.Items] and
    the document holds no section, chapter or annex. *)
Lemma assemble_without_heading its : forall a,
  forallb (fun it => negb (isHeading (typ it))) its = true ->
  items_ a = ItemsOfDocument ->
  renderedItems (document a) = [] /\
  Sections (document a) = [] /\ Chapters (document a) = []
  /\ Annexes (document a) = [] ->
  let d := document (fold_left assemble_item its a) in
  Sections d = [] /\ Chapters d = [] /\ Annexes d = [].
Proof.
  induction its as [|it its IH]; intros a Hh Hi [_ H]; simpl; [exact H|].
  simpl in Hh. apply andb_true_iff in Hh. destruct Hh as [Hit Hh].
  apply (IH (assemble_item a it) Hh);
    unfold assemble_item; destruct (typ it); try discriminate;
    cbn [items_ document]; rewrite ?Hi; cbn [add_item]; trivial;
    unfold renderedItems; cbn [Sections Chapters Annexes];
    destruct H as [A [B C]]; rewrite A, B, C; auto.
Qed.

(** Items that hold no heading are not rendered: without table of
    contents, [Builder.Build] returns the empty string for them. *)
Lemma items_without_heading_render_nothing its config :
  forallb (fun it => negb (isHeading (typ it))) its = true ->
  TableOfContents config = false ->
  Builder_Build (assemble its) (newBuilder config) = Done ("", None).
Proof.
  intros Hh Ht.
  pose proof (assemble_without_heading its assembler0 Hh eq_refl) as H.
  change (document (fold_left assemble_item its assembler0))
    with (assemble its) in H.
  destruct H as [A [B C]]; [repeat split|].
  unfold Builder_Build, Builder_run, newBuilder.
  cbn [Config err newSection tableRowIndex tableTitle].
  rewrite Ht, A, B, C. reflexivity.
Qed.

(** ** Roman numerals *)

Lemma append_empty_r (s : string) : s ++ "" = s.
Proof. induction s as [|c s IH]; simpl; [reflexivity|now rewrite IH]. Qed.

Lemma append_assoc (s t u : string) : (s ++ t) ++ u = s ++ (t ++ u).
Proof. induction s as [|c s IH]; simpl; [reflexivity|now rewrite IH]. Qed.

Lemma highestDecimal_positive n : 0 < Roman.highestDecimal n.
Proof.
  unfold Roman.highestDecimal, Roman.maxTable, Roman.highestDecimal_from.
  repeat match goal with
         | |- context [if ?c then _ else _] => destruct c
         end; lia.
Qed.

Lemma toRoman_loop_step n out :
  0 < n ->
  Roman.toRoman_loop n out
  = Roman.toRoman_loop (n - Roman.highestDecimal n)
                       (out ++ Roman.numInv (Roman.highestDecimal n)).
Proof.
  intros H. rewrite Roman.toRoman_loop_equation_1.
  destruct (Z_gt_dec n 0) as [G|G]; simpl; [reflexivity|lia].
Qed.

Lemma toRoman_loop_stop n out : n <= 0 -> Roman.toRoman_loop n out = out.
Proof.
  intros H. rewrite Roman.toRoman_loop_equation_1.
  destruct (Z_gt_dec n 0) as [G|G]; simpl; [lia|reflexivity].
Qed.

(** The loop of [toRoman] only appends to [out]. *)
Lemma toRoman_loop_acc n : forall out,
  Roman.toRoman_loop n out = out ++ Roman.toRoman_loop n "".
Proof.
  destruct (Z_le_gt_dec n 0) as [L|G].
  { intros out. rewrite !toRoman_loop_stop by lia.
    now rewrite append_empty_r. }
  assert (N : 0 <= n) by lia. clear G. revert n N.
  apply (Z_lt_induction
           (fun n => forall out,
                Roman.toRoman_loop n out = out ++ Roman.toRoman_loop n "")).
  intros n IH out.
  destruct (Z_le_gt_dec n 0) as [L|G].
  { rewrite !toRoman_loop_stop by lia. now rewrite append_empty_r. }
  rewrite (toRoman_loop_step n out), (toRoman_loop_step n "") by lia.
  pose proof (highestDecimal_positive n) as P.
  destruct (Z_le_gt_dec (n - Roman.highestDecimal n) 0) as [L|G'].
  - rewrite !toRoman_loop_stop by lia. reflexivity.
  - rewrite (IH (n - Roman.highestDecimal n)) by lia.
    rewrite (IH (n - Roman.highestDecimal n) ltac:(lia)
                ("" ++ Roman.numInv (Roman.highestDecimal n))).
    simpl. now rewrite append_assoc.
Qed.

Lemma toRoman_step n :
  0 < n ->
  Roman.toRoman n
  = Roman.numInv (Roman.highestDecimal n)
    ++ Roman.toRoman (n - Roman.highestDecimal n).
Proof.
  intros H. unfold Roman.toRoman. rewrite toRoman_loop_step by exact H.
  rewrite toRoman_loop_acc. reflexivity.
Qed.

(** The entry [highestDecimal] returns, by the range of its argument. *)
Lemma highestDecimal_cases n :
  1 <= n ->
  let v := Roman.highestDecimal n in
  (v = 1000 /\ 1000 <= n) \/ (v = 900 /\ 900 <= n < 1000) \/
  (v = 500 /\ 500 <= n < 900) \/ (v = 400 /\ 400 <= n < 500) \/
  (v = 100 /\ 100 <= n < 400) \/ (v = 90 /\ 90 <= n < 100) \/
  (v = 50 /\ 50 <= n < 90) \/ (v = 40 /\ 40 <= n < 50) \/
  (v = 10 /\ 10 <= n < 40) \/ (v = 9 /\ n = 9) \/
  (v = 5 /\ 5 <= n < 9) \/ (v = 4 /\ n = 4) \/ (v = 1 /\ 1 <= n < 4).
Proof.
  intros H. unfold Roman.highestDecimal, Roman.maxTable,
    Roman.highestDecimal_from.
  repeat match goal with
         | |- context [if ?a <=? ?b then _ else _] =>
           destruct (Z.leb_spec a b)
         end; cbv zeta; lia.
Qed.

Lemma romanValue_add c t :
  firstValue t <= num (String c "") ->
  romanValue (String c t) = num (String c "") + romanValue t.
Proof.
  intros H. cbn [romanValue]. cbv zeta.
  destruct (Z.ltb_spec (num (String c "")) (firstValue t)); [lia|reflexivity].
Qed.

Lemma romanValue_sub c t :
  num (String c "") < firstValue t ->
  romanValue (String c t) = romanValue t - num (String c "").
Proof.
  intros H. cbn [romanValue]. cbv zeta.
  destruct (Z.ltb_spec (num (String c "")) (firstValue t)); [reflexivity|lia].
Qed.

(** The first symbol of [toRoman n] is worth at most [n], and at most the
    symbol that can precede it in a numeral. *)
Lemma firstValue_toRoman n :
  0 <= n ->
  firstValue (Roman.toRoman n) <= 1000 /\
  firstValue (Roman.toRoman n) <= n /\
  (n < 400 -> firstValue (Roman.toRoman n) <= 100) /\
  (n < 40 -> firstValue (Roman.toRoman n) <= 10) /\
  (n < 4 -> firstValue (Roman.toRoman n) <= 1).
Proof.
  intros H. destruct (Z.eq_dec n 0) as [->|N].
  { rewrite toRoman_nonpositive by lia. cbn. lia. }
  rewrite toRoman_step by lia.
  pose proof (highestDecimal_cases n ltac:(lia)) as C. cbv zeta in C.
  repeat destruct C as [C|C]; destruct C as [-> R]; cbn; lia.
Qed.

Ltac num_values :=
  change (num "I") with 1 in *; change (num "V") with 5 in *;
  change (num "X") with 10 in *; change (num "L") with 50 in *;
  change (num "C") with 100 in *; change (num "D") with 500 in *;
  change (num "M") with 1000 in *.

Lemma romanValue_toRoman n : 0 <= n -> romanValue (Roman.toRoman n) = n.
Proof.
  intros N. generalize N. pattern n. apply Z_lt_induction; [|exact N].
  clear n N. intros n IH N.
  destruct (Z.eq_dec n 0) as [->|P].
  { rewrite toRoman_nonpositive by lia. reflexivity. }
  rewrite toRoman_step by lia.
  pose proof (highestDecimal_cases n ltac:(lia)) as C. cbv zeta in C.
  repeat destruct C as [C|C]; destruct C as [-> R];
    match goal with
    | |- context [Roman.toRoman ?m] =>
      pose proof (firstValue_toRoman m ltac:(lia)) as (F1 & F2 & F3 & F4 & F5);
      pose proof (IH m ltac:(lia) ltac:(lia)) as V
    end;
    cbn [Roman.numInv Z.eqb Pos.eqb String.append];
    repeat first
      [ rewrite romanValue_add by (cbn [firstValue]; num_values; lia)
      | rewrite romanValue_sub by (cbn [firstValue]; num_values; lia) ];
    rewrite ?V; num_values; lia.
Qed.

(** X1. The numeral [toRoman] returns for a number that is not negative
    denotes that number: reading it back with the values of the map [num]
    (a symbol before a greater one is subtracted, the others are added)
    gives the argument. *)
Theorem X1_toRoman_denotes_its_argument n :
  0 <= n -> romanValue (Roman.toRoman n) = n.
Proof. exact (romanValue_toRoman n). Qed.

Lemma X1_witness :
  0 <= 1994 /\ romanValue (Roman.toRoman 1994) = 1994.
Proof. split; [lia | apply (X1_toRoman_denotes_its_argument 1994); lia]. Defined.

(** X2. For [n >= 1], [highestDecimal n] is the greatest entry of
    [maxTable] that is not above [n]. *)
Theorem X2_highestDecimal_greatest_entry n v :
  1 <= n ->
  In (Roman.highestDecimal n) Roman.maxTable /\
  Roman.highestDecimal n <= n /\
  (In v Roman.maxTable -> v <= n -> v <= Roman.highestDecimal n).
Proof.
  intros H. pose proof (highestDecimal_cases n H) as C. cbv zeta in C.
  unfold Roman.maxTable. cbn [In].
  repeat destruct C as [C|C]; destruct C as [-> R];
    (split; [intuition lia|split; [lia|intuition lia]]).
Qed.

Lemma X2_witness :
  1 <= 7 /\
  In (Roman.highestDecimal 7) Roman.maxTable /\
  Roman.highestDecimal 7 <= 7 /\
  (In 5 Roman.maxTable -> 5 <= 7 -> 5 <= Roman.highestDecimal 7).
Proof.
  split; [lia | apply (X2_highestDecimal_greatest_entry 7 5); lia].
Defined.

(** ** The document holds the items and the headings of the stream *)

Lemma assemblerInv_assemble_item a it :
  assemblerInv a -> assemblerInv (assemble_item a it).
Proof.
  intros W. unfold assemble_item.
  destruct (typ it); try (now apply assemblerInv_add_item).
  - split; cbn [document sections items_ Chapters]; intros;
      rewrite lastOpt_app; eauto.
  - destruct W as [W1 W2]. unfold assemblerInv.
    cbn [document sections items_].
    destruct (sections a) eqn:Es; cbn [add_section Sections Chapters].
    + split; [discriminate|]. rewrite lastOpt_app. eauto.
    + destruct (W1 eq_refl) as [c Hc].
      rewrite lastOpt_update_last, Hc. simpl. split; [eauto|].
      do 2 eexists. split; [reflexivity|]. cbn [cSections].
      apply lastOpt_app.
  - destruct W as [W1 W2].
    split; cbn [document sections items_ Chapters Annexes].
    + exact W1.
    + rewrite lastOpt_app. eauto.
Qed.

Lemma assemblerInv0 : assemblerInv assembler0.
Proof. split; [discriminate|]. simpl. auto. Qed.

Lemma assemblerInv_fold its : forall a,
  assemblerInv a -> assemblerInv (fold_left assemble_item its a).
Proof.
  induction its as [|it its IH]; intros a W; [exact W|].
  simpl. apply IH. now apply assemblerInv_assemble_item.
Qed.

Lemma renderedItems_heading d t :
  renderedItems
    (mkDocument (Items d) (Sections d)
                (Chapters d ++ [mkChapter t [] []]) (Annexes d))
  = renderedItems d
  /\ renderedItems
       (mkDocument (Items d) (Sections d) (Chapters d)
                   (Annexes d ++ [mkSection t []]))
     = renderedItems d.
Proof.
  unfold renderedItems. simpl. rewrite !flat_map_snoc. simpl.
  now rewrite !app_nil_r.
Qed.

Lemma add_item_Items sp ip it d :
  Items (add_item sp ip it d)
  = match ip with
    | ItemsOfDocument => (Items d ++ [it])%list
    | _ => Items d
    end.
Proof. destruct ip, sp; reflexivity. Qed.

Lemma add_section_Items sp s d : Items (add_section sp s d) = Items d.
Proof. destruct sp; reflexivity. Qed.

(** One round of the loop of [Build] stores an item that is no heading,
    once, and stores nothing for a heading. *)
Lemma assemble_item_allItems a it :
  assemblerInv a ->
  Permutation (allItems (document (assemble_item a it)))
              (if isHeading (typ it) then allItems (document a)
               else it :: allItems (document a)).
Proof.
  intros W.
  assert (Plain : Permutation
            (allItems (add_item (sections a) (items_ a) it (document a)))
            (it :: allItems (document a))).
  { unfold allItems. rewrite add_item_Items.
    destruct (items_ a) eqn:Ei.
    1: { rewrite (buildInv_rendered_nil a W Ei).
         assert (R : renderedItems
                       (add_item (sections a) ItemsOfDocument it (document a))
                     = []).
         { destruct W as [_ W2]. rewrite Ei in W2. destruct W2 as [A [B C]].
           unfold renderedItems. simpl. now rewrite A, B, C. }
         rewrite R, !app_nil_r. apply Permutation_sym, Permutation_cons_append. }
    all: destruct (add_item_rendered a it W) as [pre [post [E1 E2]]];
      [congruence|]; rewrite Ei in E2; rewrite E2, E1;
      rewrite !app_assoc; apply Permutation_sym, Permutation_middle. }
  unfold assemble_item.
  destruct (typ it); cbn [isHeading document]; try exact Plain;
    unfold allItems; cbn [Items].
  - now rewrite (proj1 (renderedItems_heading (document a) (val it))).
  - now rewrite add_section_rendered, add_section_Items.
  - now rewrite (proj2 (renderedItems_heading (document a) (val it))).
Qed.

Lemma assemble_allItems its : forall a,
  assemblerInv a ->
  Permutation (allItems (document (fold_left assemble_item its a)))
              (allItems (document a)
               ++ filter (fun it => negb (isHeading (typ it))) its).
Proof.
  induction its as [|it its IH]; intros a W.
  - simpl. now rewrite app_nil_r.
  - cbn [fold_left filter].
    rewrite (IH _ (assemblerInv_assemble_item a it W)).
    pose proof (assemble_item_allItems a it W) as P.
    destruct (isHeading (typ it)); cbn [negb].
    + now apply Permutation_app_tail.
    + rewrite (Permutation_app_tail _ P). simpl.
      apply Permutation_cons_app. reflexivity.
Qed.

(** X3. [Build] stores every item of the stream that is no chapter, section
    or annex heading exactly once: the items of the document (those of
    [Document.Items] and those of its sections, chapters and annexes) are
    the items of the stream that are no heading, up to their order. *)
Theorem X3_document_holds_every_item_once its :
  Permutation (allItems (assemble its))
              (filter (fun it => negb (isHeading (typ it))) its).
Proof.
  unfold assemble. exact (assemble_allItems its assembler0 assemblerInv0).
Qed.

Lemma map_update_last_same {A B : Type} (g : A -> B) (f : A -> A) xs :
  (forall x, g (f x) = g x) -> map g (update_last f xs) = map g xs.
Proof.
  intros H. induction xs as [|y xs IH]; [reflexivity|].
  destruct xs as [|z xs]; [simpl; now rewrite H|].
  change (update_last f (y :: z :: xs)) with (y :: update_last f (z :: xs)).
  simpl in *. now rewrite IH.
Qed.

Lemma flat_map_update_last_snoc {A B : Type} (g : A -> list B)
      (f : A -> A) xs x s :
  lastOpt xs = Some x -> (forall y, g (f y) = (g y ++ [s])%list) ->
  flat_map g (update_last f xs) = (flat_map g xs ++ [s])%list.
Proof.
  intros L H. revert L. induction xs as [|y xs IH]; [discriminate|].
  destruct xs as [|z xs]; intros L.
  - simpl. now rewrite H, !app_nil_r.
  - change (update_last f (y :: z :: xs)) with (y :: update_last f (z :: xs)).
    change (lastOpt (y :: z :: xs)) with (lastOpt (z :: xs)) in L.
    cbn [flat_map] in *. rewrite (IH L). now rewrite app_assoc.
Qed.

Lemma valuesOf_snoc t its it :
  valuesOf t (its ++ [it])
  = (valuesOf t its
     ++ (if itemType_eqb (typ it) t then [val it] else []))%list.
Proof.
  unfold valuesOf. rewrite filter_app, map_app. simpl.
  now destruct (itemType_eqb (typ it) t).
Qed.

(** Appending an item changes no title and no list of sections. *)
Lemma add_item_titles sp ip it d :
  map cTitle (Chapters (add_item sp ip it d)) = map cTitle (Chapters d) /\
  map sTitle (Annexes (add_item sp ip it d)) = map sTitle (Annexes d) /\
  map sTitle (allSections (add_item sp ip it d)) = map sTitle (allSections d)
  /\ (Chapters d = [] -> Chapters (add_item sp ip it d) = []).
Proof.
  assert (S : forall ss,
             map sTitle (update_last (section_add_item it) ss)
             = map sTitle ss).
  { intros ss. now apply map_update_last_same. }
  assert (F : forall (f : Chapter -> Chapter) cs,
             (forall c, map sTitle (cSections (f c))
                        = map sTitle (cSections c)) ->
             map sTitle (flat_map cSections (update_last f cs))
             = map sTitle (flat_map cSections cs)).
  { intros f cs H. induction cs as [|y cs IH]; [reflexivity|].
    destruct cs as [|z cs]; [simpl; now rewrite !app_nil_r, H|].
    change (update_last f (y :: z :: cs)) with (y :: update_last f (z :: cs)).
    cbn [flat_map] in *. now rewrite !map_app, IH, !map_app. }
  unfold allSections.
  destruct ip, sp; cbn [add_item Chapters Annexes Sections];
    repeat split; trivial;
    rewrite ?map_app, ?S;
    try (rewrite map_update_last_same by reflexivity; reflexivity);
    try (rewrite F; [reflexivity|intros c; cbn [cSections]; now rewrite ?S]);
    try (intros ->; reflexivity); reflexivity.
Qed.

Lemma titlesInv_assemble_item a its it :
  assemblerInv a -> titlesInv a its ->
  titlesInv (assemble_item a it) (its ++ [it]).
Proof.
  intros W (C & A & S & N).
  assert (Plain : isHeading (typ it) = false ->
            titlesInv
              (mkAssembler (add_item (sections a) (items_ a) it (document a))
                           (chapter_ a) (sections a) (items_ a) (section_ a))
              (its ++ [it])).
  { intros Hh. unfold titlesInv. cbn [document sections].
    destruct (add_item_titles (sections a) (items_ a) it (document a))
      as (C' & A' & S' & N').
    rewrite C', A', S', !valuesOf_snoc, C, A, S.
    destruct (typ it); try discriminate; cbn [itemType_eqb];
      rewrite !app_nil_r; repeat split; trivial;
      intros E; apply N'; exact (N E). }
  unfold assemble_item.
  destruct (typ it) eqn:Et; try (apply Plain; reflexivity);
    unfold titlesInv, allSections in *;
    cbn [document sections Chapters Annexes Sections];
    rewrite !valuesOf_snoc, Et; cbn [itemType_eqb]; rewrite ?app_nil_r.
  - (* itemChapter *)
    rewrite map_app, flat_map_snoc, C, A. cbn [cSections map].
    rewrite app_nil_r. repeat split; trivial. discriminate.
  - (* itemSection *)
    destruct (sections a) eqn:Es; cbn [add_section Chapters Annexes Sections].
    + rewrite (N eq_refl) in *. cbn [flat_map] in *.
      rewrite app_nil_r in *. rewrite map_app, S. auto.
    + destruct W as [W1 _]. destruct (W1 Es) as [c Hc].
      rewrite (flat_map_update_last_snoc cSections _ _ c
                 (mkSection (val it) []) Hc) by reflexivity.
      rewrite map_update_last_same by reflexivity.
      rewrite app_assoc, map_app, S.
      repeat split; trivial. discriminate.
  - (* itemAnnex *)
    rewrite map_app, A. repeat split; trivial.
Qed.

Lemma titlesInv_fold its : forall a pre,
  assemblerInv a -> titlesInv a pre ->
  titlesInv (fold_left assemble_item its a) (pre ++ its).
Proof.
  induction its as [|it its IH]; intros a pre W T.
  - now rewrite app_nil_r.
  - cbn [fold_left].
    replace (pre ++ it :: its)%list with ((pre ++ [it]) ++ its)%list
      by (now rewrite <- app_assoc).
    apply IH; [now apply assemblerInv_assemble_item|].
    now apply titlesInv_assemble_item.
Qed.

(** X4. The headings of the stream make the structure of the document, in
    their order: the titles of the chapters are the values of the chapter
    items, the titles of the annexes those of the annex items, and the
    titles of the sections (those before the first chapter, then those of
    each chapter) those of the section items. *)
Theorem X4_document_titles_are_the_headings its :
  map cTitle (Chapters (assemble its)) = valuesOf itemChapter its /\
  map sTitle (Annexes (assemble its)) = valuesOf itemAnnex its /\
  map sTitle (allSections (assemble its)) = valuesOf itemSection its.
Proof.
  assert (T0 : titlesInv assembler0 []).
  { repeat split. }
  destruct (titlesInv_fold its assembler0 [] assemblerInv0 T0)
    as (C & A & S & _).
  auto.
Qed.

(** ** The stream of the lexer *)

(** X5. The lexer sends no error item: whenever the loop of [Build] has
    received its last item, that item is [itemEOF] ([errorf] is never
    called). *)
Theorem X5_lexer_ends_with_EOF fuel inp its last :
  tokens fuel (lex inp) = Done (its, last) -> typ last = itemEOF.
Proof. exact (lexer_sends_no_error fuel inp its last). Qed.

Lemma X5_witness : typ (mkItem itemEOF "" 5) = itemEOF.
Proof.
  apply (X5_lexer_ends_with_EOF 40 listInput listStream).
  vm_compute. reflexivity.
Defined.

(** X6. In the stream of the lexer the lists and the headings are well
    placed: an [itemListOpen] never comes inside a list, an
    [itemListClose] comes only inside a list, and no chapter, section or
    annex item comes inside a list. *)
Theorem X6_lists_and_headings_well_placed fuel inp its last :
  tokens fuel (lex inp) = Done (its, last) ->
  exists m, lrun false its = Some m.
Proof.
  intros E. exact (proj2 (tokens_fine fuel inp its last E)).
Qed.

Lemma X6_witness : exists m, lrun false listStream = Some m.
Proof.
  apply (X6_lists_and_headings_well_placed 40 listInput listStream
           (mkItem itemEOF "" 5)).
  vm_compute. reflexivity.
Defined.

(** X7. The value of a text item and of a chapter, section or annex item
    of the stream holds no line feed. *)
Theorem X7_text_and_titles_hold_no_line_feed fuel inp its last it :
  tokens fuel (lex inp) = Done (its, last) ->
  In it its -> isPlain (typ it) = true -> nlfree (val it) = true.
Proof.
  intros E Hin Hp.
  pose proof (proj1 (tokens_fine fuel inp its last E)) as A.
  rewrite forallb_forall in A. specialize (A it Hin).
  unfold okItem in A. rewrite Hp in A.
  apply andb_true_iff in A. exact (proj2 A).
Qed.

Lemma X7_witness : nlfree (val (mkItem itemText "b" 3)) = true.
Proof.
  apply (X7_text_and_titles_hold_no_line_feed 40 listInput listStream
           (mkItem itemEOF "" 5) (mkItem itemText "b" 3)).
  - vm_compute. reflexivity.
  - simpl. auto 10.
  - reflexivity.
Defined.

Lemma enter_items st l : items (enter st l) = items l.
Proof. destruct st; reflexivity. Qed.

Lemma loop_sends_at_most_three f : forall st l l' nxt,
  loop f st l = Done (l', nxt) ->
  (List.length (items l') <= List.length (items l) + 3)%nat.
Proof.
  induction f as [|f IH]; intros st l l' nxt E; simpl in E; [discriminate|].
  pose proof (body_sends_at_most_three st l) as B.
  destruct (body st l) as [l1|l1 nxt1].
  - rewrite <- B. exact (IH st l1 l' nxt E).
  - inversion E; subst. exact B.
Qed.

(** X8. A state function called with an empty channel, as [nextItem]
    calls it, has sent at most three items when it returns: the capacity
    of the channel [lex] makes, so that no send blocks. *)
Theorem X8_state_call_fills_no_more_than_the_channel fuel st l l' nxt :
  items l = [] -> call fuel st l = Done (l', nxt) ->
  (List.length (items l') <= 3)%nat.
Proof.
  intros Hq E. unfold call in E.
  pose proof (loop_sends_at_most_three fuel st (enter st l) l' nxt E) as B.
  rewrite enter_items, Hq in B. exact B.
Qed.

Lemma X8_witness :
  (List.length
     [mkItem itemText "ab" 1; mkItem itemEndListElement "" 1;
      mkItem itemListClose "" 1] <= 3)%nat.
Proof.
  apply (X8_state_call_fills_no_more_than_the_channel 10 lexListItem
           (mkLexer ("ab" ++ nl ++ nl) 0 0 0 1 [] (Some lexListItem))
           (mkLexer ("ab" ++ nl ++ nl) 2 2 1 1
              [mkItem itemText "ab" 1; mkItem itemEndListElement "" 1;
               mkItem itemListClose "" 1] (Some lexListItem))
           (Some lexText)).
  - reflexivity.
  - vm_compute. reflexivity.
Defined.

(** ** The nil state is never called *)

Ltac nil_case :=
  cbv beta iota zeta;
  first [ exact I | eexists _, _; split; reflexivity ].

(** Only the end of the input in [lexText] returns a nil state, after it
    has sent [itemEOF]. *)
Lemma body_nil st l :
  match body st l with
  | Return l' None => endsWithEOF (items l')
  | _ => True
  end.
Proof.
  destruct st; simpl.
  - unfold lexText_body. rewrite next_snd. split_ifs; nil_case.
  - unfold lexHeading_body. rewrite next_snd. split_ifs; nil_case.
  - unfold lexHeading_body. rewrite next_snd. split_ifs; nil_case.
  - unfold lexHeading_body. rewrite next_snd. split_ifs; nil_case.
  - unfold lexListItem_body. rewrite next_snd. split_ifs; nil_case.
  - unfold lexBold_body. rewrite next_snd. split_ifs; nil_case.
  - unfold lexEm_body. split_ifs; nil_case.
  - unfold lexTableTitle_body. rewrite next_snd. split_ifs; nil_case.
  - unfold lexTable_body. rewrite next_snd. split_ifs; nil_case.
  - unfold lexCmdName_body. rewrite next_snd. split_ifs; nil_case.
  - unfold lexCmdArgs_body. rewrite next_snd. split_ifs; nil_case.
  - unfold lexLinkHead_body. rewrite next_snd. split_ifs; nil_case.
  - unfold lexLinkTail_body. rewrite next_snd. split_ifs; nil_case.
Qed.

Lemma loop_nil f : forall st l l',
  loop f st l = Done (l', None) -> endsWithEOF (items l').
Proof.
  induction f as [|f IH]; intros st l l' E; simpl in E; [discriminate|].
  pose proof (body_nil st l) as B.
  destruct (body st l) as [l1|l1 nxt1].
  - exact (IH st l1 l' E).
  - inversion E; subst. exact B.
Qed.

Lemma endsWithEOF_tail x q : q <> [] -> endsWithEOF (x :: q) -> endsWithEOF q.
Proof.
  intros N (q' & it & E & T). destruct q' as [|y q'].
  - simpl in E. inversion E; subst. contradiction.
  - simpl in E. inversion E; subst. now exists q', it.
Qed.

Lemma endsWithEOF_single x : endsWithEOF [x] -> typ x = itemEOF.
Proof.
  intros (q' & it & E & T). destruct q' as [|y q'].
  - simpl in E. inversion E; subst. exact T.
  - simpl in E. inversion E. destruct q'; discriminate.
Qed.

(** [nextItem] does not call a nil state, and leaves none to call unless
    the item it received is [itemEOF]. *)
Lemma nextItem_nil f : forall l,
  nilInv l ->
  match nextItem f l with
  | Done (it, l') => typ it = itemEOF \/ nilInv l'
  | OutOfFuel => True
  | Panic => False
  end.
Proof.
  assert (Q : forall l x q, nilInv l -> items l = x :: q ->
                            typ x = itemEOF \/ nilInv (set_items l q)).
  { intros l x q H Hq. destruct (state l) as [st|] eqn:Es.
    - right. intros N. simpl in N. congruence.
    - specialize (H Es). rewrite Hq in H.
      destruct q as [|y q].
      + left. now apply endsWithEOF_single.
      + right. intros _. simpl. apply (endsWithEOF_tail x); [discriminate|].
        exact H. }
  induction f as [|f IH]; intros l H; simpl.
  - destruct (items l) as [|x q] eqn:Hq; [exact I|]. now apply Q.
  - destruct (items l) as [|x q] eqn:Hq; [|now apply Q].
    destruct (state l) as [st|] eqn:Es.
    + unfold call.
      destruct (loop f st (enter st l)) as [[l1 nxt]| |] eqn:L; [|exact I|].
      * apply IH. intros N. simpl in N. subst nxt. simpl.
        exact (loop_nil f st _ l1 L).
      * clear -L. exfalso. revert L. generalize (enter st l).
        induction f as [|f IH]; intros l0 L; simpl in L; [discriminate|].
        destruct (body st l0); [exact (IH _ L)|discriminate].
    + destruct (H Es) as (q' & it & E & _). rewrite Hq in E.
      destruct q'; discriminate.
Qed.

Lemma tokens_nil f : forall l,
  nilInv l ->
  match tokens f l with
  | Panic => False
  | _ => True
  end.
Proof.
  induction f as [|f IH]; intros l H; simpl; [exact I|].
  pose proof (nextItem_nil f l H) as N.
  destruct (nextItem f l) as [[it l1]| |]; [|exact I|exact N].
  destruct N as [N|N].
  - rewrite N. exact I.
  - specialize (IH l1 N).
    destruct (typ it); try exact I;
      destruct (tokens f l1) as [[its0 last0]| |]; exact I || exact IH.
Qed.

(** X9. The lexer never panics: the nil state that [lexText] returns at the
    end of the input is not called, since [Build] stops at the [itemEOF]
    sent with it. *)
Theorem X9_lexer_never_calls_its_nil_state fuel inp :
  match tokens fuel (lex inp) with
  | Panic => False
  | _ => True
  end.
Proof.
  apply tokens_nil. intros N. discriminate.
Qed.

(** ** The panics of the builder *)


Lemma handleCommand_returns name args b :
  commandPanics name args = false ->
  exists b', handleCommand name args b = Done b'.
Proof.
  unfold commandPanics, handleCommand.
  destruct (String.eqb name "color").
  { destruct args as [|a0 [|a1 args]]; simpl; intros H;
      [discriminate|discriminate|eauto]. }
  destruct (String.eqb name "img"); [|eauto].
  destruct args as [|a0 [|a1 [|a2 [|a3 args]]]]; simpl; intros H;
    try discriminate.
  - eauto.
  - repeat match goal with
           | |- context [if ?c then _ else _] => destruct c; simpl
           end; eauto.
  - destruct (Go.TrimSpace a3) as [|c s]; [discriminate|].
    repeat match goal with
           | |- context [if ?c then _ else _] => destruct c; simpl
           end; eauto.
Qed.

Lemma handleItem_returns it b :
  barItem it = true -> safeItem it = true ->
  exists b', handleItem it b = Done b'.
Proof.
  unfold barItem, safeItem, handleItem, hasBar.
  destruct (typ it); intros Hb Hs; eauto;
    try (destruct (negb (String.eqb (val it) "")); eauto; fail).
  - (* itemLink *)
    destruct (Go.Split (val it) "|") as [|i0 [|i1 rest]];
      try discriminate. simpl. eauto.
  - (* itemCommand *)
    destruct (Go.Split (val it) "|") as [|i0 [|i1 rest]];
      try discriminate. simpl in *.
    apply handleCommand_returns. now apply negb_true_iff in Hs.
  - (* itemTableRow *)
    destruct (Split_nonempty (val it) "|") as [c0 [cs E]]. rewrite E.
    simpl. eauto.
Qed.

Lemma handleItems_returns its : forall b,
  forallb barItem its = true -> forallb safeItem its = true ->
  exists b', handleItems its b = Done b'.
Proof.
  induction its as [|it its IH]; intros b Hb Hs; simpl in *; [eauto|].
  apply andb_true_iff in Hb. destruct Hb as [Hb1 Hb2].
  apply andb_true_iff in Hs. destruct Hs as [Hs1 Hs2].
  destruct (handleItem_returns it b Hb1 Hs1) as [b1 E]. rewrite E. simpl.
  now apply IH.
Qed.

Lemma forallb_flat_map {A B : Type} (p : B -> bool) (g : A -> list B) xs :
  forallb p (flat_map g xs) = forallb (fun x => forallb p (g x)) xs.
Proof.
  induction xs as [|x xs IH]; [reflexivity|].
  simpl. now rewrite forallb_app, IH.
Qed.

Lemma handleSections_returns p ss : forall b,
  (forall its b, forallb p its = true -> exists b', handleItems its b = Done b')
  -> forallb p (flat_map sItems ss) = true ->
  exists b', handleSections ss b = Done b'.
Proof.
  intros b H. revert b.
  induction ss as [|s ss IH]; intros b Hp; simpl in *; [eauto|].
  rewrite forallb_app in Hp. apply andb_true_iff in Hp.
  destruct Hp as [Hp1 Hp2]. unfold handleSection.
  match goal with
  | |- context [handleItems _ ?x] => destruct (H (sItems s) x Hp1) as [b1 E]
  end.
  rewrite E. simpl. now apply IH.
Qed.

Lemma buildChapters_returns p cs : forall i b,
  (forall its b, forallb p its = true -> exists b', handleItems its b = Done b')
  -> forallb p (flat_map chapterItems cs) = true ->
  exists b', buildChapters i cs b = Done b'.
Proof.
  intros i b H. revert i b.
  induction cs as [|c cs IH]; intros i b Hp; simpl in *; [eauto|].
  rewrite forallb_app in Hp. apply andb_true_iff in Hp.
  destruct Hp as [Hp1 Hp2]. unfold chapterItems in Hp1.
  rewrite forallb_app in Hp1. apply andb_true_iff in Hp1.
  destruct Hp1 as [Hc Hss].
  match goal with
  | |- context [handleItems _ ?x] => destruct (H (cItems c) x Hc) as [b1 E]
  end.
  rewrite E. simpl.
  destruct (handleSections_returns p (cSections c) b1 H Hss) as [b2 E2].
  rewrite E2. simpl. now apply IH.
Qed.

Lemma buildAnnexes_returns p xs : forall i b,
  (forall its b, forallb p its = true -> exists b', handleItems its b = Done b')
  -> forallb p (flat_map sItems xs) = true ->
  exists b', buildAnnexes i xs b = Done b'.
Proof.
  intros i b H. revert i b.
  induction xs as [|a xs IH]; intros i b Hp; simpl in *; [eauto|].
  rewrite forallb_app in Hp. apply andb_true_iff in Hp.
  destruct Hp as [Hp1 Hp2].
  match goal with
  | |- context [handleItems _ ?x] => destruct (H (sItems a) x Hp1) as [b1 E]
  end.
  rewrite E. simpl. now apply IH.
Qed.

(** [Builder.Build] returns on a document whose items it can handle. *)
Lemma Builder_run_returns d b :
  forallb (fun it => barItem it && safeItem it) (renderedItems d) = true ->
  exists b', Builder_run d b = Done b'.
Proof.
  intros Hp. unfold renderedItems in Hp.
  rewrite !forallb_app in Hp.
  apply andb_true_iff in Hp. destruct Hp as [Hs Hp].
  apply andb_true_iff in Hp. destruct Hp as [Hc Ha].
  assert (H : forall its b,
             forallb (fun it => barItem it && safeItem it) its = true ->
             exists b', handleItems its b = Done b').
  { intros its b0 F. apply handleItems_returns;
      rewrite forallb_forall in *; intros x Hx;
      specialize (F x Hx); apply andb_true_iff in F; tauto. }
  unfold Builder_run.
  match goal with
  | |- context [handleSections _ ?x] =>
    destruct (handleSections_returns _ (Sections d) x H Hs) as [b1 E1]
  end.
  rewrite E1. simpl.
  destruct (buildChapters_returns _ (Chapters d) 0 b1 H Hc) as [b2 E2].
  rewrite E2. simpl.
  exact (buildAnnexes_returns _ (Annexes d) 0 b2 H Ha).
Qed.

(** ** What the state functions send *)

Section SentItems.

Variable P : item -> bool.

Hypothesis body_sends : forall st l,
  match body st l with
  | Continue l' => items l' = items l
  | Return l' _ =>
    exists emitted,
      items l' = (items l ++ emitted)%list /\ forallb P emitted = true
  end.

Lemma loop_sends f : forall st l l' nxt,
  forallb P (items l) = true -> loop f st l = Done (l', nxt) ->
  forallb P (items l') = true.
Proof.
  induction f as [|f IH]; intros st l l' nxt H E; simpl in E; [discriminate|].
  pose proof (body_sends st l) as B.
  destruct (body st l) as [l1|l1 nxt1].
  - apply (IH st l1 l' nxt); [now rewrite B|exact E].
  - inversion E; subst. destruct B as [emitted [B1 B2]].
    now rewrite B1, forallb_app, H, B2.
Qed.

Lemma nextItem_sends f : forall l it l',
  forallb P (items l) = true -> nextItem f l = Done (it, l') ->
  P it = true /\ forallb P (items l') = true.
Proof.
  induction f as [|f IH]; intros l it l' H E; simpl in E.
  - destruct (items l) as [|x q] eqn:Hq; [discriminate|].
    inversion E; subst. simpl in *. now apply andb_true_iff in H.
  - destruct (items l) as [|x q] eqn:Hq.
    + destruct (state l) as [st|]; [|discriminate].
      destruct (call f st l) as [[l1 nxt]| |] eqn:C; try discriminate.
      apply (IH (set_state l1 nxt)); [|exact E]. simpl.
      apply (loop_sends f st (enter st l) l1 nxt); [|exact C].
      now rewrite enter_items, Hq.
    + inversion E; subst. simpl in *. now apply andb_true_iff in H.
Qed.

Lemma tokens_sends f : forall l its last,
  forallb P (items l) = true -> tokens f l = Done (its, last) ->
  forallb P its = true.
Proof.
  induction f as [|f IH]; intros l its last H E; simpl in E; [discriminate|].
  destruct (nextItem f l) as [[it l1]| |] eqn:N; try discriminate.
  destruct (nextItem_sends f l it l1 H N) as [Hit Hq].
  assert (R : match tokens f l1 with
              | Done (its0, last0) => Done (it :: its0, last0)
              | OutOfFuel => OutOfFuel
              | Panic => Panic
              end = Done (its, last) -> forallb P its = true).
  { destruct (tokens f l1) as [[its0 last0]| |] eqn:T; try discriminate.
    intros R. inversion R; subst. simpl. rewrite Hit.
    exact (IH l1 its0 last Hq T). }
  destruct (typ it); try (exact (R E)); inversion E; subst; reflexivity.
Qed.

End SentItems.

Lemma hasBar_bar a b : hasBar (bar a b) = true.
Proof.
  unfold hasBar, bar. induction a as [|c a IH].
  - simpl. destruct (Split_nonempty b "|") as [c0 [cs E]].
    now rewrite E.
  - cbn [String.append Go.Split] in *.
    destruct (Ascii.eqb c "|").
    + match goal with
      | |- context [Go.Split ?s ?c] =>
        destruct (Split_nonempty s c) as [c0 [cs E]]; now rewrite E
      end.
    + match goal with
      | |- context [Go.Split ?s ?c] =>
        destruct (Go.Split s c) as [|p ps]; [discriminate|exact IH]
      end.
Qed.

Ltac sent_items :=
  cbv beta iota zeta;
  repeat first [ progress cbn [items emit emitTrim emitCustom ignore send
                               set_start set_pos]
               | rewrite next_items
               | rewrite backup_next_items ].

Ltac bar_case :=
  sent_items;
  first
    [ reflexivity
    | exists []; split; [now rewrite app_nil_r|reflexivity]
    | eexists; split;
      [ rewrite <- ?app_assoc; reflexivity
      | cbn [forallb app barItem typ val]; rewrite ?hasBar_bar; reflexivity ] ].

(** The value of every link and command item sent holds a [|]. *)
Lemma body_sends_bar st l :
  match body st l with
  | Continue l' => items l' = items l
  | Return l' _ =>
    exists emitted,
      items l' = (items l ++ emitted)%list /\ forallb barItem emitted = true
  end.
Proof.
  destruct st; simpl.
  - unfold lexText_body, flush, flush_before. rewrite next_snd.
    split_ifs; bar_case.
  - unfold lexHeading_body. rewrite next_snd. split_ifs; bar_case.
  - unfold lexHeading_body. rewrite next_snd. split_ifs; bar_case.
  - unfold lexHeading_body. rewrite next_snd. split_ifs; bar_case.
  - unfold lexListItem_body, flush, flush_before. rewrite next_snd.
    split_ifs; bar_case.
  - unfold lexBold_body. rewrite next_snd. split_ifs; bar_case.
  - unfold lexEm_body. split_ifs; bar_case.
  - unfold lexTableTitle_body. rewrite next_snd. split_ifs; bar_case.
  - unfold lexTable_body. rewrite next_snd. split_ifs; bar_case.
  - unfold lexCmdName_body. rewrite next_snd. split_ifs; bar_case.
  - unfold lexCmdArgs_body. rewrite next_snd. split_ifs; bar_case.
  - unfold lexLinkHead_body. rewrite next_snd. split_ifs; bar_case.
  - unfold lexLinkTail_body. rewrite next_snd. split_ifs; bar_case.
Qed.

Lemma tokens_bar f inp its last :
  tokens f (lex inp) = Done (its, last) -> forallb barItem its = true.
Proof.
  apply (tokens_sends barItem body_sends_bar f (lex inp) its last).
  reflexivity.
Qed.

Lemma assemble_rendered_forallb (p : item -> bool) its :
  forallb p its = true -> forallb p (renderedItems (assemble its)) = true.
Proof.
  intros H. rewrite forallb_forall in *. intros x Hx. apply H.
  pose proof (assemble_allItems its assembler0 assemblerInv0) as Q.
  assert (I : In x (allItems (assemble its))).
  { unfold allItems. apply in_or_app. now right. }
  apply (Permutation_in _ Q) in I. simpl in I.
  apply filter_In in I. tauto.
Qed.




(** ** Paragraphs are never nested *)

Lemma alternates_app o a b :
  alternates o (a ++ b) = alternates o a && alternates (openAfter o a) b.
Proof.
  revert o. induction a as [|c a IH]; intros o; simpl; [reflexivity|].
  destruct (isParagraphOpen c); [now rewrite IH, andb_assoc|].
  destruct (isParagraphClose c); [now rewrite IH, andb_assoc|apply IH].
Qed.

Lemma altInv_append b s o :
  altInv b ->
  alternates (paragraphIsOpen b) [s] = true ->
  openAfter (paragraphIsOpen b) [s] = o ->
  altInv
    (mkBuilder None (content b ++ [s]) o (newSection b) (tableRowIndex b)
               (tableTitle b) (Config b)).
Proof.
  intros [He [Hc Ho]] C O. split; [reflexivity|]. simpl. split.
  - now rewrite alternates_app, Hc, Ho.
  - now rewrite openAfter_app, Ho.
Qed.

Lemma plainChunk_cases s :
  plainChunk s = true ->
  isParagraphOpen s = false /\ isParagraphClose s = false.
Proof.
  unfold plainChunk. intros H.
  apply andb_true_iff in H. destruct H as [A B].
  now rewrite negb_true_iff in A, B.
Qed.

Lemma altInv_append_plain b s :
  altInv b -> plainChunk s = true -> altInv (append s b).
Proof.
  intros H N. destruct (plainChunk_cases s N) as [A B].
  rewrite (append_eq s b (proj1 H)). unfold with_content.
  apply altInv_append; [exact H| |]; simpl; now rewrite A, B.
Qed.

Lemma altInv_close b : altInv b -> altInv (closeParagraph b).
Proof.
  intros H. unfold closeParagraph. destruct (paragraphIsOpen b) eqn:E;
    [|exact H].
  destruct H as [He [Hc Ho]].
  rewrite (append_eq _ (set_paragraphIsOpen b false) He).
  apply (altInv_append b paragraphCloseMarkup false);
    [now repeat split|now rewrite E|now rewrite E].
Qed.

Lemma altInv_open b : altInv b -> altInv (openParagraph b).
Proof.
  intros H. unfold openParagraph.
  destruct (paragraphIsOpen b) eqn:E; simpl; [now destruct (newSection b)|].
  destruct H as [He [Hc Ho]].
  destruct (newSection b) eqn:N.
  - rewrite (append_eq _ (set_newSection (set_paragraphIsOpen b true) false)
               He).
    pose proof (altInv_append b ("<p class='indent'>" ++ nl) true
                  (conj He (conj Hc Ho))) as R.
    rewrite E in R. specialize (R eq_refl eq_refl).
    destruct R as [R1 [R2 R3]]. repeat split; assumption.
  - rewrite (append_eq _ (set_paragraphIsOpen b true) He).
    pose proof (altInv_append b ("<p>" ++ nl) true
                  (conj He (conj Hc Ho))) as R.
    rewrite E in R. specialize (R eq_refl eq_refl).
    destruct R as [R1 [R2 R3]]. repeat split; assumption.
Qed.

Lemma altInv_set_newSection b v : altInv b -> altInv (set_newSection b v).
Proof. exact (fun H => H). Qed.

Lemma altInv_set_tableRowIndex b v :
  altInv b -> altInv (set_tableRowIndex b v).
Proof. exact (fun H => H). Qed.

Lemma altInv_set_tableTitle b v : altInv b -> altInv (set_tableTitle b v).
Proof. exact (fun H => H). Qed.

Lemma altInv_chunks chunks : forall b,
  altInv b -> forallb plainChunk chunks = true ->
  altInv (with_content b (content b ++ chunks)).
Proof.
  induction chunks as [|s chunks IH]; intros b H N; simpl in N.
  - rewrite app_nil_r. destruct H as [He [Hc Ho]].
    repeat split; assumption.
  - apply andb_true_iff in N. destruct N as [Ns N].
    pose proof (IH (append s b) (altInv_append_plain b s H Ns) N) as R.
    rewrite (append_eq s b (proj1 H)) in R. simpl in R.
    rewrite <- app_assoc in R. exact R.
Qed.

Ltac ainv_tac :=
  repeat first
    [ assumption
    | apply altInv_close
    | apply altInv_open
    | apply altInv_set_newSection
    | apply altInv_set_tableRowIndex
    | apply altInv_set_tableTitle
    | apply altInv_append_plain; [|reflexivity] ].

Lemma plainChunk_nlfree s : nlfree s = true -> plainChunk s = true.
Proof.
  intros H. unfold plainChunk, isParagraphOpen, isParagraphClose.
  now rewrite !(nlfree_neq s _ H).
Qed.

Lemma plainChunk_rowCells i cells :
  forallb plainChunk (map (rowCell i) cells) = true.
Proof.
  induction cells as [|c cells IH]; simpl; [reflexivity|].
  rewrite IH, andb_true_r. unfold rowCell. now destruct (i =? 0).
Qed.

Lemma handleCommand_altInv name args b b' :
  altInv b -> handleCommand name args b = Done b' -> altInv b'.
Proof.
  intros H. unfold handleCommand.
  destruct (String.eqb name "color").
  - destruct (index args 1); simpl; try discriminate.
    destruct (index args 0); simpl; try discriminate.
    intros E. injection E as <-. ainv_tac.
  - destruct (String.eqb name "img").
    + match goal with |- bind ?c _ = _ -> _ => destruct c end;
        simpl; try discriminate.
      match goal with |- bind ?c _ = _ -> _ => destruct c as [[wd ht]| |] end;
        simpl; try discriminate.
      destruct (index args 0); simpl; try discriminate.
      destruct (index args 1); simpl; try discriminate.
      destruct (negb (wd =? "")%string);
        [|destruct (negb (ht =? "")%string)];
        intros E; injection E as <-; ainv_tac.
    + intros E. injection E as <-. ainv_tac.
Qed.

Lemma handleItem_altInv it b b' :
  okItem it = true -> altInv b -> handleItem it b = Done b' -> altInv b'.
Proof.
  intros Hok H. unfold handleItem, okItem in *.
  destruct (typ it);
    cbn [itemType_eqb isPlain negb orb andb] in *;
    try (destruct (negb (val it =? "")%string);
         intros E; injection E as <-; [|ainv_tac];
         apply altInv_append_plain; [ainv_tac|];
         now apply plainChunk_nlfree, nlfree_Sprintf0);
    try (intros E; injection E as <-; ainv_tac; fail).
  - (* itemLink *)
    destruct (index _ 0); simpl; try discriminate.
    destruct (index _ 1); simpl; try discriminate.
    intros E; injection E as <-. ainv_tac.
  - (* itemCommand *)
    destruct (index _ 0); simpl; try discriminate.
    destruct (index _ 1); simpl; try discriminate.
    now apply handleCommand_altInv.
  - (* itemTableRow *)
    destruct (index _ 0); simpl; try discriminate.
    intros E; injection E as <-.
    apply altInv_append_plain; [|reflexivity].
    match goal with |- altInv (fold_left _ _ ?x) =>
      assert (G : altInv x)
    end.
    { ainv_tac. destruct (tableRowIndex b =? -1); ainv_tac. }
    rewrite fold_rowCell by exact (proj1 G).
    apply altInv_chunks; [exact G|]. apply plainChunk_rowCells.
Qed.

Lemma handleItems_altInv its : forall b b',
  forallb okItem its = true -> altInv b ->
  handleItems its b = Done b' -> altInv b'.
Proof.
  induction its as [|it its IH]; intros b b' Hok H; simpl.
  - intros E. now injection E as <-.
  - apply andb_true_iff in Hok. destruct Hok as [Hit Hok].
    destruct (handleItem it b) as [b1| |] eqn:E1; simpl; try discriminate.
    apply (IH b1 b' Hok). exact (handleItem_altInv _ _ _ Hit H E1).
Qed.

Lemma handleSections_altInv ss : forall b b',
  forallb okItem (flat_map sItems ss) = true -> altInv b ->
  handleSections ss b = Done b' -> altInv b'.
Proof.
  induction ss as [|s ss IH]; intros b b' Hok H; simpl.
  - intros E. now injection E as <-.
  - simpl in Hok. rewrite forallb_app in Hok.
    apply andb_true_iff in Hok. destruct Hok as [Hs Hok].
    destruct (handleSection s b) as [b1| |] eqn:E1; simpl; try discriminate.
    apply (IH b1 b' Hok). unfold handleSection in E1.
    apply (handleItems_altInv _ _ _ Hs) in E1; [exact E1|].
    ainv_tac.
Qed.

Lemma buildChapters_altInv cs : forall i b b',
  forallb okItem (flat_map chapterItems cs) = true -> altInv b ->
  buildChapters i cs b = Done b' -> altInv b'.
Proof.
  induction cs as [|c cs IH]; intros i b b' Hok H; simpl.
  - intros E. now injection E as <-.
  - simpl in Hok. unfold chapterItems at 1 in Hok.
    rewrite !forallb_app in Hok.
    apply andb_true_iff in Hok. destruct Hok as [Hc Hok].
    apply andb_true_iff in Hc. destruct Hc as [Hi Hs].
    match goal with |- context [handleItems _ ?x] =>
      assert (G0 : altInv x) by ainv_tac;
      destruct (handleItems (cItems c) x) as [b1| |] eqn:E1
    end; simpl; try discriminate.
    pose proof (handleItems_altInv _ _ _ Hi G0 E1) as G1.
    destruct (handleSections (cSections c) b1) as [b2| |] eqn:E2; simpl;
      try discriminate.
    pose proof (handleSections_altInv _ _ _ Hs G1 E2) as G2.
    apply (IH _ _ _ Hok G2).
Qed.

Lemma buildAnnexes_altInv xs : forall i b b',
  forallb okItem (flat_map sItems xs) = true -> altInv b ->
  buildAnnexes i xs b = Done b' -> altInv b'.
Proof.
  induction xs as [|a xs IH]; intros i b b' Hok H; simpl.
  - intros E. now injection E as <-.
  - simpl in Hok. rewrite forallb_app in Hok.
    apply andb_true_iff in Hok. destruct Hok as [Ha Hok].
    match goal with |- context [handleItems _ ?x] =>
      assert (G0 : altInv x) by ainv_tac;
      destruct (handleItems (sItems a) x) as [b1| |] eqn:E1
    end; simpl; try discriminate.
    pose proof (handleItems_altInv _ _ _ Ha G0 E1) as G1.
    apply (IH _ _ _ Hok). ainv_tac.
Qed.

Lemma tocSections_altInv ss : forall b,
  altInv b -> altInv (tocSections ss b).
Proof.
  unfold tocSections.
  induction ss as [|s ss IH]; intros b H; simpl; [exact H|].
  apply IH. ainv_tac.
Qed.

Lemma tocChapters_altInv cs : forall i b,
  altInv b -> altInv (tocChapters i cs b).
Proof.
  induction cs as [|c cs IH]; intros i b H; simpl; [exact H|].
  apply IH. apply altInv_append_plain; [|reflexivity].
  apply tocSections_altInv. ainv_tac.
Qed.

Lemma tocAnnexes_altInv xs : forall i b,
  altInv b -> altInv (tocAnnexes i xs b).
Proof.
  induction xs as [|a xs IH]; intros i b H; simpl; [exact H|].
  apply IH. ainv_tac.
Qed.

Lemma buildTableOfContents_altInv d b :
  altInv b -> altInv (buildTableOfContents d b).
Proof.
  intros H. unfold buildTableOfContents.
  do 2 (apply altInv_append_plain; [|reflexivity]).
  apply tocAnnexes_altInv.
  do 2 (apply altInv_append_plain; [|reflexivity]).
  apply tocChapters_altInv.
  do 2 (apply altInv_append_plain; [|reflexivity]).
  apply tocSections_altInv.
  ainv_tac.
Qed.

Lemma Builder_run_altInv d config b' :
  forallb okItem (renderedItems d) = true ->
  Builder_run d (newBuilder config) = Done b' -> altInv b'.
Proof.
  unfold renderedItems, Builder_run. simpl. rewrite !forallb_app.
  intros Hok. apply andb_true_iff in Hok. destruct Hok as [Hs Hok].
  apply andb_true_iff in Hok. destruct Hok as [Hc Ha].
  set (b0 := mkBuilder None [] false false 0 "" config).
  set (b1 := if TableOfContents config then _ else b0).
  assert (G0 : altInv b0) by (repeat split).
  assert (G1 : altInv b1).
  { subst b1. destruct (TableOfContents config).
    - now apply buildTableOfContents_altInv.
    - apply G0. }
  destruct (handleSections (Sections d) b1) as [b2| |] eqn:E2; simpl;
    try discriminate.
  pose proof (handleSections_altInv _ _ _ Hs G1 E2) as G2.
  destruct (buildChapters 0 (Chapters d) b2) as [b3| |] eqn:E3; simpl;
    try discriminate.
  pose proof (buildChapters_altInv _ _ _ _ Hc G2 E3) as G3.
  intros E4. exact (buildAnnexes_altInv _ _ _ _ Ha G3 E4).
Qed.

(** X12. In what the build writes for any input, paragraphs are never
    nested and never closed twice: a paragraph is opened only while none
    is open, and closed only while one is open. *)
Theorem X12_paragraphs_alternate fuel inp config chunks :
  rendered fuel inp config = Done chunks -> alternates false chunks = true.
Proof.
  unfold rendered.
  destruct (tokens fuel _) as [[its last]| |] eqn:T; simpl; try discriminate.
  destruct (Builder_run (assemble its) (newBuilder config)) as [b'| |] eqn:R;
    simpl; try discriminate.
  intros E. injection E as <-.
  pose proof (proj1 (tokens_fine _ _ _ _ T)) as Hok.
  apply assemble_rendered_forallb in Hok.
  exact (proj1 (proj2 (Builder_run_altInv _ _ _ Hok R))).
Qed.

Lemma X12_witness :
  alternates false
    ["<h2><a id='a'></a> - A</h2>" ++ nl; "<p class='indent'>" ++ nl;
     "x"; "<h3><a name='b'></a>B</h3>" ++ nl; nl ++ "</p>" ++ nl;
     "<p class='indent'>" ++ nl; "y"] = true.
Proof.
  apply (X12_paragraphs_alternate 30
           ("#A" ++ nl ++ "x##B" ++ nl ++ "y") (mkConfig false)).
  vm_compute. reflexivity.
Defined.

(** ** The write of [Build] *)



(** ** The runes [next] reads *)

Lemma lor_ge_128 a b :
  0 <= a -> 0 <= b -> 128 <= a \/ 128 <= b -> 128 <= Z.lor a b.
Proof.
  intros Ha Hb H.
  assert (P : 0 <= Z.lor a b) by (now apply Z.lor_nonneg).
  assert (N : Z.lor a b <> 0).
  { intros E. apply Z.lor_eq_0_iff in E. lia. }
  assert (L : 7 <= Z.log2 (Z.lor a b)).
  { rewrite Z.log2_lor by assumption.
    change 7 with (Z.log2 128).
    destruct H as [H|H]; apply Z.log2_le_mono in H; lia. }
  change 128 with (2 ^ 7). apply Z.log2_le_pow2; [lia|exact L].
Qed.

Lemma byte_of_range c : 0 <= byte_of c < 256.
Proof.
  unfold byte_of. pose proof (nat_ascii_bounded c). lia.
Qed.

(** The bits [DecodeRuneInString] takes of a byte, as arithmetic. *)
Lemma low_bits a n k :
  0 <= n -> 0 <= k ->
  Z.shiftl (Z.land a (Z.ones n)) k = (a mod 2 ^ n) * 2 ^ k.
Proof.
  intros Hn Hk. now rewrite Z.land_ones, Z.shiftl_mul_pow2.
Qed.

(** A rune below 128 is read from one byte, which is the rune; a first
    byte from 128 on gives a rune from 128 on. *)
Lemma Decode_first c t :
  let '(r, w) := Go.DecodeRuneInString (String c t) in
  1 <= w /\
  (byte_of c < 128 -> r = byte_of c /\ w = 1) /\
  (128 <= byte_of c -> 128 <= r).
Proof.
  pose proof (byte_of_range c) as Rc.
  cbn [Go.DecodeRuneInString]. cbv zeta.
  destruct (Z.ltb_spec (byte_of c) 128) as [A|A]; [repeat split; lia|].
  assert (E : forall w, 1 <= w ->
              1 <= w /\ (byte_of c < 128 -> Go.RuneError = byte_of c /\ w = 1)
              /\ (128 <= byte_of c -> 128 <= Go.RuneError)).
  { intros w Hw. unfold Go.RuneError. repeat split; lia. }
  destruct (Go.utf8_first (byte_of c)) as [[[sz lo] hi]|] eqn:F;
    [|apply E; lia].
  destruct (len (String c t) <? sz); [apply E; lia|].
  destruct t as [|c1 t1]; [apply E; lia|].
  pose proof (byte_of_range c1) as R1.
  destruct ((byte_of c1 <? lo) || (hi <? byte_of c1)) eqn:B1;
    [apply E; lia|].
  apply orb_false_iff in B1. destruct B1 as [B1 B1'].
  apply Z.ltb_ge in B1. apply Z.ltb_ge in B1'.
  assert (Ones : 31 = Z.ones 5 /\ 63 = Z.ones 6 /\ 15 = Z.ones 4
                 /\ 7 = Z.ones 3) by (repeat split).
  destruct Ones as (O31 & O63 & O15 & O7).
  assert (M63 : forall x, 0 <= Z.land x 63).
  { intros x. rewrite O63, Z.land_ones by lia. apply Z.mod_pos_bound.
    reflexivity. }
  unfold Go.utf8_first in F.
  destruct (sz <=? 2) eqn:S2.
  { split; [lia|]. split; [lia|]. intros _.
    rewrite O31, low_bits by lia.
    apply lor_ge_128; [|apply M63|left];
      repeat match type of F with
             | (if ?x then _ else _) = _ => destruct x eqn:?
             end; inversion F; subst; try discriminate;
      change (2 ^ 5) with 32; change (2 ^ 6) with 64;
      Z.div_mod_to_equations; lia. }
  destruct t1 as [|c2 t2]; [apply E; lia|].
  destruct (Go.is_cont (byte_of c2)); cbn [negb]; [|apply E; lia].
  destruct (sz <=? 3) eqn:S3.
  { split; [lia|]. split; [lia|]. intros _.
    rewrite O15, !O63 at 1. rewrite !low_bits by lia. rewrite <- O63.
    apply lor_ge_128; [apply Z.lor_nonneg; split| |left].
    - change (2 ^ 4) with 16; change (2 ^ 12) with 4096;
        Z.div_mod_to_equations; lia.
    - change (2 ^ 6) with 64; Z.div_mod_to_equations; lia.
    - rewrite O63, Z.land_ones by lia. apply Z.mod_pos_bound. reflexivity.
    - apply lor_ge_128;
        [change (2 ^ 4) with 16; change (2 ^ 12) with 4096;
         Z.div_mod_to_equations; lia
        |change (2 ^ 6) with 64; Z.div_mod_to_equations; lia|].
      repeat match type of F with
             | (if ?x then _ else _) = _ => destruct x eqn:?
             end; inversion F; subst; try discriminate;
      change (2 ^ 4) with 16; change (2 ^ 12) with 4096;
      change (2 ^ 6) with 64;
      Z.div_mod_to_equations; lia. }
  destruct t2 as [|c3 t3]; [apply E; lia|].
  destruct (Go.is_cont (byte_of c3)); cbn [negb]; [|apply E; lia].
  split; [lia|]. split; [lia|]. intros _.
  rewrite O7, !O63 at 1. rewrite !low_bits by lia. rewrite <- O63.
  assert (X0 : 0 <= byte_of c mod 2 ^ 3 * 2 ^ 18).
  { change (2 ^ 3) with 8; change (2 ^ 18) with 262144;
      Z.div_mod_to_equations; lia. }
  assert (X1 : 0 <= byte_of c1 mod 2 ^ 6 * 2 ^ 12).
  { change (2 ^ 6) with 64; change (2 ^ 12) with 4096;
      Z.div_mod_to_equations; lia. }
  apply lor_ge_128; [| |left].
  - repeat (apply Z.lor_nonneg; split); trivial.
    change (2 ^ 6) with 64; Z.div_mod_to_equations; lia.
  - rewrite O63, Z.land_ones by lia. apply Z.mod_pos_bound. reflexivity.
  - apply lor_ge_128; [now apply Z.lor_nonneg| |left].
    + change (2 ^ 6) with 64; Z.div_mod_to_equations; lia.
    + apply lor_ge_128; trivial.
      repeat match type of F with
             | (if ?x then _ else _) = _ => destruct x eqn:?
             end; inversion F; subst; try discriminate;
      change (2 ^ 3) with 8; change (2 ^ 18) with 262144;
      change (2 ^ 6) with 64; change (2 ^ 12) with 4096;
      Z.div_mod_to_equations; lia.
Qed.

(** ** The lines of the items *)

Lemma nlcount_app a b : nlcount (a ++ b) = nlcount a + nlcount b.
Proof. induction a as [|c a IH]; simpl; [reflexivity|]. rewrite IH. lia. Qed.

Lemma nlcount_nonneg s : 0 <= nlcount s.
Proof. induction s as [|c s IH]; simpl; [lia|]. destruct (isNl c); lia. Qed.

Lemma nlcount_nlfree s : nlfree s = true -> nlcount s = 0.
Proof.
  induction s as [|c s IH]; simpl; [reflexivity|].
  intros H. apply andb_true_iff in H. destruct H as [A B].
  apply negb_true_iff in A. rewrite A, (IH B). reflexivity.
Qed.

Lemma nlcount_substring s : forall n m, nlcount (substring n m s) <= nlcount s.
Proof.
  induction s as [|c s IH]; intros n m.
  - destruct n, m; simpl; lia.
  - pose proof (nlcount_nonneg s).
    destruct n as [|n]; [destruct m as [|m]|]; simpl.
    + destruct (isNl c); lia.
    + specialize (IH O m). destruct (isNl c); lia.
    + specialize (IH n m). destruct (isNl c); lia.
Qed.

Lemma lineAt_add inp p w :
  0 <= p -> 0 <= w ->
  lineAt inp (p + w)
  = lineAt inp p + nlcount (substring 0 (Z.to_nat w) (from inp p)).
Proof.
  intros Hp Hw. unfold lineAt, from.
  replace (Z.to_nat (p + w)) with (Z.to_nat p + Z.to_nat w)%nat by lia.
  rewrite substring_split, nlcount_app. cbn [Nat.add].
  rewrite (substring_drop inp (Z.to_nat p) (Z.to_nat w)). lia.
Qed.

Lemma lineAt_mono inp p q : 0 <= p -> p <= q -> lineAt inp p <= lineAt inp q.
Proof.
  intros Hp Hq. replace q with (p + (q - p)) by lia.
  rewrite lineAt_add by lia.
  pose proof (nlcount_nonneg
                (substring 0 (Z.to_nat (q - p)) (from inp p))). lia.
Qed.

Lemma lineAt_range inp p : 1 <= lineAt inp p <= 1 + nlcount inp.
Proof.
  unfold lineAt. pose proof (nlcount_nonneg (substring 0 (Z.to_nat p) inp)).
  pose proof (nlcount_substring inp 0 (Z.to_nat p)). lia.
Qed.

Lemma isNl_iff c : isNl c = true <-> byte_of c = 10.
Proof.
  split; [apply isNl_byte|].
  intros H. unfold isNl. apply Ascii.eqb_eq.
  rewrite <- (ascii_nat_embedding c). unfold byte_of in H.
  replace (nat_of_ascii c) with 10%nat by lia. reflexivity.
Qed.

(** The rune [DecodeRuneInString] reads is a line feed exactly when its
    first byte is one. *)
Lemma Decode_nl c t :
  (fst (Go.DecodeRuneInString (String c t)) =? 10) = isNl c.
Proof.
  pose proof (Decode_first c t) as D.
  destruct (Go.DecodeRuneInString (String c t)) as [r w].
  destruct D as (_ & A & B). simpl.
  destruct (isNl c) eqn:E.
  - apply isNl_iff in E. destruct (A ltac:(lia)) as [-> _].
    rewrite E. reflexivity.
  - apply Z.eqb_neq. intros R.
    assert (byte_of c <> 10).
    { intros Q. apply isNl_iff in Q. congruence. }
    destruct (Z_lt_ge_dec (byte_of c) 128) as [L|G].
    + destruct (A L) as [-> _]. contradiction.
    + specialize (B ltac:(lia)). lia.
Qed.

(** The bytes of the rune read hold one line feed when the rune is one,
    and none otherwise. *)
Lemma nlcount_rune c t :
  let '(r, w) := Go.DecodeRuneInString (String c t) in
  nlcount (substring 0 (Z.to_nat w) (String c t))
  = if r =? 10 then 1 else 0.
Proof.
  pose proof (Decode_first c t) as D. pose proof (Decode_nl c t) as N.
  destruct (Go.DecodeRuneInString (String c t)) as [r w] eqn:E.
  simpl in N. rewrite N.
  destruct (isNl c) eqn:I.
  - apply isNl_iff in I. destruct D as (_ & A & _).
    destruct (A ltac:(lia)) as [_ ->]. simpl. rewrite substring_zero.
    apply isNl_iff in I. rewrite I. reflexivity.
  - apply nlcount_nlfree.
    apply (Decode_nlfree _ _ _ E).
    unfold nl, chr. rewrite HasPrefix_cons, HasPrefix_empty, andb_true_r.
    unfold isNl in I. now rewrite Ascii.eqb_sym.
Qed.

Lemma get_drop s : forall n,
  String.get n s = match drop n s with
                   | String c _ => Some c
                   | EmptyString => None
                   end.
Proof.
  induction s as [|c s IH]; intros n.
  - now destruct n.
  - destruct n as [|n]; simpl; [reflexivity|apply IH].
Qed.

Lemma from_nonempty inp p :
  0 <= p -> p < len inp -> exists c t, from inp p = String c t.
Proof.
  intros Hp Hl. unfold from.
  destruct (drop (Z.to_nat p) inp) as [|c t] eqn:E; [|eauto].
  apply drop_nil_length in E. unfold len in Hl. lia.
Qed.

Lemma nondecreasing_app k a b :
  nondecreasing k (a ++ b)
  = nondecreasing k a && nondecreasing (lastOr k a) b.
Proof.
  revert k. induction a as [|x a IH]; intros k; simpl; [reflexivity|].
  now rewrite IH, andb_assoc.
Qed.

Lemma lastOr_app k a b : lastOr k (a ++ b) = lastOr (lastOr k a) b.
Proof. revert k. induction a as [|x a IH]; intros k; simpl; auto. Qed.

Lemma nondecreasing_lastOr ls : forall k,
  nondecreasing k ls = true -> k <= lastOr k ls.
Proof.
  induction ls as [|x ls IH]; intros k H; simpl in *; [lia|].
  apply andb_true_iff in H. destruct H as [A B].
  apply Z.leb_le in A. specialize (IH x B). lia.
Qed.

Lemma next_line l :
  0 <= pos l -> lline l = lineAt (input l) (pos l) ->
  lline (next_ l) = lineAt (input l) (pos (next_ l)).
Proof.
  intros Hp Hl. unfold next_, next.
  destruct (pos l >=? len (input l)) eqn:G; [exact Hl|].
  destruct (from_nonempty (input l) (pos l) Hp) as [c [t E]]; [lia|].
  rewrite E. pose proof (nlcount_rune c t) as N.
  pose proof (Decode_first c t) as D.
  destruct (Go.DecodeRuneInString (String c t)) as [r w].
  destruct D as [W _].
  assert (A : lineAt (input l) (pos l + w)
              = lline l + if r =? 10 then 1 else 0).
  { rewrite lineAt_add, E, N by lia. lia. }
  destruct (r =? 10); simpl; lia.
Qed.

Lemma backup_next_line l :
  0 <= pos l -> lline (backup (next_ l)) = lline l.
Proof.
  intros Hp. unfold next_, next.
  destruct (pos l >=? len (input l)) eqn:G.
  { unfold backup. simpl. rewrite Z.sub_0_r.
    replace (pos l <? len (input l)) with false by lia. reflexivity. }
  destruct (from_nonempty (input l) (pos l) Hp) as [c [t E]]; [lia|].
  rewrite E. pose proof (Decode_nl c t) as N.
  destruct (Go.DecodeRuneInString (String c t)) as [r w]. simpl in N.
  assert (B : byte_at (input l) (pos l) = byte_of c).
  { unfold byte_at. rewrite get_drop. unfold from in E. now rewrite E. }
  assert (C : (byte_of c =? 10) = isNl c).
  { destruct (isNl c) eqn:I.
    - apply isNl_iff in I. now rewrite I.
    - apply Z.eqb_neq. intros Q. apply isNl_iff in Q. congruence. }
  unfold backup.
  destruct (r =? 10); simpl;
    replace (pos l + w - w) with (pos l) by lia;
    replace (pos l <? len (input l)) with true by lia;
    rewrite B, C, <- N; simpl; lia.
Qed.

Lemma lineInv_next inp k l : lineInv inp k l -> lineInv inp k (next_ l).
Proof.
  intros (I & S0 & S1 & L & N & M).
  destruct (next_fields l) as (A & B & C & D & _).
  unfold lineInv. rewrite A, B, C. repeat split; trivial; try lia.
  subst inp. apply next_line; lia.
Qed.

Lemma lineInv_backup_next inp k l :
  lineInv inp k l -> lineInv inp k (backup (next_ l)).
Proof.
  intros (I & S0 & S1 & L & N & M).
  destruct (backup_next_fields l) as (A & B & C & D).
  unfold lineInv. rewrite A, B, C, D, backup_next_line by lia.
  repeat split; trivial.
Qed.

Lemma lineInv_ignore inp k l : lineInv inp k l -> lineInv inp k (ignore l).
Proof.
  intros (I & S0 & S1 & L & N & M). unfold lineInv. simpl.
  repeat split; trivial; try lia.
  pose proof (lineAt_mono inp (start l) (pos l) S0 S1). lia.
Qed.

(** An item sent with the line of the position. *)
Lemma lineInv_send inp k l t v :
  lineInv inp k l ->
  lineInv inp k (set_start (send l (mkItem t v (lline l))) (pos l)).
Proof.
  intros (I & S0 & S1 & L & N & M). unfold lineInv. simpl.
  rewrite map_app, nondecreasing_app, lastOr_app, N. simpl.
  pose proof (lineAt_mono inp (start l) (pos l) S0 S1).
  repeat split; trivial; lia.
Qed.

Lemma lineInv_emit inp k l t : lineInv inp k l -> lineInv inp k (emit t l).
Proof. apply lineInv_send. Qed.

Lemma lineInv_emitTrim inp k l t :
  lineInv inp k l -> lineInv inp k (emitTrim t l).
Proof. apply lineInv_send. Qed.

(** A command or a link: [backup], [emitCustom], [next], [ignore]. *)
Lemma lineInv_custom inp k l t d :
  lineInv inp k l ->
  lineInv inp k (ignore (next_ (emitCustom t d (backup (next_ l))))).
Proof.
  intros H. apply lineInv_backup_next in H.
  set (l1 := backup (next_ l)) in *.
  assert (G : lineInv inp k
                (set_start (send l1 (mkItem t d (lline l1))) (pos l1)))
    by now apply lineInv_send.
  apply lineInv_next in G.
  destruct G as (I & S0 & S1 & L & N & M).
  destruct (next_fields (set_start (send l1 (mkItem t d (lline l1))) (pos l1)))
    as (A & B & C & D & _).
  destruct (next_fields (emitCustom t d l1)) as (A' & B' & C' & D' & _).
  assert (P : pos (next_ (emitCustom t d l1))
              = pos (next_ (set_start (send l1 (mkItem t d (lline l1)))
                                      (pos l1)))).
  { unfold next_, next, emitCustom. simpl.
    destruct (pos l1 >=? len (input l1)); [reflexivity|].
    destruct (Go.DecodeRuneInString (from (input l1) (pos l1))) as [r w].
    now destruct (r =? 10). }
  assert (Q : lline (next_ (emitCustom t d l1))
              = lline (next_ (set_start (send l1 (mkItem t d (lline l1)))
                                        (pos l1)))).
  { unfold next_, next, emitCustom. simpl.
    destruct (pos l1 >=? len (input l1)); [reflexivity|].
    destruct (Go.DecodeRuneInString (from (input l1) (pos l1))) as [r w].
    now destruct (r =? 10). }
  unfold lineInv. cbn [ignore set_start input start pos lline items].
  rewrite A', C', P, Q. cbn [emitCustom input items send] in *.
  rewrite A, C in *. cbn [set_start send input items start] in *.
  rewrite B in *. cbn [set_start start] in *.
  repeat split; trivial; try lia.
  pose proof (lineAt_mono inp (pos l1) _ ltac:(lia) S1). lia.
Qed.

Lemma prefix_substring p : forall s,
  HasPrefix s p = true -> substring 0 (String.length p) s = p.
Proof.
  induction p as [|a p IH]; intros s H.
  - simpl. now destruct s.
  - destruct s as [|c s]; [discriminate|].
    rewrite HasPrefix_cons in H. apply andb_true_iff in H.
    destruct H as [E H]. apply Ascii.eqb_eq in E. subst.
    simpl. now rewrite (IH s H).
Qed.

(** A marker without a line feed is skipped. *)
Lemma lineInv_skip inp k l p :
  lineInv inp k l -> at_prefix l p = true -> nlfree p = true ->
  lineInv inp k (set_pos l (pos l + len p)).
Proof.
  intros (I & S0 & S1 & L & N & M) H F. unfold lineInv. simpl.
  assert (0 <= len p) by (unfold len; lia).
  repeat split; trivial; try lia.
  rewrite lineAt_add by lia. unfold at_prefix in H. subst inp.
  unfold len. rewrite Nat2Z.id, (prefix_substring p _ H).
  rewrite (nlcount_nlfree p F). lia.
Qed.

Ltac split_ifs_eq :=
  cbv beta iota zeta;
  repeat (match goal with
          | |- context [if ?c then _ else _] => destruct c eqn:?
          end; cbv beta iota zeta).

Ltac line_step :=
  lazymatch goal with
  | |- lineInv _ _ (ignore (next_ (emitCustom _ _ (backup (next_ _))))) =>
    apply lineInv_custom
  | |- lineInv _ _ (ignore _) => apply lineInv_ignore
  | |- lineInv _ _ (next_ _) => apply lineInv_next
  | |- lineInv _ _ (backup (next_ _)) => apply lineInv_backup_next
  | |- lineInv _ _ (emit _ _) => apply lineInv_emit
  | |- lineInv _ _ (emitTrim _ _) => apply lineInv_emitTrim
  | |- lineInv _ _ (set_pos _ (_ + 5)) =>
    change 5 with (len annex);
    apply lineInv_skip; [|assumption|reflexivity]
  | |- lineInv _ _ (set_pos _ _) =>
    apply lineInv_skip; [|assumption|reflexivity]
  | |- lineInv _ _ _ => assumption
  | |- tableOk (Some (lexTableTitle _)) _ =>
    cbn [tableOk]; split; [reflexivity|assumption]
  | |- tableOk (Some _) _ => cbn [tableOk]; split; [reflexivity|exact I]
  | |- tableOk None _ => exact I
  | |- _ /\ _ => split
  end.

Ltac line_case := cbv beta iota zeta; repeat line_step.

(** A round of a state function keeps the invariant of the lines, and
    [lexTableTitle] is the next state only at the marker of a table. *)
Lemma body_line inp k st l :
  plainReturn st = true -> lineInv inp k l ->
  match body st l with
  | Continue l' => lineInv inp k l'
  | Return l' nxt => lineInv inp k l' /\ tableOk nxt l'
  end.
Proof.
  intros Hs H.
  destruct st as [| | | | |fn|fn|fn|fn|fn|cmd fn|fn|text fn];
    cbn [plainReturn] in Hs;
    try (destruct fn; try discriminate Hs); cbn [body].
  all: unfold lexText_body, lexHeading_body, lexListItem_body, lexBold_body,
    lexEm_body, lexTableTitle_body, lexTable_body, lexCmdName_body,
    lexCmdArgs_body, lexLinkHead_body, lexLinkTail_body, flush, flush_before.
  all: try rewrite next_snd.
  all: split_ifs_eq; line_case.
Qed.

Lemma loop_line inp k f : forall st l l' nxt,
  plainReturn st = true -> lineInv inp k l ->
  loop f st l = Done (l', nxt) ->
  lineInv inp k l' /\ tableOk nxt l'.
Proof.
  induction f as [|f IH]; intros st l l' nxt Hs H E; simpl in E;
    [discriminate|].
  pose proof (body_line inp k st l Hs H) as B.
  destruct (body st l) as [l1|l1 nxt1].
  - exact (IH st l1 l' nxt Hs B E).
  - inversion E; subst. exact B.
Qed.

Lemma enter_line inp k st l :
  tableOk (Some st) l -> lineInv inp k l -> lineInv inp k (enter st l).
Proof.
  intros [_ T] H. destruct st; cbn [enter]; line_case.
Qed.

Lemma call_line inp k f st l l' nxt :
  tableOk (Some st) l -> lineInv inp k l ->
  call f st l = Done (l', nxt) ->
  lineInv inp k l' /\ tableOk nxt l'.
Proof.
  intros T H E. unfold call in E.
  apply (loop_line inp k f st (enter st l) l' nxt); trivial.
  - exact (proj1 T).
  - now apply enter_line.
Qed.

(** The item received is not before the one received last, and the items
    to come are not before it. *)
Lemma nextItem_line inp f : forall k l it l',
  lineInv inp k l -> tableOk (state l) l ->
  nextItem f l = Done (it, l') ->
  k <= line it /\ line it <= 1 + nlcount inp /\
  lineInv inp (line it) l' /\ tableOk (state l') l'.
Proof.
  assert (Q : forall k l it q,
             lineInv inp k l -> tableOk (state l) l -> items l = it :: q ->
             k <= line it /\ line it <= 1 + nlcount inp /\
             lineInv inp (line it) (set_items l q)
             /\ tableOk (state (set_items l q)) (set_items l q)).
  { intros k l it q (I & S0 & S1 & L & N & M) T Hq. rewrite Hq in N, M.
    cbn [map nondecreasing lastOr] in N, M.
    apply andb_true_iff in N. destruct N as [N1 N2].
    apply Z.leb_le in N1.
    pose proof (nondecreasing_lastOr _ _ N2).
    pose proof (lineAt_range inp (start l)).
    split; [exact N1|]. split; [lia|]. split; [|exact T].
    unfold lineInv. cbn [set_items input start pos lline items].
    repeat split; trivial. }
  induction f as [|f IH]; intros k l it l' H T E; simpl in E.
  - destruct (items l) as [|x q] eqn:Hq; [discriminate|].
    inversion E; subst. now apply Q.
  - destruct (items l) as [|x q] eqn:Hq.
    + destruct (state l) as [st|] eqn:Es; [|discriminate].
      destruct (call f st l) as [[l1 nxt]| |] eqn:C; try discriminate.
      destruct (call_line inp k f st l l1 nxt T H C) as [H1 T1].
      apply (IH k (set_state l1 nxt)); [exact H1|exact T1|exact E].
    + inversion E; subst. now apply Q.
Qed.

Lemma tokens_line inp f : forall k l its last,
  lineInv inp k l -> tableOk (state l) l ->
  tokens f l = Done (its, last) ->
  nondecreasing k (map line (its ++ [last])) = true /\
  Forall (fun it => line it <= 1 + nlcount inp) (its ++ [last]).
Proof.
  induction f as [|f IH]; intros k l its last H T E; simpl in E;
    [discriminate|].
  destruct (nextItem f l) as [[it l1]| |] eqn:N; try discriminate.
  destruct (nextItem_line inp f k l it l1 H T N) as (A & B & H1 & T1).
  assert (R : match tokens f l1 with
              | Done (its0, last0) => Done (it :: its0, last0)
              | OutOfFuel => OutOfFuel
              | Panic => Panic
              end = Done (its, last) ->
              nondecreasing k (map line (its ++ [last])) = true /\
              Forall (fun it => line it <= 1 + nlcount inp) (its ++ [last])).
  { destruct (tokens f l1) as [[its0 last0]| |] eqn:T0; try discriminate.
    intros R. inversion R; subst.
    destruct (IH (line it) l1 its0 last H1 T1 T0) as [C D].
    split.
    - cbn [app map nondecreasing]. rewrite C.
      apply andb_true_iff. split; [now apply Z.leb_le|reflexivity].
    - cbn [app]. now constructor. }
  destruct (typ it); try (exact (R E)); inversion E; subst;
    (split; [cbn; apply andb_true_iff; split;
             [now apply Z.leb_le|reflexivity]
            |repeat constructor; exact B]).
Qed.

(** X14. The lines of the items of the stream never decrease, they start
    from 1, and none is above the number of lines of the input (one more
    than its line feeds). *)
Theorem X14_item_lines_never_decrease fuel inp its last :
  tokens fuel (lex inp) = Done (its, last) ->
  nondecreasing 1 (map line (its ++ [last])) = true /\
  Forall (fun it => line it <= 1 + nlcount inp) (its ++ [last]).
Proof.
  apply tokens_line.
  - unfold lineInv, lineAt. cbn. rewrite substring_zero. cbn.
    repeat split; lia.
  - cbn. auto.
Qed.

Lemma X14_witness :
  nondecreasing 1 (map line (listStream ++ [mkItem itemEOF "" 5])) = true /\
  Forall (fun it => line it <= 1 + nlcount listInput)
         (listStream ++ [mkItem itemEOF "" 5]).
Proof.
  apply (X14_item_lines_never_decrease 40 listInput listStream
           (mkItem itemEOF "" 5)).
  vm_compute. reflexivity.
Defined.

(** ** The lexer returns on an input without sub-lexers *)

Lemma noSubLexer_tail c t : noSubLexer (String c t) = true -> noSubLexer t = true.
Proof.
  cbn [noSubLexer]. intros H. apply andb_true_iff in H. tauto.
Qed.

Lemma noSubLexer_drop s : forall n,
  noSubLexer s = true -> noSubLexer (drop n s) = true.
Proof.
  induction s as [|c s IH]; intros n H.
  - now destruct n.
  - destruct n as [|n]; [exact H|]. simpl. apply IH.
    exact (noSubLexer_tail c s H).
Qed.

Lemma drop_drop s : forall n m, drop m (drop n s) = drop (n + m) s.
Proof.
  induction s as [|c s IH]; intros n m.
  - destruct n, m; reflexivity.
  - destruct n as [|n]; [reflexivity|]. simpl. apply IH.
Qed.

Lemma simpleAt_ahead d l l' :
  0 <= d -> simpleAt l -> ahead d l l' -> simpleAt l'.
Proof.
  intros Hd [P S] [I A]. split; [lia|]. rewrite I. unfold from in *.
  replace (Z.to_nat (pos l')) with (Z.to_nat (pos l)
                                    + Z.to_nat (pos l' - pos l))%nat by lia.
  rewrite <- drop_drop. now apply noSubLexer_drop.
Qed.

Lemma rest_ahead d l l' :
  0 <= d -> ahead d l l' -> (rest l' <= rest l)%nat /\
  (1 <= d -> pos l < len (input l) -> (rest l' < rest l)%nat).
Proof.
  intros Hd [I A]. unfold rest. rewrite I. split; lia.
Qed.

Lemma ahead_refl l : ahead 0 l l.
Proof. split; [reflexivity|lia]. Qed.

Lemma ahead_weaken d l l' : ahead d l l' -> 0 <= d -> ahead 0 l l'.
Proof. intros [I A] H. split; [exact I|lia]. Qed.

Lemma ahead_next d l l' : ahead d l l' -> ahead d l (next_ l').
Proof.
  intros [I A]. destruct (next_fields l') as (B & _ & _ & D & _).
  split; [congruence|lia].
Qed.

Lemma next_advances l :
  0 <= pos l -> pos l < len (input l) -> pos l + 1 <= pos (next_ l).
Proof.
  intros Hp Hl. unfold next_, next.
  replace (pos l >=? len (input l)) with false by lia.
  destruct (from_nonempty (input l) (pos l) Hp Hl) as [c [t E]].
  rewrite E. pose proof (Decode_first c t) as D.
  destruct (Go.DecodeRuneInString (String c t)) as [r w].
  destruct D as [W _]. destruct (r =? 10); simpl; lia.
Qed.

(** The first [next] after the start of the round, before the end of the
    input. *)
Lemma ahead_next_first l l' :
  ahead 0 l l' -> 0 <= pos l -> pos l' < len (input l') ->
  ahead 1 l (next_ l').
Proof.
  intros [I A] P L. destruct (next_fields l') as (B & _).
  pose proof (next_advances l' ltac:(lia) L).
  split; [congruence|lia].
Qed.

Lemma ahead_backup_next d l l' :
  ahead d l l' -> ahead d l (backup (next_ l')).
Proof.
  intros [I A]. destruct (backup_next_fields l') as (B & _ & _ & D).
  split; [congruence|lia].
Qed.

Lemma ahead_emit d l l' t : ahead d l l' -> ahead d l (emit t l').
Proof. exact (fun H => H). Qed.

Lemma ahead_emitTrim d l l' t : ahead d l l' -> ahead d l (emitTrim t l').
Proof. exact (fun H => H). Qed.

Lemma ahead_ignore d l l' : ahead d l l' -> ahead d l (ignore l').
Proof. exact (fun H => H). Qed.

Lemma ahead_skip l l' n :
  ahead 0 l l' -> 1 <= n -> ahead 1 l (set_pos l' (pos l' + n)).
Proof. intros [I A] H. split; [exact I|simpl; lia]. Qed.

Lemma prefix_lt l p c :
  0 <= pos l -> at_prefix l (String c p) = true -> pos l < len (input l).
Proof.
  intros Hp H. unfold at_prefix, from in H.
  destruct (Z_lt_ge_dec (pos l) (len (input l))) as [L|G]; [exact L|].
  rewrite drop_length_nil in H by (unfold len in G; lia). discriminate.
Qed.

Lemma next_not_eof l :
  (fst (next l) =? eof) = false -> pos l < len (input l).
Proof.
  unfold next. destruct (Z.geb_spec (pos l) (len (input l))) as [G|L];
    [discriminate|intros _; lia].
Qed.

(** On a simple rest of the input no table and no emphasis starts, and
    [next] reads no rune that starts a command, a bold text or a link. *)
Lemma simpleAt_no_trigger l :
  simpleAt l ->
  at_prefix l table = false /\ at_prefix l emSymbol = false /\
  (fst (next l) =? cmdStart) = false /\
  (fst (next l) =? boldRune) = false /\ (fst (next l) =? 91) = false.
Proof.
  intros [P S]. unfold at_prefix, next.
  destruct (Z.geb_spec (pos l) (len (input l))) as [G|L].
  { unfold from. rewrite drop_length_nil by (unfold len in G; lia).
    repeat split. }
  destruct (from_nonempty (input l) (pos l) P L) as [c [t E]].
  rewrite E in *. cbn [noSubLexer] in S.
  repeat (apply andb_true_iff in S; destruct S as [S ?]).
  repeat match goal with
         | H : negb _ = true |- _ => apply negb_true_iff in H
         end.
  pose proof (Decode_first c t) as D.
  destruct (Go.DecodeRuneInString (String c t)) as [r w].
  destruct D as (_ & A & B).
  assert (R : r <> cmdStart /\ r <> boldRune /\ r <> 91).
  { unfold cmdStart, boldRune in *.
    destruct (Z_lt_ge_dec (byte_of c) 128) as [Lo|Hi].
    - destruct (A Lo) as [-> _]. lia.
    - specialize (B ltac:(lia)). lia. }
  repeat split; trivial;
    destruct (r =? 10); simpl; apply Z.eqb_neq; tauto.
Qed.

Ltac adv :=
  lazymatch goal with
  | |- ahead _ _ (ignore _) => apply ahead_ignore; adv
  | |- ahead _ _ (emit _ _) => apply ahead_emit; adv
  | |- ahead _ _ (emitTrim _ _) => apply ahead_emitTrim; adv
  | |- ahead _ _ (backup (next_ _)) => apply ahead_backup_next; adv
  | |- ahead 0 ?l ?l => apply ahead_refl
  | |- ahead 0 _ (next_ _) => apply ahead_next; adv
  | |- ahead 1 _ (next_ _) =>
    first [ apply ahead_next; adv
          | apply ahead_next_first; [adv|assumption|assumption] ]
  | |- ahead 1 _ (set_pos _ _) => apply ahead_skip; [adv|lia]
  end.

(** The work left after a round that returns, given how far it read. *)
Ltac work_strict l X :=
  let A := fresh "A" in
  assert (A : ahead 1 l X) by adv;
  let R := fresh "R" in
  pose proof (rest_ahead 1 l X ltac:(lia) A) as R;
  split; [reflexivity|];
  split; [apply (ahead_weaken 1); [exact A|lia]|];
  cbn [work]; lia.

Ltac work_weak l X :=
  let A := fresh "A" in
  assert (A : ahead 0 l X) by adv;
  let R := fresh "R" in
  pose proof (rest_ahead 0 l X ltac:(lia) A) as R;
  split; [reflexivity || exact I|];
  split; [exact A|];
  cbn [work]; lia.

Ltac progress_case l :=
  lazymatch goal with
  | |- ahead 1 _ ?X /\ _ => split; [adv|assumption]
  | |- gathersOpt _ /\ ahead 0 _ ?X /\ _ =>
    first [ work_strict l X | work_weak l X ]
  end.

Lemma prefix_lt_section l :
  0 <= pos l -> at_prefix l section = true -> pos l < len (input l).
Proof. exact (prefix_lt l _ _). Qed.

Lemma prefix_lt_chapter l :
  0 <= pos l -> at_prefix l chapter = true -> pos l < len (input l).
Proof. exact (prefix_lt l _ _). Qed.

Lemma prefix_lt_annex l :
  0 <= pos l -> at_prefix l annex = true -> pos l < len (input l).
Proof. exact (prefix_lt l _ _). Qed.

Lemma prefix_lt_listElement l :
  0 <= pos l -> at_prefix l listElement = true -> pos l < len (input l).
Proof. exact (prefix_lt l _ _). Qed.

Lemma prefix_lt_newLine l :
  0 <= pos l -> at_prefix l newLine = true -> pos l < len (input l).
Proof. exact (prefix_lt l _ _). Qed.

(** A round of a state that gathers text, on a simple rest of the input:
    either it goes on, one rune further, or it returns to a state that
    gathers text with less work left. *)
Lemma body_progress st l :
  gathers st = true -> simpleAt l ->
  match body st l with
  | Continue l' => ahead 1 l l' /\ pos l < len (input l)
  | Return l' nxt =>
    gathersOpt nxt /\ ahead 0 l l'
    /\ (work nxt l' < work (Some st) l)%nat
  end.
Proof.
  intros G Hs.
  destruct (simpleAt_no_trigger l Hs) as (T1 & T2 & T3 & T4 & T5).
  pose proof (proj1 Hs) as P0.
  destruct st; try discriminate G; cbn [body];
    unfold lexText_body, lexHeading_body, lexListItem_body, flush,
      flush_before;
    rewrite next_snd; cbv beta iota zeta;
    rewrite ?T1, ?T2, ?T3, ?T4, ?T5; cbv beta iota zeta.
  all: repeat (match goal with
               | |- context [if ?c then _ else _] =>
                 let E := fresh "E" in
                 destruct c eqn:E;
                 try first
                   [ apply (prefix_lt_section l P0) in E
                   | apply (prefix_lt_chapter l P0) in E
                   | apply (prefix_lt_annex l P0) in E
                   | apply (prefix_lt_listElement l P0) in E
                   | apply (prefix_lt_newLine l P0) in E
                   | apply (next_not_eof l) in E ]
               end; cbv beta iota zeta).
  all: progress_case l.
Qed.

Lemma ahead_trans l l1 l2 : ahead 0 l l1 -> ahead 0 l1 l2 -> ahead 0 l l2.
Proof. intros [I A] [I' A']. split; [congruence|lia]. Qed.

Lemma work_rest st l l' :
  (rest l' <= rest l)%nat -> (work st l' <= work st l)%nat.
Proof.
  intros H. destruct st as [st|]; [|reflexivity].
  destruct st; cbn [work]; lia.
Qed.

(** The loop of a state that gathers text returns. *)
Lemma loop_returns st : forall n l,
  (rest l <= n)%nat -> gathers st = true -> simpleAt l ->
  exists f l' nxt,
    loop f st l = Done (l', nxt) /\ gathersOpt nxt /\ ahead 0 l l'
    /\ (work nxt l' < work (Some st) l)%nat.
Proof.
  induction n as [|n IH]; intros l Hn G Hs;
    pose proof (body_progress st l G Hs) as B;
    destruct (body st l) as [l1|l1 nxt1] eqn:E.
  - destruct B as [A L]. unfold rest in Hn. lia.
  - exists 1%nat, l1, nxt1. cbn [loop]. rewrite E. auto.
  - destruct B as [A L].
    destruct (rest_ahead 1 l l1 ltac:(lia) A) as [R1 R2].
    specialize (R2 ltac:(lia) L).
    assert (A0 : ahead 0 l l1) by (apply (ahead_weaken 1); [exact A|lia]).
    destruct (IH l1 ltac:(lia) G (simpleAt_ahead 0 l l1 ltac:(lia) Hs A0))
      as (f & l' & nxt & Ef & Gn & A' & W).
    exists (S f), l', nxt. cbn [loop]. rewrite E.
    split; [exact Ef|]. split; [exact Gn|].
    split; [exact (ahead_trans _ _ _ A0 A')|].
    pose proof (work_rest (Some st) l l1 R1). lia.
  - exists 1%nat, l1, nxt1. cbn [loop]. rewrite E. auto.
Qed.

Ltac safe_case :=
  sent_items;
  first
    [ reflexivity
    | exists []; split; [now rewrite app_nil_r|reflexivity]
    | eexists; split; [rewrite <- ?app_assoc; reflexivity|reflexivity] ].

(** A state that gathers text sends no command. *)
Lemma body_gather_safe st l :
  gathers st = true ->
  match body st l with
  | Continue l' => items l' = items l
  | Return l' _ =>
    exists emitted,
      items l' = (items l ++ emitted)%list /\ forallb safeItem emitted = true
  end.
Proof.
  intros G. destruct st; try discriminate G; simpl.
  - unfold lexText_body, flush, flush_before. rewrite next_snd.
    split_ifs; safe_case.
  - unfold lexHeading_body. rewrite next_snd. split_ifs; safe_case.
  - unfold lexHeading_body. rewrite next_snd. split_ifs; safe_case.
  - unfold lexHeading_body. rewrite next_snd. split_ifs; safe_case.
  - unfold lexListItem_body, flush, flush_before. rewrite next_snd.
    split_ifs; safe_case.
Qed.

Lemma loop_gather_safe f : forall st l l' nxt,
  gathers st = true -> forallb safeItem (items l) = true ->
  loop f st l = Done (l', nxt) -> forallb safeItem (items l') = true.
Proof.
  induction f as [|f IH]; intros st l l' nxt G H E; simpl in E;
    [discriminate|].
  pose proof (body_gather_safe st l G) as B.
  destruct (body st l) as [l1|l1 nxt1].
  - apply (IH st l1 l' nxt G); [now rewrite B|exact E].
  - inversion E; subst. destruct B as [emitted [B1 B2]].
    now rewrite B1, forallb_app, H, B2.
Qed.

Lemma enter_gathers st l : gathers st = true -> enter st l = l.
Proof. destruct st; try discriminate; reflexivity. Qed.

Lemma pop_simple l it q :
  simpleInv l -> items l = it :: q ->
  safeItem it = true /\
  (typ it = itemEOF \/ simpleInv (set_items l q)) /\
  (toDo (set_items l q) < toDo l)%nat.
Proof.
  intros (Hs & Hg & Hn & Hq) E. rewrite E in Hq. cbn [forallb] in Hq.
  apply andb_true_iff in Hq. destruct Hq as [Hit Hq].
  split; [exact Hit|]. split.
  - assert (K : nilInv (set_items l q) -> simpleInv (set_items l q)).
    { intros K. split; [exact Hs|]. split; [exact Hg|].
      split; [exact K|exact Hq]. }
    destruct (state l) as [st|] eqn:Es.
    + right. apply K. intros N. cbn [set_items state] in N. congruence.
    + specialize (Hn Es). rewrite E in Hn. destruct q as [|y q].
      * left. now apply endsWithEOF_single.
      * right. apply K. intros _. cbn [set_items items].
        apply (endsWithEOF_tail it); [discriminate|exact Hn].
  - unfold toDo. rewrite E. cbn [set_items state items List.length].
    change (work (state l) (set_items l q)) with (work (state l) l). lia.
Qed.

(** [nextItem] returns, and leaves less to do. *)
Lemma nextItem_returns : forall n l,
  (work (state l) l <= n)%nat -> simpleInv l ->
  exists f it l',
    nextItem f l = Done (it, l') /\ safeItem it = true /\
    (typ it = itemEOF \/ simpleInv l') /\ (toDo l' < toDo l)%nat.
Proof.
  induction n as [|n IH]; intros l Hn Hi;
    destruct (items l) as [|x q] eqn:Hq.
  2, 4: exists 0%nat, x, (set_items l q); cbn [nextItem]; rewrite Hq;
        split; [reflexivity|now apply pop_simple].
  all: destruct Hi as (Hs & Hg & Hnil & Hsafe);
    destruct (state l) as [st|] eqn:Es;
    [|destruct (Hnil Es) as (q' & it & E & _); rewrite Hq in E;
      destruct q'; discriminate].
  all: cbn [gathersOpt] in Hg;
    destruct (loop_returns st (rest l) l (le_n _) Hg Hs)
      as (f1 & l1 & nxt & E1 & G1 & A1 & W1).
  - exfalso. lia.
  - assert (Hi2 : simpleInv (set_state l1 nxt)).
    { split; [exact (simpleAt_ahead 0 l l1 ltac:(lia) Hs A1)|].
      split; [exact G1|]. split.
      - intros N. cbn [set_state state items] in *. subst nxt.
        exact (loop_nil f1 st l l1 E1).
      - cbn [set_state items].
        apply (loop_gather_safe f1 st l l1 nxt Hg); [now rewrite Hq|exact E1]. }
    destruct (IH (set_state l1 nxt)) as (f2 & it & l' & E2 & S2 & D2 & T2);
      [cbn [set_state state];
       change (work nxt (set_state l1 nxt)) with (work nxt l1); lia
      |exact Hi2|].
    exists (S (Nat.max f1 f2)), it, l'. cbn [nextItem]. rewrite Hq, Es.
    unfold call. rewrite (enter_gathers st l Hg).
    rewrite (loop_mono st f1 (Nat.max f1 f2) l _ E1) by (discriminate || lia).
    rewrite (nextItem_mono f2 (Nat.max f1 f2) _ _ E2) by (discriminate || lia).
    split; [reflexivity|]. split; [exact S2|]. split; [exact D2|].
    pose proof (loop_sends_at_most_three f1 st l l1 nxt E1) as C.
    rewrite Hq in C. unfold toDo in *. rewrite Hq, Es.
    cbn [set_state state items List.length] in *.
    change (work nxt (set_state l1 nxt)) with (work nxt l1) in T2. lia.
Qed.

(** The loop of [Build] receives its last item. *)
Lemma tokens_returns : forall n l,
  (toDo l <= n)%nat -> simpleInv l ->
  exists f its last,
    tokens f l = Done (its, last) /\ forallb safeItem its = true.
Proof.
  induction n as [|n IH]; intros l Hn Hi;
    destruct (nextItem_returns (work (state l) l) l (le_n _) Hi)
      as (f1 & it & l' & E1 & S1 & D1 & T1).
  - exfalso. lia.
  - assert (Last : (typ it = itemEOF \/ typ it = itemError) ->
                   exists f its last,
                     tokens f l = Done (its, last)
                     /\ forallb safeItem its = true).
    { intros Ht. exists (S f1), [], it. cbn [tokens]. rewrite E1.
      destruct Ht as [-> | ->]; auto. }
    assert (More : typ it <> itemEOF -> typ it <> itemError ->
                   exists f its last,
                     tokens f l = Done (its, last)
                     /\ forallb safeItem its = true).
    { intros N1 N2. destruct D1 as [D1|D1]; [contradiction|].
      destruct (IH l' ltac:(lia) D1) as (f2 & its & last & E2 & S2).
      exists (S (Nat.max f1 f2)), (it :: its), last. cbn [tokens].
      rewrite (nextItem_mono f1 (Nat.max f1 f2) _ _ E1)
        by (discriminate || lia).
      rewrite (tokens_mono f2 (Nat.max f1 f2) _ _ E2)
        by (discriminate || lia).
      cbn [forallb]. rewrite S1, S2.
      destruct (typ it); try contradiction; auto. }
    destruct (typ it) eqn:Et;
      first [ apply Last; auto; fail | apply More; discriminate ].
Qed.

Lemma lex_simpleInv inp : noSubLexer inp = true -> simpleInv (lex inp).
Proof.
  intros H. repeat split; cbn; try lia; try discriminate.
  exact H.
Qed.

(** X15. The lexer returns on every input in which no byte starts a bold
    text, an emphasis, a command, a link or a table: with enough rounds the
    loop of [Build] receives all the items, up to the final [itemEOF]. *)
Theorem X15_lexer_returns_without_sub_lexers inp :
  noSubLexer inp = true ->
  exists fuel its last,
    tokens fuel (lex inp) = Done (its, last) /\ typ last = itemEOF.
Proof.
  intros H.
  destruct (tokens_returns (toDo (lex inp)) (lex inp) (le_n _)
              (lex_simpleInv inp H)) as (f & its & last & E & _).
  exists f, its, last. split; [exact E|].
  exact (lexer_sends_no_error f inp its last E).
Qed.

Lemma X15_witness :
  exists fuel its last,
    tokens fuel (lex listInput) = Done (its, last) /\ typ last = itemEOF.
Proof.
  apply (X15_lexer_returns_without_sub_lexers listInput). reflexivity.
Defined.

(** ** [Build] returns on an input without sub-lexers *)

Lemma HasPrefix_escape p : forall s,
  forallb (fun c => negb (Ascii.eqb c "%")) (list_ascii_of_string p) = true ->
  HasPrefix (Go.ReplaceAll s "%" "%%") p = true -> HasPrefix s p = true.
Proof.
  induction p as [|a p IH]; intros s Hp H; [apply HasPrefix_empty|].
  cbn [list_ascii_of_string forallb] in Hp.
  apply andb_true_iff in Hp. destruct Hp as [Ha Hp].
  apply negb_true_iff in Ha.
  destruct s as [|c t]; [discriminate|]. cbn [Go.ReplaceAll] in H.
  destruct (Ascii.eqb c "%") eqn:Ec.
  - cbn [String.append] in H. rewrite HasPrefix_cons in H.
    apply andb_true_iff in H. destruct H as [H _]. congruence.
  - rewrite HasPrefix_cons in *. apply andb_true_iff in H.
    destruct H as [H1 H2]. rewrite H1. exact (IH t Hp H2).
Qed.

(** Doubling the percent signs, as [Build] does, adds no sub-lexer. *)
Lemma noSubLexer_escape s :
  noSubLexer s = true -> noSubLexer (Go.ReplaceAll s "%" "%%") = true.
Proof.
  induction s as [|c t IH]; intros H; [reflexivity|].
  pose proof (IH (noSubLexer_tail c t H)) as R.
  cbn [Go.ReplaceAll]. destruct (Ascii.eqb c "%") eqn:Ec.
  - apply Ascii.eqb_eq in Ec. subst c.
    cbn [String.append]. cbn [noSubLexer]. rewrite R.
    unfold table, emSymbol. rewrite !HasPrefix_cons. reflexivity.
  - cbn [noSubLexer] in *.
    repeat (apply andb_true_iff in H; destruct H as [H ?]).
    repeat (apply andb_true_iff; split); trivial.
    + apply negb_true_iff. apply negb_true_iff in H.
      destruct (HasPrefix (String c (Go.ReplaceAll t "%" "%%")) table) eqn:P;
        [|reflexivity].
      assert (Q : HasPrefix (Go.ReplaceAll (String c t) "%" "%%") table = true)
        by (cbn [Go.ReplaceAll]; now rewrite Ec).
      apply HasPrefix_escape in Q; [congruence|reflexivity].
    + match goal with
      | K : negb (HasPrefix _ emSymbol) = true |- _ =>
        apply negb_true_iff in K; apply negb_true_iff;
        destruct (HasPrefix (String c (Go.ReplaceAll t "%" "%%")) emSymbol)
          eqn:P; [|reflexivity];
        assert (Q : HasPrefix (Go.ReplaceAll (String c t) "%" "%%") emSymbol
                    = true)
          by (cbn [Go.ReplaceAll]; now rewrite Ec);
        apply HasPrefix_escape in Q; [congruence|reflexivity]
      end.
Qed.

(** X16. [Build] returns on every input in which no byte starts a bold
    text, an emphasis, a command, a link or a table: with enough rounds it
    neither runs forever nor panics, it writes its output once and returns
    what the writer returned. *)
Theorem X16_Build_returns_without_sub_lexers inp w config :
  noSubLexer inp = true ->
  exists fuel out,
    Build fuel inp w config
    = Done ([out], match w out with
                   | Some msg => Some (WriteError msg)
                   | None => None
                   end).
Proof.
  intros H. apply noSubLexer_escape in H.
  destruct (tokens_returns _ _ (le_n _) (lex_simpleInv _ H))
    as (f & its & last & E & Hs).
  pose proof (tokens_bar f _ its last E) as Hb.
  assert (F : forallb (fun it => barItem it && safeItem it) its = true).
  { rewrite forallb_forall in *. intros x Hx.
    now rewrite (Hb x Hx), (Hs x Hx). }
  apply assemble_rendered_forallb in F.
  destruct (Builder_run_returns (assemble its) (newBuilder config) F)
    as [b' R].
  exists f, (contentString b'). unfold Build. rewrite E. cbn [bind].
  rewrite (lexer_sends_no_error _ _ _ _ E).
  unfold Builder_Build. rewrite R. cbn [bind].
  now rewrite (Builder_run_err _ _ _ R).
Qed.

Lemma X16_witness :
  exists fuel out,
    Build fuel listInput okWriter (mkConfig true)
    = Done ([out], match okWriter out with
                   | Some msg => Some (WriteError msg)
                   | None => None
                   end).
Proof.
  apply (X16_Build_returns_without_sub_lexers listInput okWriter
           (mkConfig true)).
  reflexivity.
Defined.

(** ** The items before the first heading *)

Lemma assemble_item_sameButItems a a' it :
  sameButItems a a' -> sameButItems (assemble_item a it) (assemble_item a' it).
Proof.
  destruct a as [[i s c x] ch sp ip se], a' as [[i' s' c' x'] ch' sp' ip' se'].
  unfold sameButItems. cbn [document sections items_ Sections Chapters Annexes].
  intros (-> & -> & -> & -> & ->).
  unfold assemble_item. cbn [document sections items_].
  destruct (typ it), ip', sp';
    cbn [add_item add_section document sections items_ Sections Chapters
         Annexes Items];
    repeat split.
Qed.

Lemma fold_sameButItems its : forall a a',
  sameButItems a a' ->
  sameButItems (fold_left assemble_item its a) (fold_left assemble_item its a').
Proof.
  induction its as [|it its IH]; intros a a' H; [exact H|].
  simpl. apply IH. now apply assemble_item_sameButItems.
Qed.

(** Before the first heading, the loop of [Build] only appends to
    [document.Items]. *)
Lemma fold_without_heading pre : forall a,
  forallb (fun it => negb (isHeading (typ it))) pre = true ->
  items_ a = ItemsOfDocument ->
  sameButItems a (fold_left assemble_item pre a).
Proof.
  induction pre as [|it pre IH]; intros a H Hi.
  - repeat split.
  - cbn [forallb] in H. apply andb_true_iff in H. destruct H as [Hit H].
    cbn [fold_left].
    assert (S1 : sameButItems a (assemble_item a it)
                 /\ items_ (assemble_item a it) = ItemsOfDocument).
    { unfold assemble_item. destruct (typ it); try discriminate Hit;
        cbn [items_]; (split; [|exact Hi]);
        unfold sameButItems; cbn [document sections items_];
        rewrite Hi; cbn [add_item Sections Chapters Annexes];
        repeat split. }
    destruct S1 as [S1 I1]. specialize (IH _ H I1).
    destruct S1 as (A1 & A2 & A3 & A4 & A5).
    destruct IH as (B1 & B2 & B3 & B4 & B5).
    repeat split; congruence.
Qed.

(** [Builder.Build] reads the sections, the chapters and the annexes of
    the document, never [Document.Items]. *)
Lemma Builder_run_ext d d' b :
  Sections d = Sections d' -> Chapters d = Chapters d' ->
  Annexes d = Annexes d' -> Builder_run d b = Builder_run d' b.
Proof.
  intros S C A. unfold Builder_run, buildTableOfContents.
  now rewrite S, C, A.
Qed.

(** X17. What comes before the first heading is dropped: the items of the
    stream that precede the first chapter, section or annex item change
    nothing in what [Builder.Build] returns (they are stored in
    [Document.Items], which the builder never reads). *)
Theorem X17_items_before_first_heading_are_dropped pre rest b :
  forallb (fun it => negb (isHeading (typ it))) pre = true ->
  Builder_Build (assemble (pre ++ rest)) b = Builder_Build (assemble rest) b.
Proof.
  intros H. unfold assemble. rewrite fold_left_app.
  pose proof (fold_without_heading pre assembler0 H eq_refl) as S0.
  pose proof (fold_sameButItems rest _ _ S0) as (S & C & A & _).
  unfold Builder_Build.
  now rewrite (Builder_run_ext _ _ b S C A).
Qed.

Lemma X17_witness :
  Builder_Build
    (assemble ([mkItem itemText "abc" 1]
               ++ [mkItem itemChapter "C" 1; mkItem itemText "x" 2]))
    (newBuilder (mkConfig true))
  = Builder_Build
      (assemble [mkItem itemChapter "C" 1; mkItem itemText "x" 2])
      (newBuilder (mkConfig true)).
Proof.
  apply (X17_items_before_first_heading_are_dropped
           [mkItem itemText "abc" 1]
           [mkItem itemChapter "C" 1; mkItem itemText "x" 2]
           (newBuilder (mkConfig true))).
  reflexivity.
Defined.

(** ** Plain text is one text item *)





Lemma len_drop s : forall n,
  (n <= String.length s)%nat ->
  String.length (drop n s) = (String.length s - n)%nat.
Proof.
  induction s as [|c s IH]; intros n H.
  - destruct n; reflexivity.
  - destruct n as [|n]; [reflexivity|]. simpl in *. apply IH. lia.
Qed.

Lemma substring_all s : substring 0 (String.length s) s = s.
Proof. induction s as [|c s IH]; simpl; [reflexivity|now rewrite IH]. Qed.








(** ** Percent signs *)

(** X19. Doubling the percent signs and formatting undo each other: the
    string [Build] makes of a text by replacing every [%] by [%%] is
    written by [append], which formats it, as the text itself. *)
Theorem X19_percent_signs_survive s :
  Fmt.Sprintf0 (Go.ReplaceAll s "%" "%%") = s.
Proof.
  induction s as [|c s IH]; [reflexivity|].
  cbn [Go.ReplaceAll]. destruct (Ascii.eqb c "%") eqn:E.
  - apply Ascii.eqb_eq in E. subst c. cbn. now rewrite IH.
  - cbn [Fmt.Sprintf0]. now rewrite E, IH.
Qed.

(** ** The table of contents in front *)

Lemma shifted_append c b b' s :
  shifted c b b' -> shifted c (append s b) (append s b').
Proof.
  intros (E & E' & C & P & N & T & U). unfold append, WriteString.
  rewrite E, E'. unfold shifted. cbn. rewrite C, app_assoc. auto 10.
Qed.

Lemma shifted_close c b b' :
  shifted c b b' -> shifted c (closeParagraph b) (closeParagraph b').
Proof.
  intros H. pose proof H as (E & E' & C & P & N & T & U).
  unfold closeParagraph. rewrite P.
  destruct (paragraphIsOpen b) eqn:Ep; [|exact H].
  apply shifted_append. unfold shifted. cbn. auto 10.
Qed.

Lemma shifted_open c b b' :
  shifted c b b' -> shifted c (openParagraph b) (openParagraph b').
Proof.
  intros H. pose proof H as (E & E' & C & P & N & T & U).
  unfold openParagraph. rewrite P, N.
  destruct (paragraphIsOpen b) eqn:Ep, (newSection b) eqn:En;
    cbn [negb andb];
    try exact H; apply shifted_append; unfold shifted; cbn;
    rewrite ?En; auto 10.
Qed.

Lemma shifted_set_newSection c b b' v :
  shifted c b b' -> shifted c (set_newSection b v) (set_newSection b' v).
Proof. intros (E & E' & C & P & N & T & U). unfold shifted. cbn. auto 10. Qed.

Lemma shifted_set_tableRowIndex c b b' v :
  shifted c b b' ->
  shifted c (set_tableRowIndex b v) (set_tableRowIndex b' v).
Proof. intros (E & E' & C & P & N & T & U). unfold shifted. cbn. auto 10. Qed.

Lemma shifted_set_tableTitle c b b' v :
  shifted c b b' -> shifted c (set_tableTitle b v) (set_tableTitle b' v).
Proof. intros (E & E' & C & P & N & T & U). unfold shifted. cbn. auto 10. Qed.

Ltac shift_tac :=
  repeat first
    [ assumption
    | apply shifted_append
    | apply shifted_close
    | apply shifted_open
    | apply shifted_set_newSection
    | apply shifted_set_tableRowIndex
    | apply shifted_set_tableTitle ].

Lemma alike_handleCommand c name args b b' :
  shifted c b b' ->
  alike c (handleCommand name args b) (handleCommand name args b').
Proof.
  intros H. unfold handleCommand.
  destruct (String.eqb name "color").
  - destruct (index args 1); cbn [bind alike]; trivial.
    destruct (index args 0); cbn [bind alike]; trivial. shift_tac.
  - destruct (String.eqb name "img"); [|exact H].
    match goal with |- alike _ (bind ?x _) _ => destruct x end;
      cbn [bind alike]; trivial.
    match goal with |- alike _ (bind ?x _) _ => destruct x as [[wd ht]| |] end;
      cbn [bind alike]; trivial.
    destruct (index args 0); cbn [bind alike]; trivial.
    destruct (index args 1); cbn [bind alike]; trivial.
    destruct (negb (wd =? "")%string);
      [|destruct (negb (ht =? "")%string)]; cbn [alike]; shift_tac.
Qed.

Lemma alike_bind c r r' k k' :
  alike c r r' ->
  (forall b b', shifted c b b' -> alike c (k b) (k' b')) ->
  alike c (bind r k) (bind r' k').
Proof.
  intros H K. destruct r, r'; cbn [alike bind] in *; try contradiction;
    auto.
Qed.

Lemma shifted_rowCells c cells : forall b b',
  shifted c b b' ->
  shifted c
    (fold_left (fun b cell => append (rowCell (tableRowIndex b) cell) b)
               cells b)
    (fold_left (fun b cell => append (rowCell (tableRowIndex b) cell) b)
               cells b').
Proof.
  induction cells as [|x cells IH]; intros b b' H; [exact H|].
  cbn [fold_left]. apply IH.
  pose proof H as (_ & _ & _ & _ & _ & T & _). rewrite T.
  now apply shifted_append.
Qed.

Lemma tableTitle_append s b : tableTitle (append s b) = tableTitle b.
Proof. unfold append. now destruct (err b). Qed.

Lemma tableRowIndex_append s b :
  tableRowIndex (append s b) = tableRowIndex b.
Proof. unfold append. now destruct (err b). Qed.

Lemma alike_handleItem c it b b' :
  shifted c b b' -> alike c (handleItem it b) (handleItem it b').
Proof.
  intros H. pose proof H as (E & E' & C & P & N & T & U).
  unfold handleItem.
  destruct (typ it);
    try match goal with
        | |- context [negb (val it =? "")%string] =>
          destruct (negb (val it =? "")%string)
        end;
    try (cbn [alike]; shift_tac; fail).
  - (* itemLink *)
    destruct (index _ 0); cbn [bind alike]; trivial.
    destruct (index _ 1); cbn [bind alike]; trivial. shift_tac.
  - (* itemCommand *)
    destruct (index _ 0); cbn [bind]; try exact I.
    destruct (index _ 1); cbn [bind]; try exact I.
    now apply alike_handleCommand.
  - (* itemTableRow *)
    destruct (index _ 0); cbn [bind alike]; trivial.
    cbv zeta. rewrite T.
    destruct (tableRowIndex b =? -1);
      rewrite ?tableTitle_append, ?tableRowIndex_append, ?T, ?U;
      apply shifted_append, shifted_rowCells; shift_tac.
Qed.

Lemma alike_handleItems c its : forall b b',
  shifted c b b' -> alike c (handleItems its b) (handleItems its b').
Proof.
  induction its as [|it its IH]; intros b b' H; [exact H|].
  cbn [handleItems]. apply alike_bind; [now apply alike_handleItem|exact IH].
Qed.

Lemma alike_handleSections c ss : forall b b',
  shifted c b b' -> alike c (handleSections ss b) (handleSections ss b').
Proof.
  induction ss as [|s ss IH]; intros b b' H; [exact H|].
  cbn [handleSections]. apply alike_bind; [|exact IH].
  unfold handleSection. apply alike_handleItems. shift_tac.
Qed.

Lemma alike_buildChapters c cs : forall i b b',
  shifted c b b' -> alike c (buildChapters i cs b) (buildChapters i cs b').
Proof.
  induction cs as [|x cs IH]; intros i b b' H; [exact H|].
  cbn [buildChapters]. apply alike_bind.
  { apply alike_handleItems. shift_tac. }
  intros b1 b1' H1. apply alike_bind; [now apply alike_handleSections|].
  intros b2 b2' H2. now apply IH.
Qed.

Lemma alike_buildAnnexes c xs : forall i b b',
  shifted c b b' -> alike c (buildAnnexes i xs b) (buildAnnexes i xs b').
Proof.
  induction xs as [|x xs IH]; intros i b b' H; [exact H|].
  cbn [buildAnnexes]. apply alike_bind.
  { apply alike_handleItems. shift_tac. }
  intros b1 b1' H1. apply IH. shift_tac.
Qed.

Lemma sameFlags_refl b : sameFlags b b.
Proof. repeat split. Qed.

Lemma sameFlags_append s b b' : sameFlags b b' -> sameFlags b (append s b').
Proof.
  intros H. unfold append. destruct (err b'); [exact H|].
  unfold WriteString. exact H.
Qed.

Lemma sameFlags_tocSections ss : forall b b',
  sameFlags b b' -> sameFlags b (tocSections ss b').
Proof.
  unfold tocSections.
  induction ss as [|s ss IH]; intros b b' H; [exact H|].
  cbn [fold_left]. apply IH. now apply sameFlags_append.
Qed.

Lemma sameFlags_tocChapters cs : forall i b b',
  sameFlags b b' -> sameFlags b (tocChapters i cs b').
Proof.
  induction cs as [|x cs IH]; intros i b b' H; [exact H|].
  cbn [tocChapters]. apply IH.
  apply sameFlags_append, sameFlags_tocSections.
  now do 2 apply sameFlags_append.
Qed.

Lemma sameFlags_tocAnnexes xs : forall i b b',
  sameFlags b b' -> sameFlags b (tocAnnexes i xs b').
Proof.
  induction xs as [|x xs IH]; intros i b b' H; [exact H|].
  cbn [tocAnnexes]. apply IH. now apply sameFlags_append.
Qed.

Lemma sameFlags_buildTableOfContents d b :
  sameFlags b (buildTableOfContents d b).
Proof.
  unfold buildTableOfContents.
  do 2 apply sameFlags_append. apply sameFlags_tocAnnexes.
  do 2 apply sameFlags_append. apply sameFlags_tocChapters.
  do 2 apply sameFlags_append. apply sameFlags_tocSections.
  do 2 apply sameFlags_append. apply sameFlags_refl.
Qed.

(** X20. The table of contents only comes in front: for every document,
    [Builder.Build] with the option [TableOfContents] writes the strings
    of the table of contents and then exactly what it writes without the
    option, and it panics with the option exactly when it panics
    without. *)
Theorem X20_table_of_contents_only_comes_in_front d :
  match Builder_run d (newBuilder (mkConfig false)),
        Builder_run d (newBuilder (mkConfig true)) with
  | Done b, Done b' => content b' = (tocChunks d ++ content b)%list
  | Panic, Panic => True
  | OutOfFuel, OutOfFuel => True
  | _, _ => False
  end.
Proof.
  assert (H : alike (tocChunks d)
                (Builder_run d (newBuilder (mkConfig false)))
                (Builder_run d (newBuilder (mkConfig true)))).
  { unfold Builder_run, newBuilder.
    cbn [err newSection tableRowIndex tableTitle Config TableOfContents].
    apply alike_bind.
    { apply alike_handleSections.
      pose proof (sameFlags_buildTableOfContents d
                    (newBuilder (mkConfig true))) as (P & N & T & U).
      pose proof (buildTableOfContents_grows d (newBuilder (mkConfig true))
                    eq_refl) as [E _].
      unfold shifted, tocChunks, newBuilder in *. cbn in *.
      rewrite app_nil_r. auto 10. }
    intros b1 b1' H1. apply alike_bind; [now apply alike_buildChapters|].
    intros b2 b2' H2. now apply alike_buildAnnexes. }
  destruct (Builder_run d (newBuilder (mkConfig false))),
    (Builder_run d (newBuilder (mkConfig true)));
    cbn [alike] in H; try contradiction; trivial.
  exact (proj1 (proj2 (proj2 H))).
Qed.

(** ** [next] and [backup] *)

(** X21. [backup] undoes [next]: after a [next] followed by a [backup], as
    in [peek], the lexer reads the same input at the same position and
    line, with the same start and the same queue; only the width of the
    last rune may differ. *)
Theorem X21_backup_undoes_next l :
  0 <= pos l ->
  input (backup (next_ l)) = input l /\ start (backup (next_ l)) = start l /\
  pos (backup (next_ l)) = pos l /\ lline (backup (next_ l)) = lline l /\
  items (backup (next_ l)) = items l.
Proof.
  intros H. destruct (backup_next_fields l) as (A & B & C & D).
  pose proof (backup_next_line l H). auto.
Qed.

Lemma X21_witness :
  0 <= pos (mkLexer ("a" ++ nl ++ "b") 0 1 1 1 [] (Some lexText)) /\
  let l := mkLexer ("a" ++ nl ++ "b") 0 1 1 1 [] (Some lexText) in
  input (backup (next_ l)) = input l /\ start (backup (next_ l)) = start l /\
  pos (backup (next_ l)) = pos l /\ lline (backup (next_ l)) = lline l /\
  items (backup (next_ l)) = items l.
Proof.
  split; [simpl; lia|].
  apply (X21_backup_undoes_next
           (mkLexer ("a" ++ nl ++ "b") 0 1 1 1 [] (Some lexText))).
  simpl. lia.
Defined.

(** ** The names of the item types *)

(** X22. [itemType.String] gives different names to different item
    types. *)
Theorem X22_item_type_names_differ a b :
  itemType_String a = itemType_String b -> a = b.
Proof. destruct a, b; intros H; try reflexivity; discriminate H. Qed.

Lemma X22_witness :
  itemType_String itemBold = itemType_String itemBold /\ itemBold = itemBold.
Proof.
  split; [reflexivity|].
  apply (X22_item_type_names_differ itemBold itemBold). reflexivity.
Defined.

(** ** Anchors *)




(** ** The sub-lexers: text up to a closing mark *)

Lemma append_String s c t : s ++ String c t = (s ++ String c "") ++ t.
Proof. induction s as [|a s IH]; simpl; [reflexivity|now rewrite IH]. Qed.

Lemma drop_app s u : forall n,
  (n <= String.length s)%nat -> drop n (s ++ u) = drop n s ++ u.
Proof.
  induction s as [|c s IH]; intros n H.
  - simpl in H. replace n with 0%nat by lia. now destruct u.
  - destruct n as [|n]; [reflexivity|]. simpl. apply IH. simpl in H. lia.
Qed.

Lemma substring_app s u : forall n,
  (n <= String.length s)%nat -> substring 0 n (s ++ u) = substring 0 n s.
Proof.
  induction s as [|c s IH]; intros n H.
  - simpl in H. replace n with 0%nat by lia. simpl. now destruct u.
  - destruct n as [|n]; [reflexivity|]. simpl. rewrite IH; [reflexivity|].
    simpl in H. lia.
Qed.

Lemma substring_drop_all s : forall n,
  substring 0 n s ++ drop n s = s.
Proof.
  induction s as [|c s IH]; intros n.
  - now destruct n.
  - destruct n as [|n]; [reflexivity|]. simpl. now rewrite IH.
Qed.

Lemma noByte_drop d s : forall n, noByte d s = true -> noByte d (drop n s) = true.
Proof.
  induction s as [|c s IH]; intros n H.
  - now destruct n.
  - destruct n as [|n]; [exact H|]. simpl. apply IH.
    cbn [noByte] in H. apply andb_true_iff in H. tauto.
Qed.

(** A rune read before a byte below 128 does not take that byte: the
    bytes of a rune after its first are 128 or above. *)
Lemma Decode_within c t dc rest :
  byte_of dc < 128 ->
  snd (Go.DecodeRuneInString (String c (t ++ String dc rest)))
  <= 1 + len t.
Proof.
  intros Hd.
  assert (L : forall s, 0 <= len s) by (intros s; unfold len; lia).
  assert (S : forall a s, len (String a s) = 1 + len s).
  { intros a s. unfold len. cbn [String.length]. lia. }
  cbn [Go.DecodeRuneInString]. cbv zeta.
  destruct (byte_of c <? 128); [cbn [snd]; pose proof (L t); lia|].
  destruct (Go.utf8_first (byte_of c)) as [[[sz lo] hi]|] eqn:F;
    [|cbn [snd]; pose proof (L t); lia].
  apply utf8_first_lo in F.
  destruct (len _ <? sz); [cbn [snd]; pose proof (L t); lia|].
  destruct t as [|c1 t1]; cbn [String.append].
  { replace ((byte_of dc <? lo) || (hi <? byte_of dc)) with true
      by (symmetry; apply orb_true_iff; left; apply Z.ltb_lt; lia).
    cbn [snd]. unfold len. simpl. lia. }
  destruct ((byte_of c1 <? lo) || (hi <? byte_of c1));
    [cbn [snd]; rewrite S; pose proof (L t1); lia|].
  destruct (sz <=? 2); [cbn [snd]; rewrite S; pose proof (L t1); lia|].
  destruct t1 as [|c2 t2]; cbn [String.append].
  { replace (Go.is_cont (byte_of dc)) with false
      by (symmetry; unfold Go.is_cont; apply andb_false_iff; left;
          apply Z.leb_gt; lia).
    cbn [negb snd]. unfold len. simpl. lia. }
  destruct (negb (Go.is_cont (byte_of c2)));
    [cbn [snd]; rewrite !S; pose proof (L t2); lia|].
  destruct (sz <=? 3); [cbn [snd]; rewrite !S; pose proof (L t2); lia|].
  destruct t2 as [|c3 t3]; cbn [String.append].
  { replace (Go.is_cont (byte_of dc)) with false
      by (symmetry; unfold Go.is_cont; apply andb_false_iff; left;
          apply Z.leb_gt; lia).
    cbn [negb snd]. unfold len. simpl. lia. }
  destruct (negb (Go.is_cont (byte_of c3)));
    cbn [snd]; rewrite !S; pose proof (L t3); lia.
Qed.

Lemma from_lt inp p c x : 0 <= p -> from inp p = String c x -> p < len inp.
Proof.
  intros Hp E. destruct (Z_lt_ge_dec p (len inp)) as [L|G]; [exact L|].
  unfold from in E. rewrite drop_length_nil in E by (unfold len in G; lia).
  discriminate.
Qed.

Lemma from_add inp p w :
  0 <= p -> 0 <= w -> from inp (p + w) = drop (Z.to_nat w) (from inp p).
Proof.
  intros Hp Hw. unfold from. rewrite drop_drop. f_equal. lia.
Qed.

(** [next] at a byte below 128 reads that byte. *)
Lemma next_at_byte l dc rest :
  0 <= pos l -> from (input l) (pos l) = String dc rest ->
  byte_of dc < 128 ->
  next l
  = (byte_of dc,
     mkLexer (input l) (start l) (pos l + 1) 1
             (if byte_of dc =? 10 then lline l + 1 else lline l)
             (items l) (state l)).
Proof.
  intros Hp E Hd. pose proof (from_lt _ _ _ _ Hp E) as Lt.
  unfold next. replace (pos l >=? len (input l)) with false by lia.
  rewrite E. cbn [Go.DecodeRuneInString]. cbv zeta.
  replace (byte_of dc <? 128) with true by lia.
  now destruct (byte_of dc =? 10).
Qed.

(** [next] inside a text that a byte [dc] below 128 follows: the rune read
    is not [d] when its first byte is not, and it ends before [dc]. *)
Lemma next_over d l c t dc rest :
  0 <= pos l -> from (input l) (pos l) = String c (t ++ String dc rest) ->
  byte_of dc < 128 -> byte_of c <> d -> 0 <= d < 128 ->
  exists w,
    1 <= w <= 1 + len t /\
    (fst (next l) =? d) = false /\
    input (next_ l) = input l /\ start (next_ l) = start l /\
    items (next_ l) = items l /\ pos (next_ l) = pos l + w /\
    lline (next_ l)
    = lline l + nlcount (substring 0 (Z.to_nat w) (String c t)).
Proof.
  intros Hp E Hd Hc Hr. pose proof (from_lt _ _ _ _ Hp E) as Lt.
  pose proof (Decode_first c (t ++ String dc rest)) as D.
  pose proof (Decode_within c t dc rest Hd) as W.
  pose proof (nlcount_rune c (t ++ String dc rest)) as N.
  unfold next_, next. replace (pos l >=? len (input l)) with false by lia.
  rewrite E.
  destruct (Go.DecodeRuneInString (String c (t ++ String dc rest)))
    as [r w].
  cbn [fst snd] in *. destruct D as (W1 & Lo & Hi).
  exists w. split; [lia|].
  assert (R : r <> d).
  { destruct (Z_lt_ge_dec (byte_of c) 128) as [B|B].
    - destruct (Lo B) as [-> _]. exact Hc.
    - specialize (Hi ltac:(lia)). lia. }
  change (String c (t ++ String dc rest))
    with (String c t ++ String dc rest) in N.
  rewrite substring_app in N
    by (unfold len in W; cbn [String.length]; lia).
  destruct (r =? 10); cbn [fst snd input start items pos lline set_line
                           set_pos set_width];
    (split; [now apply Z.eqb_neq|]); repeat split; lia.
Qed.

Section Scan.

Variable st : stateFn.
Variable d : Z.

Hypothesis d_byte : 0 <= d < 128.

(** A round of the state goes on after a rune that is not [d]. *)
Hypothesis goes_on : forall l,
  (fst (next l) =? d) = false -> body st l = Continue (next_ l).

(** The loop of the state reads the text up to the first [d]. *)
Lemma scan_loop : forall n s l dc rest,
  (String.length s <= n)%nat -> noByte d s = true ->
  byte_of dc < 128 -> 0 <= pos l ->
  from (input l) (pos l) = s ++ String dc rest ->
  exists k l1,
    (forall f, loop (k + f) st l = loop f st l1) /\
    input l1 = input l /\ start l1 = start l /\ items l1 = items l /\
    pos l1 = pos l + len s /\ lline l1 = lline l + nlcount s /\
    from (input l1) (pos l1) = String dc rest.
Proof.
  induction n as [|n IH]; intros s l dc rest Hn Hs Hd Hp E.
  - destruct s; [|simpl in Hn; lia].
    exists 0%nat, l. cbn. repeat split; trivial; lia.
  - destruct s as [|c t].
    { exists 0%nat, l. cbn. repeat split; trivial; lia. }
    cbn [noByte] in Hs. apply andb_true_iff in Hs. destruct Hs as [Hc Ht].
    apply negb_true_iff, Z.eqb_neq in Hc.
    cbn [String.append] in E.
    destruct (next_over d l c t dc rest Hp E Hd Hc d_byte)
      as (w & [W1 W2] & R & I1 & S1 & Q1 & P1 & L1).
    assert (Wn : (Z.to_nat w <= String.length (String c t))%nat).
    { unfold len in W2. cbn [String.length]. lia. }
    destruct (IH (drop (Z.to_nat w) (String c t)) (next_ l) dc rest)
      as (k & l1 & K & I2 & S2 & Q2 & P2 & L2 & F2).
    + rewrite len_drop by exact Wn. cbn [String.length] in *. lia.
    + apply noByte_drop. cbn [noByte].
      apply andb_true_iff. split; [|exact Ht].
      now apply negb_true_iff, Z.eqb_neq.
    + exact Hd.
    + lia.
    + rewrite I1, P1, from_add, E by lia.
      change (String c (t ++ String dc rest))
        with (String c t ++ String dc rest).
      now rewrite drop_app.
    + exists (S k), l1. split.
      { intros f. cbn [Nat.add loop]. rewrite (goes_on l R). apply K. }
      assert (Ln : len (drop (Z.to_nat w) (String c t))
                   = len (String c t) - w).
      { unfold len. rewrite len_drop by exact Wn. lia. }
      repeat split; try congruence.
      * rewrite P2, P1, Ln. lia.
      * pose proof (substring_drop_all (String c t) (Z.to_nat w)) as X.
        apply (f_equal nlcount) in X. rewrite nlcount_app in X.
        rewrite L2, L1. lia.
Qed.

End Scan.

Lemma pending_segment l p0 s u :
  0 <= p0 -> start l = p0 -> pos l = p0 + len s ->
  from (input l) p0 = s ++ u -> pending l = s.
Proof.
  intros H0 S P F. unfold pending, slice. rewrite S, P.
  replace (p0 + len s - p0) with (len s) by lia.
  rewrite substring_drop. unfold from in F. rewrite F.
  unfold len. rewrite Nat2Z.id, substring_app by lia. apply substring_all.
Qed.

Lemma loop_done k st l l' nxt :
  body st l = Return l' nxt -> loop (S k) st l = Done (l', nxt).
Proof. intros B. cbn [loop]. now rewrite B. Qed.

(** X24. [lexBold], entered after the opening star, sends the bytes up to
    the next star as one [itemBold], not trimmed, with the line of the
    closing star, and returns to the state it was made with, after that
    star: for any bytes without a star, line feeds and other markup
    included. *)
Theorem X24_lexBold_sends_the_text_up_to_the_star fn l s rest :
  0 <= pos l -> noByte boldRune s = true ->
  from (input l) (pos l) = s ++ String "*" rest ->
  exists fuel l',
    call fuel (lexBold fn) l = Done (l', Some fn) /\
    items l' = (items l ++ [mkItem itemBold s (lline l + nlcount s)])%list /\
    input l' = input l /\ pos l' = pos l + len s + 1 /\ start l' = pos l' /\
    lline l' = lline l + nlcount s.
Proof.
  intros Hp Hs E.
  assert (G : forall x, (fst (next x) =? boldRune) = false ->
                        body (lexBold fn) x = Continue (next_ x)).
  { intros x H. cbn [body]. unfold lexBold_body. rewrite next_snd.
    cbv beta iota zeta. now rewrite H. }
  destruct (scan_loop (lexBold fn) boldRune ltac:(unfold boldRune; lia) G
              (String.length s) s (ignore l) "*"%char rest (le_n _) Hs
              ltac:(reflexivity) Hp E)
    as (k & l1 & K & I1 & S1 & Q1 & P1 & L1 & F1).
  cbn [ignore set_start input start items pos lline] in *.
  assert (P1' : 0 <= pos l1) by (unfold len in P1; lia).
  pose proof (next_at_byte l1 _ _ P1' F1 ltac:(reflexivity)) as Nx.
  set (e := emit itemBold (backup (next_ l1))).
  assert (B : body (lexBold fn) l1 = Return (ignore (next_ e)) (Some fn)).
  { cbn [body]. unfold lexBold_body. rewrite next_snd.
    cbv beta iota zeta. rewrite Nx. reflexivity. }
  destruct (backup_next_fields l1) as (Bi & Bs & Bq & Bp).
  pose proof (backup_next_line l1 P1') as Bl.
  assert (Pe : pending (backup (next_ l1)) = s).
  { rewrite backup_next_pending.
    apply (pending_segment l1 (pos l) s (String "*" rest)); trivial.
    now rewrite I1. }
  assert (Fe : from (input e) (pos e) = String "*" rest).
  { subst e. cbn [emit set_start send input pos]. now rewrite Bi, Bp. }
  assert (Pe0 : 0 <= pos e)
    by (subst e; cbn [emit set_start send pos]; lia).
  pose proof (next_at_byte e _ _ Pe0 Fe ltac:(reflexivity)) as Ne.
  exists (k + 1)%nat, (ignore (next_ e)). split.
  { unfold call. cbn [enter]. rewrite K. now apply loop_done. }
  unfold next_. rewrite Ne.
  subst e. cbn [ignore emit set_start send snd input start pos items lline].
  rewrite Bi, Bq, Bp, Bl, Pe, Q1, I1, P1, L1.
  repeat split; reflexivity.
Qed.

Lemma X24_witness :
  exists fuel l',
    call fuel (lexBold lexText)
         (mkLexer ("*a" ++ nl ++ "#b*c") 0 1 1 1 [] (Some lexText))
    = Done (l', Some lexText) /\
    items l' = ([] ++ [mkItem itemBold ("a" ++ nl ++ "#b")
                          (1 + nlcount ("a" ++ nl ++ "#b"))])%list /\
    input l' = "*a" ++ nl ++ "#b*c" /\
    pos l' = 1 + len ("a" ++ nl ++ "#b") + 1 /\ start l' = pos l' /\
    lline l' = 1 + nlcount ("a" ++ nl ++ "#b").
Proof.
  apply (X24_lexBold_sends_the_text_up_to_the_star lexText
           (mkLexer ("*a" ++ nl ++ "#b*c") 0 1 1 1 [] (Some lexText))
           ("a" ++ nl ++ "#b") "c").
  - simpl. lia.
  - reflexivity.
  - reflexivity.
Defined.

(** The loop of [lexCmdArgs] and of [lexLinkTail]: the bytes up to the
    closing parenthesis are sent in a custom item. *)
Lemma custom_tail st t (mk : string -> string) fn :
  (forall x, (fst (next x) =? 41) = false -> body st x = Continue (next_ x)) ->
  (forall x, fst (next x) = 41 ->
             body st x
             = Return (ignore (next_ (emitCustom t
                                        (mk (pending (backup (next_ x))))
                                        (backup (next_ x)))))
                      (Some fn)) ->
  forall l s rest,
    0 <= pos l -> start l = pos l -> noByte 41 s = true ->
    from (input l) (pos l) = s ++ String ")" rest ->
    exists k l',
      loop (S k) st l = Done (l', Some fn) /\
      items l' = (items l ++ [mkItem t (mk s) (lline l + nlcount s)])%list /\
      input l' = input l /\ pos l' = pos l + len s + 1 /\
      start l' = pos l' /\ lline l' = lline l + nlcount s.
Proof.
  intros G R l s rest Hp Hst Hs E.
  destruct (scan_loop st 41 ltac:(lia) G (String.length s) s l ")"%char rest
              (le_n _) Hs ltac:(reflexivity) Hp E)
    as (k & l1 & K & I1 & S1 & Q1 & P1 & L1 & F1).
  assert (P1' : 0 <= pos l1) by (unfold len in P1; lia).
  pose proof (next_at_byte l1 _ _ P1' F1 ltac:(reflexivity)) as Nx.
  destruct (backup_next_fields l1) as (Bi & Bs & Bq & Bp).
  pose proof (backup_next_line l1 P1') as Bl.
  assert (Pe : pending (backup (next_ l1)) = s).
  { rewrite backup_next_pending.
    apply (pending_segment l1 (pos l) s (String ")" rest)); trivial;
      [congruence|now rewrite I1]. }
  set (e := emitCustom t (mk (pending (backup (next_ l1))))
                       (backup (next_ l1))).
  assert (B : body st l1 = Return (ignore (next_ e)) (Some fn)).
  { apply R. now rewrite Nx. }
  assert (Fe : from (input e) (pos e) = String ")" rest).
  { subst e. cbn [emitCustom send input pos]. now rewrite Bi, Bp. }
  assert (Pe0 : 0 <= pos e) by (subst e; cbn [emitCustom send pos]; lia).
  pose proof (next_at_byte e _ _ Pe0 Fe ltac:(reflexivity)) as Ne.
  exists k, (ignore (next_ e)). split.
  { replace (S k) with (k + 1)%nat by lia. rewrite K. now apply loop_done. }
  unfold next_. rewrite Ne.
  subst e. cbn [ignore emitCustom set_start send snd input start pos items
                lline].
  rewrite Bi, Bq, Bp, Bl, Pe, Q1, I1, P1, L1.
  repeat split; reflexivity.
Qed.

(** X25. A command: [lexCmdName], entered after the backslash, reads the
    name up to the opening parenthesis and hands it to [lexCmdArgs], which
    sends the name and the arguments up to the closing parenthesis as one
    [itemCommand] of value [name|arguments] and returns to the state the
    command was found in. *)
Theorem X25_command_is_one_item fn l name args rest :
  0 <= pos l -> noByte 40 name = true -> noByte 41 args = true ->
  from (input l) (pos l) = name ++ String "(" (args ++ String ")" rest) ->
  exists fuel l1 l2,
    call fuel (lexCmdName fn) l = Done (l1, Some (lexCmdArgs name fn)) /\
    call fuel (lexCmdArgs name fn) l1 = Done (l2, Some fn) /\
    items l2
    = (items l ++ [mkItem itemCommand (bar name args)
                          (lline l + nlcount name + nlcount args)])%list /\
    input l2 = input l /\ pos l2 = pos l + len name + len args + 2 /\
    start l2 = pos l2.
Proof.
  intros Hp Hn Ha E.
  assert (G : forall x, (fst (next x) =? 40) = false ->
                        body (lexCmdName fn) x = Continue (next_ x)).
  { intros x H. cbn [body]. unfold lexCmdName_body. rewrite next_snd.
    cbv beta iota zeta. now rewrite H. }
  destruct (scan_loop (lexCmdName fn) 40 ltac:(lia) G
              (String.length name) name (ignore l) "("%char
              (args ++ String ")" rest) (le_n _) Hn ltac:(reflexivity) Hp E)
    as (k & l1 & K & I1 & S1 & Q1 & P1 & L1 & F1).
  cbn [ignore set_start input start items pos lline] in *.
  assert (P1' : 0 <= pos l1) by (unfold len in P1; lia).
  pose proof (next_at_byte l1 _ _ P1' F1 ltac:(reflexivity)) as Nx.
  assert (C : slice (input (next_ l1)) (start (next_ l1))
                    (pos (next_ l1) - 1) = name).
  { unfold next_. rewrite Nx. cbn [snd input start pos].
    replace (pos l1 + 1 - 1) with (pos l1) by lia.
    apply (pending_segment l1 (pos l) name
             (String "(" (args ++ String ")" rest))); trivial.
    now rewrite I1. }
  assert (B : body (lexCmdName fn) l1
              = Return (ignore (next_ l1)) (Some (lexCmdArgs name fn))).
  { cbn [body]. unfold lexCmdName_body. rewrite next_snd.
    cbv beta iota zeta. rewrite C. rewrite Nx. reflexivity. }
  set (m := ignore (next_ l1)).
  assert (Fm : input m = input l /\ pos m = pos l + len name + 1
               /\ start m = pos m /\ items m = items l
               /\ lline m = lline l + nlcount name).
  { subst m. unfold next_. rewrite Nx.
    cbn [ignore set_start snd input start pos items lline].
    rewrite I1, P1, Q1, L1. repeat split; reflexivity. }
  destruct Fm as (Im & Pm & Sm & Qm & Lm).
  assert (Em : from (input m) (pos m) = args ++ String ")" rest).
  { rewrite Im, Pm.
    replace (pos l + len name + 1) with (pos l1 + 1) by lia.
    rewrite <- I1, from_add, F1 by lia. reflexivity. }
  destruct (custom_tail (lexCmdArgs name fn) itemCommand (bar name) fn)
    with (l := m) (s := args) (rest := rest)
    as (k2 & l2 & E2 & Q2 & I2 & P2 & S2 & L2); trivial.
  { intros x H. cbn [body]. unfold lexCmdArgs_body. rewrite next_snd.
    cbv beta iota zeta. now rewrite H. }
  { intros x H. cbn [body]. unfold lexCmdArgs_body. rewrite next_snd.
    cbv beta iota zeta. now rewrite H. }
  { unfold len in Pm. lia. }
  exists (Nat.max (k + 1) (S k2)), m, l2. split.
  { unfold call. cbn [enter].
    apply (loop_mono _ (k + 1)); [|discriminate|lia].
    rewrite K. now apply loop_done. }
  split.
  { unfold call. cbn [enter].
    apply (loop_mono _ (S k2)); [exact E2|discriminate|lia]. }
  rewrite Q2, I2, P2, S2, Qm, Im, Pm, Lm. repeat split; trivial; lia.
Qed.

Lemma X25_witness :
  exists fuel l1 l2,
    call fuel (lexCmdName lexText)
         (mkLexer ("\img(a.png,A)x") 0 1 1 1 [] (Some lexText))
    = Done (l1, Some (lexCmdArgs "img" lexText)) /\
    call fuel (lexCmdArgs "img" lexText) l1 = Done (l2, Some lexText) /\
    items l2
    = ([] ++ [mkItem itemCommand (bar "img" "a.png,A")
                     (1 + nlcount "img" + nlcount "a.png,A")])%list /\
    input l2 = "\img(a.png,A)x" /\
    pos l2 = 1 + len "img" + len "a.png,A" + 2 /\
    start l2 = pos l2.
Proof.
  apply (X25_command_is_one_item lexText
           (mkLexer ("\img(a.png,A)x") 0 1 1 1 [] (Some lexText))
           "img" "a.png,A" "x").
  - simpl. lia.
  - reflexivity.
  - reflexivity.
  - reflexivity.
Defined.

Lemma next_byte_fields l dc rest :
  0 <= pos l -> from (input l) (pos l) = String dc rest ->
  byte_of dc < 128 ->
  input (next_ l) = input l /\ start (next_ l) = start l /\
  items (next_ l) = items l /\ pos (next_ l) = pos l + 1 /\
  lline (next_ l) = lline l + nlcount (String dc "").
Proof.
  intros Hp E Hd. unfold next_. rewrite (next_at_byte l dc rest Hp E Hd).
  cbn [snd input start items pos lline nlcount].
  repeat split; trivial.
  destruct (isNl dc) eqn:N.
  - apply isNl_iff in N. rewrite N. reflexivity.
  - replace (byte_of dc =? 10) with false; [lia|].
    symmetry. apply Z.eqb_neq. intros Q. apply isNl_iff in Q. congruence.
Qed.

(** X26. A link: [lexLinkHead], entered after the opening bracket, reads
    the text up to the closing bracket, skips the byte that follows it
    (the opening parenthesis, which it does not check) and hands the text
    to [lexLinkTail], which sends the text and the destination up to the
    closing parenthesis as one [itemLink] of value [text|destination] and
    returns to the state the link was found in. *)
Theorem X26_link_is_one_item fn l text o dest rest :
  0 <= pos l -> noByte 93 text = true -> noByte 41 dest = true ->
  byte_of o < 128 ->
  from (input l) (pos l)
  = text ++ String "]" (String o (dest ++ String ")" rest)) ->
  exists fuel l1 l2,
    call fuel (lexLinkHead fn) l = Done (l1, Some (lexLinkTail text fn)) /\
    call fuel (lexLinkTail text fn) l1 = Done (l2, Some fn) /\
    items l2
    = (items l ++ [mkItem itemLink (bar text dest)
                          (lline l + nlcount text + nlcount (String o "")
                           + nlcount dest)])%list /\
    input l2 = input l /\ pos l2 = pos l + len text + len dest + 3 /\
    start l2 = pos l2.
Proof.
  intros Hp Ht Hd Ho E.
  assert (G : forall x, (fst (next x) =? 93) = false ->
                        body (lexLinkHead fn) x = Continue (next_ x)).
  { intros x H. cbn [body]. unfold lexLinkHead_body. rewrite next_snd.
    cbv beta iota zeta. now rewrite H. }
  destruct (scan_loop (lexLinkHead fn) 93 ltac:(lia) G
              (String.length text) text (ignore l) "]"%char
              (String o (dest ++ String ")" rest)) (le_n _) Ht
              ltac:(reflexivity) Hp E)
    as (k & l1 & K & I1 & S1 & Q1 & P1 & L1 & F1).
  cbn [ignore set_start input start items pos lline] in *.
  assert (P1' : 0 <= pos l1) by (unfold len in P1; lia).
  pose proof (next_at_byte l1 _ _ P1' F1 ltac:(reflexivity)) as Nx.
  assert (C : slice (input (next_ l1)) (start (next_ l1))
                    (pos (next_ l1) - 1) = text).
  { unfold next_. rewrite Nx. cbn [snd input start pos].
    replace (pos l1 + 1 - 1) with (pos l1) by lia.
    apply (pending_segment l1 (pos l) text
             (String "]" (String o (dest ++ String ")" rest)))); trivial.
    now rewrite I1. }
  assert (B : body (lexLinkHead fn) l1
              = Return (ignore (next_ (next_ l1)))
                       (Some (lexLinkTail text fn))).
  { cbn [body]. unfold lexLinkHead_body. rewrite next_snd.
    cbv beta iota zeta. rewrite C. rewrite Nx. reflexivity. }
  assert (F2 : from (input (next_ l1)) (pos (next_ l1))
               = String o (dest ++ String ")" rest)).
  { unfold next_. rewrite Nx. cbn [snd input pos].
    rewrite from_add, F1 by lia. reflexivity. }
  assert (P2' : 0 <= pos (next_ l1))
    by (pose proof (next_pos_ge l1); lia).
  pose proof (next_at_byte (next_ l1) _ _ P2' F2 Ho) as Nx2.
  set (m := ignore (next_ (next_ l1))).
  assert (Fm : input m = input l /\ pos m = pos l + len text + 2
               /\ start m = pos m /\ items m = items l
               /\ lline m = lline l + nlcount text + nlcount (String o "")).
  { destruct (next_byte_fields l1 _ _ P1' F1 ltac:(reflexivity))
      as (A1 & A2 & A3 & A4 & A5).
    destruct (next_byte_fields (next_ l1) _ _ P2' F2 Ho)
      as (B1 & B2 & B3 & B4 & B5).
    subst m. cbn [ignore set_start input start pos items lline].
    rewrite B1, B3, B4, B5, A1, A3, A4, A5, I1, P1, Q1, L1.
    change (nlcount "]") with 0.
    repeat split; try reflexivity; lia. }
  destruct Fm as (Im & Pm & Sm & Qm & Lm).
  assert (Em : from (input m) (pos m) = dest ++ String ")" rest).
  { rewrite Im, Pm.
    replace (pos l + len text + 2) with (pos (next_ l1) + 1)
      by (unfold next_; rewrite Nx; cbn [snd pos]; lia).
    rewrite <- I1, <- (next_input l1), from_add, F2 by lia. reflexivity. }
  destruct (custom_tail (lexLinkTail text fn) itemLink (bar text) fn)
    with (l := m) (s := dest) (rest := rest)
    as (k2 & l2 & E2 & Q2 & I2 & P2 & S2 & L2); trivial.
  { intros x H. cbn [body]. unfold lexLinkTail_body. rewrite next_snd.
    cbv beta iota zeta. now rewrite H. }
  { intros x H. cbn [body]. unfold lexLinkTail_body. rewrite next_snd.
    cbv beta iota zeta. now rewrite H. }
  { unfold len in Pm. lia. }
  exists (Nat.max (k + 1) (S k2)), m, l2. split.
  { unfold call. cbn [enter].
    apply (loop_mono _ (k + 1)); [|discriminate|lia].
    rewrite K. now apply loop_done. }
  split.
  { unfold call. cbn [enter].
    apply (loop_mono _ (S k2)); [exact E2|discriminate|lia]. }
  rewrite Q2, I2, P2, S2, Qm, Im, Pm, Lm. repeat split; trivial; lia.
Qed.

Lemma X26_witness :
  exists fuel l1 l2,
    call fuel (lexLinkHead lexText)
         (mkLexer ("[see](Chapter One).") 0 1 1 1 [] (Some lexText))
    = Done (l1, Some (lexLinkTail "see" lexText)) /\
    call fuel (lexLinkTail "see" lexText) l1 = Done (l2, Some lexText) /\
    items l2
    = ([] ++ [mkItem itemLink (bar "see" "Chapter One")
                     (1 + nlcount "see" + nlcount "(" + nlcount "Chapter One")])%list /\
    input l2 = "[see](Chapter One)." /\
    pos l2 = 1 + len "see" + len "Chapter One" + 3 /\
    start l2 = pos l2.
Proof.
  apply (X26_link_is_one_item lexText
           (mkLexer ("[see](Chapter One).") 0 1 1 1 [] (Some lexText))
           "see" "("%char "Chapter One" ".").
  - simpl. lia.
  - reflexivity.
  - reflexivity.
  - reflexivity.
  - reflexivity.
Defined.

(** ** The sub-lexers: text up to a closing mark, in general *)

Lemma allRests_drop p s tail : forall n,
  allRests p s tail = true -> allRests p (drop n s) tail = true.
Proof.
  induction s as [|c s IH]; intros n H.
  - now destruct n.
  - destruct n as [|n]; [exact H|]. simpl. apply IH.
    cbn [allRests] in H. apply andb_true_iff in H. tauto.
Qed.

Section ScanRests.

Variable st : stateFn.
Variable p : string -> bool.

(** A round of the state goes on where [p] holds of the rest of the
    input. *)
Hypothesis goes_on : forall l,
  0 <= pos l -> p (from (input l) (pos l)) = true ->
  body st l = Continue (next_ l).

Lemma scan_rests : forall n s l dc rest,
  (String.length s <= n)%nat -> allRests p s (String dc rest) = true ->
  byte_of dc < 128 -> 0 <= pos l ->
  from (input l) (pos l) = s ++ String dc rest ->
  exists k l1,
    (forall f, loop (k + f) st l = loop f st l1) /\
    input l1 = input l /\ start l1 = start l /\ items l1 = items l /\
    pos l1 = pos l + len s /\ lline l1 = lline l + nlcount s /\
    from (input l1) (pos l1) = String dc rest.
Proof.
  induction n as [|n IH]; intros s l dc rest Hn Hs Hd Hp E.
  - destruct s; [|simpl in Hn; lia].
    exists 0%nat, l. cbn. repeat split; trivial; lia.
  - destruct s as [|c t].
    { exists 0%nat, l. cbn. repeat split; trivial; lia. }
    pose proof Hs as Hs'. cbn [allRests] in Hs'.
    apply andb_true_iff in Hs'. destruct Hs' as [Hc Ht].
    cbn [String.append] in E.
    assert (Dd : exists d, 0 <= d < 128 /\ byte_of c <> d).
    { destruct (Z.eq_dec (byte_of c) 0) as [Z0|Z0];
        [exists 1|exists 0]; lia. }
    destruct Dd as (d & Dr & Dn).
    destruct (next_over d l c t dc rest Hp E Hd Dn Dr)
      as (w & [W1 W2] & _ & I1 & S1 & Q1 & P1 & L1).
    assert (Wn : (Z.to_nat w <= String.length (String c t))%nat).
    { unfold len in W2. cbn [String.length]. lia. }
    destruct (IH (drop (Z.to_nat w) (String c t)) (next_ l) dc rest)
      as (k & l1 & K & I2 & S2 & Q2 & P2 & L2 & F2).
    + rewrite len_drop by exact Wn. cbn [String.length] in *. lia.
    + now apply allRests_drop.
    + exact Hd.
    + lia.
    + rewrite I1, P1, from_add, E by lia.
      change (String c (t ++ String dc rest))
        with (String c t ++ String dc rest).
      now rewrite drop_app.
    + exists (S k), l1. split.
      { intros f. cbn [Nat.add loop].
        rewrite (goes_on l Hp) by (now rewrite E). apply K. }
      assert (Ln : len (drop (Z.to_nat w) (String c t))
                   = len (String c t) - w).
      { unfold len. rewrite len_drop by exact Wn. lia. }
      repeat split; try congruence.
      * rewrite P2, P1, Ln. lia.
      * pose proof (substring_drop_all (String c t) (Z.to_nat w)) as X.
        apply (f_equal nlcount) in X. rewrite nlcount_app in X.
        rewrite L2, L1. lia.
Qed.

End ScanRests.





(** X28. [lexEm], called after the opening [__] with bytes in which no
    [__] starts followed by [__], sends those bytes verbatim as one
    [itemEm] with the line of the closing mark and returns the state it
    was made with, after the closing mark. *)
Theorem X28_lexEm_sends_the_text_up_to_the_mark fn l s rest :
  0 <= pos l ->
  allRests inEm s (String "_" (String "_" rest)) = true ->
  from (input l) (pos l) = s ++ String "_" (String "_" rest) ->
  exists fuel l',
    call fuel (lexEm fn) l = Done (l', Some fn) /\
    items l' = (items l ++ [mkItem itemEm s (lline l + nlcount s)])%list /\
    input l' = input l /\ pos l' = pos l + len s + 2 /\ start l' = pos l'.
Proof.
  intros Hp Hs E.
  assert (G : forall x, 0 <= pos x ->
                        inEm (from (input x) (pos x)) = true ->
                        body (lexEm fn) x = Continue (next_ x)).
  { intros x _ H. cbn [body]. unfold lexEm_body, at_prefix.
    unfold inEm in H. apply negb_true_iff in H. now rewrite H. }
  destruct (scan_rests (lexEm fn) inEm G (String.length s) s (ignore l)
              "_"%char (String "_" rest) (le_n _) Hs ltac:(reflexivity)
              Hp E)
    as (k & l1 & K & I1 & S1 & Q1 & P1 & L1 & F1).
  cbn [ignore set_start input start items pos lline] in *.
  assert (P1' : 0 <= pos l1) by (unfold len in P1; lia).
  set (e := emit itemEm l1).
  assert (B : body (lexEm fn) l1
              = Return (ignore (next_ (next_ e))) (Some fn)).
  { cbn [body]. unfold lexEm_body, at_prefix. rewrite F1.
    unfold emSymbol. rewrite !HasPrefix_cons, HasPrefix_empty.
    reflexivity. }
  assert (Pe : pending l1 = s).
  { apply (pending_segment l1 (pos l) s (String "_" (String "_" rest)));
      trivial. now rewrite I1. }
  assert (Fe : from (input e) (pos e) = String "_" (String "_" rest))
    by exact F1.
  destruct (next_byte_fields e _ _ P1' Fe ltac:(reflexivity))
    as (A1 & A2 & A3 & A4 & A5).
  assert (Pe0 : pos e = pos l1) by reflexivity.
  assert (F2 : from (input (next_ e)) (pos (next_ e)) = String "_" rest).
  { rewrite A1, A4, from_add, Fe by (trivial; lia). reflexivity. }
  assert (P2 : 0 <= pos (next_ e)) by lia.
  destruct (next_byte_fields (next_ e) _ _ P2 F2 ltac:(reflexivity))
    as (B1 & B2 & B3 & B4 & B5).
  exists (k + 1)%nat, (ignore (next_ (next_ e))). split.
  { unfold call. cbn [enter]. rewrite K. now apply loop_done. }
  cbn [ignore set_start input start pos items].
  rewrite B1, B3, B4, A1, A3, A4.
  subst e. cbn [emit set_start send input pos items].
  rewrite Pe, Q1, I1, P1, L1. repeat split; trivial; lia.
Qed.

Lemma X28_witness :
  exists fuel l',
    call fuel (lexEm lexText)
         (mkLexer ("__a_b__c") 0 2 1 1 [] (Some lexText))
    = Done (l', Some lexText) /\
    items l' = ([] ++ [mkItem itemEm "a_b" (1 + nlcount "a_b")])%list /\
    input l' = "__a_b__c" /\ pos l' = 2 + len "a_b" + 2 /\
    start l' = pos l'.
Proof.
  apply (X28_lexEm_sends_the_text_up_to_the_mark lexText
           (mkLexer ("__a_b__c") 0 2 1 1 [] (Some lexText)) "a_b" "c").
  - simpl. lia.
  - reflexivity.
  - reflexivity.
Defined.

(** ** Tables *)








